(** * QICKIT: the gate-matrix helper and the Shannon-decomposition driver

    A shallow embedding of

    - [qickit/circuit/gate_matrix/gate.py] (class [Gate]),
    - [qickit/synthesis/gate_decompositions/one_qubit_decomposition.py]
      (class [OneQubitDecomposition]),
    - [qickit/synthesis/unitarypreparation/shannon_decomposition.py]
      (class [ShannonDecomposition]),

    followed by the properties that the specification states about them
    and by further properties of the same code.

    Conventions.  A Python [float] is modelled by a real number and a
    [complex] by a pair of reals, so arithmetic is exact; a numpy array of
    rank two is a list of rows.  A Python call that may raise returns a
    [result]; code that appends to the circuit threads the circuit
    explicitly.  The numerical routines of scipy and the parts of qickit
    that are not in the source tree (the simulator of the circuit class,
    the two-qubit decomposition, [decompose_uc_rotations], the Hermitian
    predicate) are the fields of the class [Backend]; the log of the
    circuit class, the operator wrapper and the unitarity predicate are
    modelled from the specification. *)

From Stdlib Require Import String Ascii.
From Stdlib Require Import Reals Lra Lia ZArith NArith Nnat Bool Permutation FinFun List.
Import ListNotations.

Open Scope string_scope.
Open Scope list_scope.
Open Scope nat_scope.

(* ================================================================== *)
(** * Part I: the model *)
(* ================================================================== *)

(** ** Python results, exceptions, sequences *)

Module Py.

Inductive exn : Type :=
| ValueError (msg : string)
| TypeError (msg : string)
| IndexError
| AssertionError
| RecursionError.

Inductive result (A : Type) : Type :=
| Ok (a : A)
| Raise (e : exn).

Arguments Ok {A} a.
Arguments Raise {A} e.

Definition bind {A B} (r : result A) (k : A -> result B) : result B :=
  match r with
  | Ok a => k a
  | Raise e => Raise e
  end.

(** [for x in xs: acc = body(acc, x)], stopping at the first exception. *)
Fixpoint for_each {A S} (body : S -> A -> result S) (xs : list A) (acc : S)
  : result S :=
  match xs with
  | [] => Ok acc
  | x :: xs' => bind (body acc x) (for_each body xs')
  end.

(** [l[i]] for a non-negative [i]. *)
Definition index {A} (l : list A) (i : nat) : result A :=
  match nth_error l i with
  | Some a => Ok a
  | None => Raise IndexError
  end.

(** [l[-1]]. *)
Definition last_item {A} (l : list A) : result A :=
  match rev l with
  | a :: _ => Ok a
  | [] => Raise IndexError
  end.

(** [l[:-1]]. *)
Definition but_last {A} (l : list A) : list A := removelast l.

(** [l[a:b]] for non-negative bounds. *)
Definition slice {A} (l : list A) (a b : nat) : list A :=
  firstn (b - a) (skipn a l).

(** [l[a:]]. *)
Definition slice_from {A} (l : list A) (a : nat) : list A := skipn a l.

(** [l[i] = v] on a list, in range. *)
Fixpoint set_nth {A} (i : nat) (v : A) (l : list A) : list A :=
  match l, i with
  | [], _ => []
  | _ :: l', O => v :: l'
  | a :: l', S i' => a :: set_nth i' v l'
  end.

(** [range(n)]. *)
Definition range (n : nat) : list nat := seq 0 n.

End Py.

Import Py.

Notation "x <- c1 ;; c2" := (Py.bind c1 (fun x => c2))
  (at level 61, c1 at next level, right associativity).

(** ** Binary strings: [bin], [np.binary_repr], [zfill], [rstrip], [int(_, 2)] *)

Module BinStr.

Definition pystr := list ascii.

Definition digit (b : bool) : ascii := if b then "1"%char else "0"%char.

(** Digits of a positive number, least significant first. *)
Fixpoint pos_digits_lsb (p : positive) : pystr :=
  match p with
  | xH => ["1"%char]
  | xO q => "0"%char :: pos_digits_lsb q
  | xI q => "1"%char :: pos_digits_lsb q
  end.

(** [bin(n)[2:]], which is also [np.binary_repr(n)] for [n >= 0]. *)
Definition binary_repr (n : nat) : pystr :=
  match N.of_nat n with
  | N0 => ["0"%char]
  | Npos p => rev (pos_digits_lsb p)
  end.

(** [s.zfill(w)] for a string without sign. *)
Definition zfill (w : nat) (s : pystr) : pystr :=
  repeat "0"%char (w - length s) ++ s.

(** [s[::-1]]. *)
Definition reversed (s : pystr) : pystr := rev s.

Fixpoint lstrip_zero (s : pystr) : pystr :=
  match s with
  | c :: s' => if Ascii.eqb c "0"%char then lstrip_zero s' else s
  | [] => []
  end.

(** [s.rstrip("0")]. *)
Definition rstrip_zero (s : pystr) : pystr := rev (lstrip_zero (rev s)).

Definition digit_value (c : ascii) : result nat :=
  if Ascii.eqb c "0"%char then Ok 0
  else if Ascii.eqb c "1"%char then Ok 1
  else Raise (ValueError "invalid literal for int() with base 2").

(** [int(s, 2)]: the empty string and any character other than the two
    binary digits raise [ValueError]. *)
Definition int_base2 (s : pystr) : result nat :=
  match s with
  | [] => Raise (ValueError "invalid literal for int() with base 2")
  | _ => for_each (fun acc c => d <- digit_value c ;; Ok (2 * acc + d)) s 0
  end.

End BinStr.

(** ** Complex numbers and numpy arrays of rank two *)

Module Np.

Local Open Scope R_scope.

Definition C : Type := R * R.

Definition C0 : C := (0, 0).
Definition C1 : C := (1, 0).
Definition Cadd (a b : C) : C := (fst a + fst b, snd a + snd b).
Definition Csub (a b : C) : C := (fst a - fst b, snd a - snd b).
Definition Cmul (a b : C) : C :=
  (fst a * fst b - snd a * snd b, fst a * snd b + snd a * fst b).
Definition Cneg (a : C) : C := (- fst a, - snd a).
Definition Cconj (a : C) : C := (fst a, - snd a).
Definition Cabs (a : C) : R := sqrt (fst a * fst a + snd a * snd a).
Definition Csum (l : list C) : C := fold_right Cadd C0 l.

Definition Matrix : Type := list (list C).

Definition shape0 (M : Matrix) : nat := length M.
Definition shape1 (M : Matrix) : nat := length (hd [] M).

Definition entry (M : Matrix) (i j : nat) : C := nth j (nth i M []) C0.

(** [M[i][j]] as Python evaluates it. *)
Definition get_item (M : Matrix) (i j : nat) : result C :=
  row <- Py.index M i ;; Py.index row j.

(** [M[i][j] = v]. *)
Definition set_item (M : Matrix) (i j : nat) (v : C) : result Matrix :=
  row <- Py.index M i ;;
  if (j <? length row)%nat then Ok (Py.set_nth i (Py.set_nth j v row) M)
  else Raise IndexError.

(** [np.zeros((r, c))]. *)
Definition zeros (r c : nat) : Matrix := repeat (repeat C0 c) r.

(** [np.eye(n)]. *)
Definition eye (n : nat) : Matrix :=
  map (fun i => map (fun j => if (i =? j)%nat then C1 else C0) (seq 0 n))
      (seq 0 n).

(** [np.kron(A, B)]: block [(i, j)] of the result is [A[i][j] * B]. *)
Definition kron (A B : Matrix) : Matrix :=
  flat_map
    (fun rowA =>
       map (fun rowB => flat_map (fun a => map (Cmul a) rowB) rowA) B)
    A.

(** The broadcasting rule of numpy for one axis. *)
Definition broadcast_dim (a b : nat) : option nat :=
  if (a =? b)%nat then Some a
  else if (a =? 1)%nat then Some b
  else if (b =? 1)%nat then Some a
  else None.

Definition bentry (M : Matrix) (i j : nat) : C :=
  entry M (if (shape0 M =? 1)%nat then 0%nat else i)
          (if (shape1 M =? 1)%nat then 0%nat else j).

(** [A + B] on arrays, with broadcasting; shapes that cannot be
    broadcast raise [ValueError]. *)
Definition add (A B : Matrix) : result Matrix :=
  match broadcast_dim (shape0 A) (shape0 B),
        broadcast_dim (shape1 A) (shape1 B) with
  | Some r, Some c =>
      Ok (map (fun i => map (fun j => Cadd (bentry A i j) (bentry B i j))
                            (seq 0 c))
              (seq 0 r))
  | _, _ => Raise (ValueError "operands could not be broadcast together")
  end.

(** [M.T.conj()]. *)
Definition conj_transpose (M : Matrix) : Matrix :=
  map (fun j => map (fun i => Cconj (entry M i j)) (seq 0 (shape0 M)))
      (seq 0 (shape1 M)).

(** [A @ B]. *)
Definition matmul (A B : Matrix) : Matrix :=
  map (fun i =>
         map (fun j =>
                Csum (map (fun k => Cmul (entry A i k) (entry B k j))
                          (seq 0 (shape1 A))))
             (seq 0 (shape1 B)))
      (seq 0 (shape0 A)).

(** [np.diag(v)] for a vector [v]. *)
Definition diag (v : list C) : Matrix :=
  map (fun i =>
         map (fun j => if (i =? j)%nat then nth i v C0 else C0)
             (seq 0 (length v)))
      (seq 0 (length v)).

(** [M.diagonal()]. *)
Definition diagonal (M : Matrix) : list C :=
  map (fun i => entry M i i) (seq 0 (Nat.min (shape0 M) (shape1 M))).

(** [int(np.log2(n))] for a positive [n]. *)
Definition int_log2 (n : nat) : nat := Nat.log2 n.

End Np.

Import Np.

(** ** [qickit.predicates] *)

Module Predicates.

Local Open Scope R_scope.

(** The tolerance of the unitarity test (section 3 of the specification). *)
Definition tau_unitary : R := 1e-8.

Definition is_square_matrix (M : Matrix) : bool :=
  forallb (fun row => (length row =? length M)%nat) M.

Definition is_power_of_two (n : nat) : bool := (n =? 2 ^ Nat.log2 n)%nat.

(** [|z| <= tau]. *)
Definition within (tau : R) (z : C) : bool :=
  if Rle_dec (Cabs z) tau then true else false.

Definition identity_entry (i j : nat) : C :=
  if (i =? j)%nat then C1 else C0.

(** Modelled from the spec: [qickit.predicates.is_unitary_matrix] is not
    in the source tree.  Section 4.1 of the specification: true iff the
    matrix is square, its side is a power of two, and every entry of
    [M M^H - I] has modulus at most the tolerance. *)
Definition is_unitary_matrix (M : Matrix) : bool :=
  is_square_matrix M
  && is_power_of_two (shape0 M)
  && let P := matmul M (conj_transpose M) in
     forallb
       (fun i =>
          forallb
            (fun j => within tau_unitary
                        (Csub (entry P i j) (identity_entry i j)))
            (seq 0 (shape0 M)))
       (seq 0 (shape0 M)).

End Predicates.

Import Predicates.

(** ** [qickit/circuit/gate_matrix/gate.py] *)

Module GateMatrix.

Record Gate : Type := mkGate {
  name : string;
  matrix : Matrix;
  num_qubits : nat;
  ordering : string
}.

(** [Gate.__init__]. *)
Definition init (name : string) (matrix : Matrix) : result Gate :=
  if negb (is_unitary_matrix matrix) then
    Raise (ValueError "The matrix must be unitary.")
  else
    Ok {| name := name;
          matrix := matrix;
          num_qubits := int_log2 (shape0 matrix);
          ordering := "MSB" |}.

(** [Gate.adjoint]: a new array, [self] is only read. *)
Definition adjoint (self : Gate) : Matrix := conj_transpose (matrix self).

Definition zero_projector : Matrix := [[C1; C0]; [C0; C0]].
Definition one_projector : Matrix := [[C0; C0]; [C0; C1]].

(** [Gate.control].  The argument is a Python [int], so the
    [isinstance] test of the source cannot fail. *)
Definition control (self : Gate) (num_control_qubits : Z) : result Gate :=
  if (num_control_qubits <? 1)%Z then
    Raise (ValueError "The number of control qubits must be greater than 0.")
  else
    controlled_matrix <-
      Np.add (kron zero_projector (eye (2 ^ Z.to_nat num_control_qubits)))
             (kron one_projector (matrix self)) ;;
    init (String.append "C-" (name self)) controlled_matrix.

(** [int(bin(i)[2:].zfill(int(np.log2(size)))[::-1], 2)]. *)
Definition reversed_index (size i : nat) : result nat :=
  BinStr.int_base2
    (BinStr.reversed (BinStr.zfill (int_log2 size) (BinStr.binary_repr i))).

(** The body of the inner loop of [change_mapping]. *)
Definition reorder_step (M : Matrix) (size i : nat)
    (reordered_matrix : Matrix) (j : nat) : result Matrix :=
  new_i <- reversed_index size i ;;
  new_j <- reversed_index size j ;;
  v <- get_item M i j ;;
  set_item reordered_matrix new_i new_j v.

(** The two nested loops of [change_mapping]. *)
Definition reorder (M : Matrix) : result Matrix :=
  let size := length M in
  Py.for_each
    (fun reordered_matrix i =>
       Py.for_each (reorder_step M size i) (Py.range size) reordered_matrix)
    (Py.range size) (zeros size size).

(** [Gate.change_mapping]: returns the gate after the call. *)
Definition change_mapping (self : Gate) (new_ordering : string)
  : result Gate :=
  if negb (existsb (String.eqb new_ordering) ["MSB"; "LSB"]) then
    Raise (ValueError "The ordering must be either 'MSB' or 'LSB'.")
  else if String.eqb new_ordering (ordering self) then
    Ok self
  else
    reordered_matrix <- reorder (matrix self) ;;
    Ok {| name := name self;
          matrix := reordered_matrix;
          num_qubits := num_qubits self;
          ordering := new_ordering |}.

End GateMatrix.

(** ** The circuit collaborator and the operator wrapper *)

Module Circ.

(** Modelled from the spec: the circuit class is not in the source tree.
    Section 3 of the specification: an append-only record of primitive
    gate invocations; insertion order is the only source of semantics. *)
Inductive gate : Type :=
| RY (angle : R) (qubit : nat)
| RZ (angle : R) (qubit : nat)
| U3 (angles : list R) (qubit : nat)
| GlobalPhase (angle : R)
| CX (control target : nat)
| CZ (control target : nat)
| UCRZ (angles : list R) (controls : list nat) (target : nat).

(** Modelled from the spec: the circuit class is not in the source tree.
    A circuit is its number of qubits and its log. *)
Record Circuit : Type := mkCircuit {
  num_qubits : nat;
  circuit_log : list gate
}.

Definition is_cz (g : gate) : bool :=
  match g with
  | CZ _ _ => true
  | _ => false
  end.

(** [output_framework(n)]. *)
Definition new (n : nat) : Circuit :=
  {| num_qubits := n; circuit_log := [] |}.

(** Modelled from the spec: every gate method of the circuit class
    appends one record to the log. *)
Definition append (g : gate) (c : Circuit) : Circuit :=
  {| num_qubits := num_qubits c; circuit_log := circuit_log c ++ [g] |}.

(** [circuit.circuit_log.extend(gs)]. *)
Definition extend (gs : list gate) (c : Circuit) : Circuit :=
  {| num_qubits := num_qubits c; circuit_log := circuit_log c ++ gs |}.

(** [circuit.reset()]. *)
Definition reset (c : Circuit) : Circuit :=
  {| num_qubits := num_qubits c; circuit_log := [] |}.

(** Modelled from the spec: [qickit.primitives.Operator] is not in the
    source tree.  Section 4.9: a matrix that is not unitary is reported
    when the wrapper is constructed. *)
Record Operator : Type := mkOperator {
  data : Matrix;
  op_num_qubits : nat
}.

Definition Operator_init (m : Matrix) : result Operator :=
  if is_unitary_matrix m then
    Ok {| data := m; op_num_qubits := int_log2 (shape0 m) |}
  else Raise (ValueError "Operator must be unitary.").

(** An argument of type [NDArray | Operator]. *)
Inductive unitary_arg : Type :=
| Array (m : Matrix)
| Wrapped (op : Operator).

(** An argument of type [int | Sequence[int]]. *)
Inductive qubits_arg : Type :=
| Single (q : nat)
| Many (qs : list nat).

Definition as_operator (u : unitary_arg) : result Operator :=
  match u with
  | Array m => Operator_init m
  | Wrapped op => Ok op
  end.

Definition as_list (q : qubits_arg) : list nat :=
  match q with
  | Single q => [q]
  | Many qs => qs
  end.

End Circ.

Import Circ.

(** ** [one_qubit_decomposition.py] *)

Module OneQubit.

Local Open Scope R_scope.

(** [math.atan2] and [np.arctan2]. *)
Definition atan2 (y x : R) : R :=
  if Rlt_dec 0 x then atan (y / x)
  else if Rlt_dec x 0 then
    if Rle_dec 0 y then atan (y / x) + PI else atan (y / x) - PI
  else if Rlt_dec 0 y then PI / 2
  else if Rlt_dec y 0 then - (PI / 2)
  else 0.

(** [np.angle].  A real number has no sign of zero: where the imaginary
    part is [-0.0] on the negative real axis numpy answers [-pi], and
    this answers [PI]. *)
Definition angle (z : C) : R := atan2 (snd z) (fst z).

(** [np.linalg.det] on a 2 x 2 array. *)
Definition det (U : Matrix) : C :=
  Csub (Cmul (entry U 0 0) (entry U 1 1)) (Cmul (entry U 0 1) (entry U 1 0)).

(** [z ** (-0.5)] on a complex scalar other than zero: modulus
    [|z| ^ (-1/2)], argument [- arg z / 2].  At zero numpy answers
    [inf] or [nan]; the value here is then of no use. *)
Definition pow_neg_half (z : C) : C :=
  let r := / sqrt (Cabs z) in
  let a := - angle z / 2 in
  (r * cos a, r * sin a).

(** [np.rint]: the nearest integer, ties to the even one. *)
Definition rint (x : R) : Z :=
  let n := Int_part x in
  let f := x - IZR n in
  if Rlt_dec f (1 / 2) then n
  else if Rlt_dec (1 / 2) f then (n + 1)%Z
  else if Z.even n then n else (n + 1)%Z.

(** [np.round(x, d)] on a float. *)
Definition round_float (d : nat) (x : R) : R :=
  IZR (rint (x * 10 ^ d)) / 10 ^ d.

(** [v.round(d)] on a complex array rounds both parts of every entry. *)
Definition round (d : nat) (v : Matrix) : Matrix :=
  map (map (fun z => (round_float d (fst z), round_float d (snd z)))) v.

(** [coe * U]. *)
Definition scale (coe : C) (U : Matrix) : Matrix := map (map (Cmul coe)) U.

(** [OneQubitDecomposition.params_zyz], on a 2 x 2 array: on an array
    of another shape [v[1, 0]] raises in Python, and [entry] reads a
    missing cell as zero. *)
Definition params_zyz (U : Matrix) : R * (R * R * R) :=
  let coe := pow_neg_half (det U) in
  let alpha := - angle coe in
  let v := scale coe U in
  let v := round 10 v in
  let theta := 2 * atan2 (Cabs (entry v 1 0)) (Cabs (entry v 0 0)) in
  let phi_lam_sum := 2 * angle (entry v 1 1) in
  let phi_lam_diff := 2 * angle (entry v 1 0) in
  let phi := (phi_lam_sum + phi_lam_diff) / 2 in
  let lam := (phi_lam_sum - phi_lam_diff) / 2 in
  (alpha, (theta, phi, lam)).

(** [OneQubitDecomposition.params_u3]. *)
Definition params_u3 (U : Matrix) : R * (R * R * R) :=
  let '(alpha, (theta, phi, lam)) := params_zyz U in
  let phase := alpha - (phi + lam) / 2 in
  (phase, (theta, phi, lam)).

Record OneQubitDecomposition : Type := mkOneQubit { basis : string }.

(** [OneQubitDecomposition.__init__]; the default basis is ["u3"]. *)
Definition init (basis : string) : result OneQubitDecomposition :=
  if negb (existsb (String.eqb basis) ["zyz"; "u3"]) then
    Raise (ValueError "not a supported decomposition method of ['zyz', 'u3'].")
  else Ok {| basis := basis |}.

Definition default : OneQubitDecomposition := {| basis := "u3" |}.

(** [OneQubitDecomposition.apply_unitary]. *)
Definition apply_unitary (self : OneQubitDecomposition) (circuit : Circuit)
    (unitary : unitary_arg) (qubit_indices : qubits_arg) : result Circuit :=
  let qubit_indices := as_list qubit_indices in
  if negb (length qubit_indices =? 1)%nat then
    Raise (ValueError "One-qubit decomposition requires exactly one qubit index.")
  else
    unitary <- as_operator unitary ;;
    if negb (op_num_qubits unitary =? 1)%nat then
      Raise (ValueError "One-qubit decomposition requires a 2x2 unitary matrix.")
    else
      q <- Py.index qubit_indices 0 ;;
      if String.eqb (basis self) "zyz" then
        let '(alpha, (theta, phi, lamda)) := params_zyz (data unitary) in
        Ok (append (GlobalPhase alpha)
              (append (RZ phi q) (append (RY theta q) (append (RZ lamda q) circuit))))
      else if String.eqb (basis self) "u3" then
        let '(phase, (theta, phi, lamda)) := params_u3 (data unitary) in
        Ok (append (GlobalPhase phase) (append (U3 [theta; phi; lamda] q) circuit))
      else Ok circuit.

End OneQubit.


(** ** [shannon_decomposition.py] *)

Module Shannon.

Local Open Scope R_scope.

Definition EPSILON : R := 1e-10.

(** [np.abs(angle) > EPSILON]. *)
Definition exceeds_epsilon (angle : R) : bool :=
  if Rlt_dec EPSILON (Rabs angle) then true else false.

(** What the driver takes from scipy and from the parts of qickit that
    are not in the source tree. *)
Class Backend : Type := {
  (** [scipy.linalg.cossin(U, separate=True, p=p, q=q)]. *)
  cossin : Matrix -> nat -> nat ->
           (Matrix * Matrix) * list R * (Matrix * Matrix);
  (** [scipy.linalg.eigh]. *)
  eigh : Matrix -> list R * Matrix;
  (** [scipy.linalg.schur(u, output="complex")]. *)
  schur : Matrix -> Matrix * Matrix;
  (** [qickit.predicates.is_hermitian_matrix]. *)
  is_hermitian_matrix : Matrix -> bool;
  (** [qickit.circuit.circuit_utils.decompose_uc_rotations]: the list
      after the call, which rewrites it in place. *)
  decompose_uc_rotations : list R -> nat -> nat -> bool -> list R;
  (** The gates that [TwoQubitDecomposition.apply_unitary] appends. *)
  two_qubit_gates : Matrix -> list nat -> result (list gate);
  (** [TwoQubitDecomposition.apply_unitary_up_to_diagonal]. *)
  apply_unitary_up_to_diagonal :
    Circuit -> Matrix -> list nat -> result (Circuit * Matrix);
  (** [TwoQubitDecomposition.prepare_unitary]. *)
  prepare_unitary : Matrix -> result Circuit;
  (** [circuit.get_unitary()]. *)
  get_unitary : Circuit -> Matrix;
  (** [numpy.testing.assert_almost_equal] passes. *)
  almost_equal : Matrix -> Matrix -> bool
}.

(** [np.emath.sqrt] on a complex scalar: the principal square root. *)
Definition emath_sqrt (z : C) : C :=
  let r := sqrt (Cabs z) in
  let a := OneQubit.angle z / 2 in
  (r * cos a, r * sin a).

(** [u2[:, half_size:] = np.negative(u2[:, half_size:])]. *)
Definition negate_columns_from (half_size : nat) (u2 : Matrix) : Matrix :=
  map (fun row => firstn half_size row ++ map Cneg (skipn half_size row)) u2.

(** [enumerate(l)]. *)
Definition enumerate {A} (l : list A) : list (nat * A) :=
  combine (seq 0 (length l)) l.

(** The state of one call of [apply_unitary]: the caller's circuit and
    the list [a2_qsd_blocks] that the nested functions share. *)
Record state : Type := mkState {
  circuit : Circuit;
  a2_qsd_blocks : list (nat * nat)
}.

Definition emit (g : gate) (st : state) : state :=
  {| circuit := append g (circuit st); a2_qsd_blocks := a2_qsd_blocks st |}.

Definition emit_all (gs : list gate) (st : state) : state :=
  {| circuit := extend gs (circuit st); a2_qsd_blocks := a2_qsd_blocks st |}.

Section Driver.

Context {B : Backend}.

(** [np.binary_repr(i + 1)] minus its trailing zeros. *)
Definition control_index_of (i : nat) : nat :=
  let binary_rep := BinStr.binary_repr (i + 1) in
  (length binary_rep - length (BinStr.rstrip_zero binary_rep))%nat.

(** The control index that the loop of [get_ucry_cz] computes at [i]. *)
Definition control_index (len_angles : nat) (control_indices : list nat)
    (i : nat) : nat :=
  if negb (i =? len_angles - 1)%nat then control_index_of i
  else (length control_indices - 1)%nat.

(** One turn of the loop of [get_ucry_cz]. *)
Definition ucry_cz_step (num_angles len_angles : nat)
    (control_indices : list nat) (target_index : nat)
    (st : state) (item : nat * R) : result state :=
  let '(i, angle) := item in
  let st := if exceeds_epsilon angle then emit (RY angle target_index) st
            else st in
  let control_index := control_index len_angles control_indices i in
  if (i <? num_angles - 1)%nat then
    c <- Py.index control_indices control_index ;;
    Ok (emit (CZ c target_index) st)
  else Ok st.

(** [get_ucry_cz]. *)
Definition get_ucry_cz (qubit_indices : list nat) (angles : list R)
    (st : state) : result state :=
  let num_angles := length angles in
  let control_indices := Py.but_last qubit_indices in
  target_index <- Py.last_item qubit_indices ;;
  match control_indices with
  | [] =>
      a0 <- Py.index angles 0 ;;
      if exceeds_epsilon a0 then Ok (emit (RY a0 target_index) st)
      else Ok st
  | _ :: _ =>
      let angles := decompose_uc_rotations angles 0 (length angles) false in
      Py.for_each
        (ucry_cz_step num_angles (length angles) control_indices target_index)
        (enumerate angles) st
  end.

(** [demultiplexor], with the recursive call of the driver abstracted. *)
Definition demultiplexor_with
    (qsd : list nat -> Matrix -> nat -> state -> result state)
    (demux_qubits : list nat) (unitary_1 unitary_2 : Matrix)
    (recursion_depth : nat) (st : state) : result state :=
  let u := matmul unitary_1 (conj_transpose unitary_2) in
  let '(eigenvalues, eigenvectors) :=
    if is_hermitian_matrix u then
      let '(w, v) := eigh u in (map (fun x => (x, 0)) w, v)
    else
      let '(t, z) := schur u in (diagonal t, z) in
  let eigenvalues_sqrt := map emath_sqrt eigenvalues in
  let diagonal := diag eigenvalues_sqrt in
  let W := matmul (matmul diagonal (conj_transpose eigenvectors)) unitary_2 in
  st <- qsd (Py.but_last demux_qubits) W (recursion_depth + 1)%nat st ;;
  let angles := map (fun z => 2 * OneQubit.angle (Cconj z)) eigenvalues_sqrt in
  target <- Py.last_item demux_qubits ;;
  let st := emit (UCRZ angles (Py.but_last demux_qubits) target) st in
  qsd (Py.but_last demux_qubits) eigenvectors (recursion_depth + 1)%nat st.

Definition lift_circuit (f : Circuit -> result Circuit) (st : state)
  : result state :=
  c <- f (circuit st) ;;
  Ok {| circuit := c; a2_qsd_blocks := a2_qsd_blocks st |}.

(** [apply_a2_optimization]; [unitary_data] is the matrix that the
    enclosing [apply_unitary] was called with. *)
Definition apply_a2_optimization (unitary_data : Matrix) (st : state)
  : result state :=
  let blocks := a2_qsd_blocks st in
  let log := circuit_log (circuit st) in
  if (length blocks <? 2)%nat then Ok st
  else
    first_block <- Py.index blocks 0 ;;
    parts <-
      Py.for_each
        (fun (acc : list (list gate) * list (list gate)) item =>
           let '(block_index, block) := (item : nat * (nat * nat)) in
           next_block <- Py.index blocks (block_index + 1) ;;
           Ok (fst acc ++ [Py.slice log (fst block) (snd block)],
               snd acc ++ [Py.slice log (snd block) (fst next_block)]))
        (enumerate (Py.but_last blocks))
        ([], [Py.slice log 0 (fst first_block)]) ;;
    last_block <- Py.last_item blocks ;;
    let qsd_blocks :=
      fst parts ++ [Py.slice log (fst last_block) (snd last_block)] in
    let circuit_blocks :=
      snd parts ++ [Py.slice_from log (snd last_block)] in
    qsd_blocks <-
      Py.for_each
        (fun qsd_blocks block_index =>
           log_1 <- Py.index qsd_blocks block_index ;;
           log_2 <- Py.index qsd_blocks (block_index + 1) ;;
           let unitary_1 := get_unitary {| num_qubits := 2; circuit_log := log_1 |} in
           let unitary_2 := get_unitary {| num_qubits := 2; circuit_log := log_2 |} in
           r <- apply_unitary_up_to_diagonal (Circ.new 2) unitary_1 [0; 1]%nat ;;
           circuit_2 <- prepare_unitary (matmul unitary_2 (snd r)) ;;
           Ok (Py.set_nth (block_index + 1) (circuit_log circuit_2)
                 (Py.set_nth block_index (circuit_log (fst r)) qsd_blocks)))
        (Py.range (length qsd_blocks - 1)) qsd_blocks ;;
    match circuit_blocks with
    | [] => Raise IndexError
    | first :: rest =>
        let rebuilt :=
          extend (flat_map (fun p => fst p ++ snd p) (combine qsd_blocks rest))
                 (extend first (reset (circuit st))) in
        if almost_equal (get_unitary rebuilt) unitary_data then
          Ok {| circuit := rebuilt; a2_qsd_blocks := a2_qsd_blocks st |}
        else Raise AssertionError
    end.

(** [quantum_shannon_decomposition].  The fuel bounds the depth of the
    Python call stack; running out of it is [RecursionError]. *)
Fixpoint quantum_shannon_decomposition (fuel : nat) (unitary_data : Matrix)
    (qubit_indices : list nat) (unitary : Matrix) (recursion_depth : nat)
    (st : state) : result state :=
  match fuel with
  | O => Raise RecursionError
  | S fuel' =>
      let dim := shape0 unitary in
      if (dim =? 2)%nat then
        lift_circuit
          (fun c => OneQubit.apply_unitary OneQubit.default c
                      (Array unitary) (Many qubit_indices))
          st
      else if (dim =? 4)%nat then
        let current_index := length (circuit_log (circuit st)) in
        gs <- two_qubit_gates unitary qubit_indices ;;
        let st := emit_all gs st in
        if (0 <? recursion_depth)%nat then
          Ok {| circuit := circuit st;
                a2_qsd_blocks :=
                  a2_qsd_blocks st
                  ++ [(current_index, length (circuit_log (circuit st)))] |}
        else Ok st
      else
        let '((u1, u2), vtheta, (v1h, v2h)) :=
          cossin unitary (dim / 2) (dim / 2) in
        let demultiplexor :=
          demultiplexor_with
            (quantum_shannon_decomposition fuel' unitary_data) in
        st <- demultiplexor qubit_indices v1h v2h recursion_depth st ;;
        let num_angles := length vtheta in
        let half_size := (num_angles / 2)%nat in
        st <- get_ucry_cz qubit_indices (map (fun t => 2 * t) vtheta) st ;;
        let u2 := negate_columns_from half_size u2 in
        st <- demultiplexor qubit_indices u1 u2 recursion_depth st ;;
        if (recursion_depth =? 0)%nat then apply_a2_optimization unitary_data st
        else Ok st
  end.

(** [demultiplexor]. *)
Definition demultiplexor (fuel : nat) (unitary_data : Matrix) :=
  demultiplexor_with (quantum_shannon_decomposition fuel unitary_data).

(** [ShannonDecomposition.apply_unitary]. *)
Definition apply_unitary (fuel : nat) (circuit : Circuit)
    (unitary : unitary_arg) (qubit_indices : qubits_arg) : result Circuit :=
  unitary <- as_operator unitary ;;
  let qubit_indices := as_list qubit_indices in
  if negb (length qubit_indices =? op_num_qubits unitary)%nat then
    Raise (ValueError
      "The number of qubit indices must match the number of qubits in the unitary.")
  else
    st <- quantum_shannon_decomposition fuel (data unitary) qubit_indices
            (data unitary) 0
            {| circuit := circuit; a2_qsd_blocks := [] |} ;;
    Ok (Shannon.circuit st).

End Driver.

End Shannon.

(** ** Arithmetic counterparts of the string manipulations *)

Module Bits.

(** The [n] low bits of [i], least significant first. *)
Fixpoint bits_lsb (n : nat) (i : N) : list bool :=
  match n with
  | O => []
  | S n' => N.odd i :: bits_lsb n' (N.div2 i)
  end.

Fixpoint value_lsb (l : list bool) : N :=
  match l with
  | [] => 0%N
  | b :: l' => (N.b2n b + 2 * value_lsb l')%N
  end.

(** The number whose [n]-bit representation is that of [i] read backwards. *)
Definition bit_reverse (n i : nat) : nat :=
  N.to_nat (value_lsb (rev (bits_lsb n (N.of_nat i)))).

Fixpoint pos_trailing_zeros (p : positive) : nat :=
  match p with
  | xO q => S (pos_trailing_zeros q)
  | _ => O
  end.

(** The number of trailing zero bits of [n], which for [n > 0] is the
    position of its least significant one bit. *)
Definition trailing_zeros (n : nat) : nat :=
  match N.of_nat n with
  | N0 => O
  | Npos p => pos_trailing_zeros p
  end.

Fixpoint pos_lowest_zero (p : positive) : nat :=
  match p with
  | xO _ => O
  | xI q => S (pos_lowest_zero q)
  | xH => 1
  end.

(** The position of the least significant zero bit of [n]. *)
Definition lowest_zero_bit (n : nat) : nat :=
  match N.of_nat n with
  | N0 => O
  | Npos p => pos_lowest_zero p
  end.

End Bits.

(** ** The gate list of the CZ-basis rotation kernel, as section 4.2 lays it out *)

Module Kernel.

Import Shannon.

(** For each index [i] of the transformed angles: the rotation when it
    exceeds the threshold, then, except after the last index, a CZ whose
    control is [controls[c i]]. *)
Definition step_gates (c : nat -> nat) (N : nat) (controls : list nat)
    (target : nat) (item : nat * R) : list gate :=
  (if exceeds_epsilon (snd item) then [RY (snd item) target] else [])
  ++ (if fst item <? N - 1
      then [CZ (nth (c (fst item)) controls 0) target] else []).

Definition ucry_cz_gates (c : nat -> nat) (controls : list nat)
    (target : nat) (angles' : list R) : list gate :=
  flat_map (step_gates c (length angles') controls target) (enumerate angles').

(** The rule of the code: the number of trailing zero bits of [i + 1]. *)
Definition c_code (i : nat) : nat := Bits.trailing_zeros (i + 1).

(** The rule in the words of the specification: the position of the
    least significant zero bit of [i + 1]. *)
Definition c_spec (i : nat) : nat := Bits.lowest_zero_bit (i + 1).

End Kernel.

(** ** A backend to run the driver on concrete inputs *)

Module TestBackend.

Import Shannon.

Local Open Scope R_scope.

(** Modelled from the spec: [decompose_uc_rotations] is not in the source
    tree.  Section 4.2: split the vector in half, transform each half,
    then replace each pair [(a, b)] that spans the halves by
    [((a + b) / 2, (a - b) / 2)]; the flag negates the second half. *)
Fixpoint half_butterfly (fuel : nat) (angles : list R) (s e : nat)
    (reversed : bool) : list R :=
  match fuel with
  | O => angles
  | S fuel' =>
      let half := ((e - s) / 2)%nat in
      if (half =? 0)%nat then angles
      else
        let angles := half_butterfly fuel' angles s (s + half) false in
        let angles := half_butterfly fuel' angles (s + half) e true in
        fold_left
          (fun acc i =>
             let a := nth i acc 0 in
             let b := nth (i + half) acc 0 in
             Py.set_nth (i + half)
               (if reversed then - ((a - b) / 2) else (a - b) / 2)
               (Py.set_nth i ((a + b) / 2) acc))
          (seq s half) angles
  end.

(** Modelled from the spec: [qickit.predicates.is_hermitian_matrix] is
    not in the source tree.  Section 4.1: every entry of [M - M^H] has
    modulus at most the tolerance, [1e-10] by default. *)
Definition hermitian_within (M : Matrix) : bool :=
  forallb
    (fun i =>
       forallb
         (fun j => within 1e-10 (Csub (entry M i j) (Cconj (entry M j i))))
         (seq 0 (shape1 M)))
    (seq 0 (shape0 M)).

(** The rows [a..b) and columns [a..b) of an array. *)
Definition block (a b : nat) (M : Matrix) : Matrix :=
  map (fun row => Py.slice row a b) (Py.slice M a b).

(** A cosine-sine decomposition of a block-diagonal array: the two
    diagonal blocks on the left, zero angles, identities on the right. *)
Definition cossin_block_diagonal (U : Matrix) (p q : nat)
  : (Matrix * Matrix) * list R * (Matrix * Matrix) :=
  let n := shape0 U in
  ((block 0 p U, block p n U),
   repeat 0 (Nat.min (Nat.min p q) (Nat.min (n - p) (n - q))),
   (eye q, eye (n - q))).

(** The eigen-decomposition of a real diagonal array. *)
Definition eigh_diagonal (u : Matrix) : list R * Matrix :=
  (map fst (diagonal u), eye (shape0 u)).

(** The Schur form of an upper-triangular array is the array itself. *)
Definition schur_triangular (u : Matrix) : Matrix * Matrix :=
  (u, eye (shape0 u)).

Definition unavailable : exn := ValueError "not part of this backend".

(** The numerical routines are exact on diagonal inputs; the two-qubit
    synthesis and the simulator are left out. *)
Definition backend : Backend :=
  {| cossin := cossin_block_diagonal;
     eigh := eigh_diagonal;
     schur := schur_triangular;
     is_hermitian_matrix := hermitian_within;
     decompose_uc_rotations :=
       fun angles s e reversed =>
         half_butterfly (length angles) angles s e reversed;
     two_qubit_gates := fun _ _ => Raise unavailable;
     apply_unitary_up_to_diagonal := fun _ _ _ => Raise unavailable;
     prepare_unitary := fun _ => Raise unavailable;
     get_unitary := fun c => eye (2 ^ num_qubits c);
     almost_equal := fun _ _ => false |}.

End TestBackend.

(** ** Notions used in the statements *)

Module Shapes.

(** A square array of side [n]. *)
Definition square (n : nat) (M : Matrix) : Prop :=
  length M = n /\ Forall (fun row => length row = n) M.

(** A square array of side [2 ^ n] with rows and columns permuted by bit
    reversal. *)
Definition permuted (n : nat) (M : Matrix) : Matrix :=
  map (fun a => map (fun b => entry M (Bits.bit_reverse n a) (Bits.bit_reverse n b))
                    (seq 0 (2 ^ n)))
      (seq 0 (2 ^ n)).

(** The entries of [R] selected by [P] hold the entries of [M] at the
    reversed indices. *)
Definition written (n : nat) (M : Matrix) (P : nat -> nat -> Prop)
    (R : Matrix) : Prop :=
  square (2 ^ n) R /\
  forall a b, a < 2 ^ n -> b < 2 ^ n -> P a b ->
              entry R a b = entry M (Bits.bit_reverse n a) (Bits.bit_reverse n b).

(** Entry [(i, j)] of [M M^H] for a square [M] of side [n]. *)
Definition gram (n : nat) (M : Matrix) (i j : nat) : C :=
  Csum (map (fun k => Cmul (entry M i k) (Cconj (entry M j k))) (seq 0 n)).

(** Entry [(a, b)] of [|0><0| (x) I_N + |1><1| (x) U] for [U] of side [N]. *)
Definition controlled_entry (N : nat) (U : Matrix) (a b : nat) : C :=
  if a <? N then (if b <? N then identity_entry a b else C0)
  else (if b <? N then C0 else entry U (a - N) (b - N)).

End Shapes.

(** ** Concrete inputs *)

Module Inputs.

Import GateMatrix.

Local Open Scope R_scope.

Definition pauli_x : Matrix := [[C0; C1]; [C1; C0]].

Definition cx_matrix : Matrix :=
  [[C1; C0; C0; C0]; [C0; C1; C0; C0]; [C0; C0; C0; C1]; [C0; C0; C1; C0]].

Definition cx_reversed : Matrix :=
  [[C1; C0; C0; C0]; [C0; C0; C0; C1]; [C0; C0; C1; C0]; [C0; C1; C0; C0]].

Definition x_gate : Gate :=
  {| name := "X"; matrix := pauli_x; num_qubits := 1; ordering := "MSB" |}.

Definition cx_gate : Gate :=
  {| name := "CX"; matrix := cx_matrix; num_qubits := 2; ordering := "MSB" |}.

Definition cx_gate_lsb : Gate :=
  {| name := "CX"; matrix := cx_reversed; num_qubits := 2; ordering := "LSB" |}.

(** A rotation by a very small angle, with rational entries. *)
Definition tiny : R := 1e-11.
Definition rot_cos : R := (1 - tiny * tiny) / (1 + tiny * tiny).
Definition rot_sin : R := 2 * tiny / (1 + tiny * tiny).
Definition small_rotation : Matrix :=
  [[(rot_cos, 0); (- rot_sin, 0)]; [(rot_sin, 0); (rot_cos, 0)]].

(** The state of the driver on an empty circuit of [n] qubits. *)
Definition empty_state (n : nat) : Shannon.state :=
  {| Shannon.circuit := Circ.new n; Shannon.a2_qsd_blocks := [] |}.

End Inputs.

(** ** The decomposition that [params_zyz] computes *)

Module Zyz.

Local Open Scope R_scope.

(** [e^{i t}]. *)
Definition Cexp (t : R) : C := (cos t, sin t).

(** Modelled from the spec: section 4.3 and the docstring of
    [params_zyz] write [U = e^{i alpha} R_z(phi) R_y(theta) R_z(lam)]
    and give no matrix for the rotations, the circuit class being
    outside the source tree.  These are the rotations of the usual
    convention, [R_z(t) = exp(-i t Z / 2) = diag(e^{-i t/2}, e^{i t/2})]. *)
Definition Rz (t : R) : Matrix :=
  [[Cexp (- (t / 2)); C0]; [C0; Cexp (t / 2)]].

(** Modelled from the spec, as [Rz]: [R_y(t) = exp(-i t Y / 2)], the real
    rotation by [t / 2]. *)
Definition Ry (t : R) : Matrix :=
  [[(cos (t / 2), 0); (- sin (t / 2), 0)];
   [(sin (t / 2), 0); (cos (t / 2), 0)]].

(** [e^{i alpha} R_z(phi) R_y(theta) R_z(lam)]. *)
Definition zyz_matrix (alpha theta phi lam : R) : Matrix :=
  OneQubit.scale (Cexp alpha) (matmul (Rz phi) (matmul (Ry theta) (Rz lam))).

(** A 2 x 2 array with [U U^H = I] exactly. *)
Definition exactly_unitary (U : Matrix) : Prop :=
  Shapes.square 2 U
  /\ forall i j : nat, (i < 2)%nat -> (j < 2)%nat ->
       Shapes.gram 2 U i j = identity_entry i j.

End Zyz.

(** ** Notions used in the statements about the recursion *)

Module Wellformed.

Import Shannon.

(** The blocks [bs] lie one after the other between the positions [lo]
    and [hi] of a log. *)
Fixpoint chained (lo : nat) (bs : list (nat * nat)) (hi : nat) : Prop :=
  match bs with
  | [] => lo <= hi
  | b :: bs' => lo <= fst b /\ fst b <= snd b /\ chained (snd b) bs' hi
  end.

(** A gate of the rotation kernel: an RY on the target, or a CZ from one
    of the controls onto the target. *)
Definition kernel_gate (controls : list nat) (target : nat) (g : gate)
  : Prop :=
  match g with
  | RY _ q => q = target
  | CZ c t => In c controls /\ t = target
  | _ => False
  end.

(** [circuit_log[block[0]:block[1]]] for every recorded block. *)
Definition block_slices (log : list gate) (blocks : list (nat * nat))
  : list (list gate) :=
  map (fun b => Py.slice log (fst b) (snd b)) blocks.

(** What [apply_a2_optimization] keeps as it is: after each block but the
    last, the gates up to the start of the next block, and after the last
    block the rest of the log. *)
Definition gaps (log : list gate) (blocks : list (nat * nat))
  : list (list gate) :=
  map (fun item : nat * (nat * nat) =>
         Py.slice log (snd (snd item))
           (fst (nth (fst item + 1) blocks (0, 0))))
      (enumerate (Py.but_last blocks))
  ++ [Py.slice_from log (snd (last blocks (0, 0)))].

Section Backend.

Context {B : Backend}.

(** The body of the loop of [apply_a2_optimization] that moves the
    diagonal of one block into the next. *)
Definition merge_step (qsd_blocks : list (list gate)) (block_index : nat)
  : result (list (list gate)) :=
  log_1 <- Py.index qsd_blocks block_index ;;
  log_2 <- Py.index qsd_blocks (block_index + 1) ;;
  let unitary_1 := get_unitary {| num_qubits := 2; circuit_log := log_1 |} in
  let unitary_2 := get_unitary {| num_qubits := 2; circuit_log := log_2 |} in
  r <- apply_unitary_up_to_diagonal (Circ.new 2) unitary_1 [0; 1] ;;
  circuit_2 <- prepare_unitary (matmul unitary_2 (snd r)) ;;
  Ok (Py.set_nth (block_index + 1) (circuit_log circuit_2)
        (Py.set_nth block_index (circuit_log (fst r)) qsd_blocks)).

(** The circuit that [apply_a2_optimization] rebuilds from the merged
    blocks. *)
Definition rebuilt (c : Circuit) (blocks : list (nat * nat))
    (merged : list (list gate)) : Circuit :=
  {| num_qubits := num_qubits c;
     circuit_log :=
       Py.slice (circuit_log c) 0 (fst (hd (0, 0) blocks))
       ++ flat_map (fun p => fst p ++ snd p)
            (combine merged (gaps (circuit_log c) blocks)) |}.

(** The body of the same loop with [qsd_blocks[block_index]] and
    [qsd_blocks[block_index + 1]] read without a check of the index. *)
Definition merge_step_unchecked (qsd_blocks : list (list gate))
    (block_index : nat) : result (list (list gate)) :=
  let log_1 := nth block_index qsd_blocks [] in
  let log_2 := nth (block_index + 1) qsd_blocks [] in
  let unitary_1 := get_unitary {| num_qubits := 2; circuit_log := log_1 |} in
  let unitary_2 := get_unitary {| num_qubits := 2; circuit_log := log_2 |} in
  r <- apply_unitary_up_to_diagonal (Circ.new 2) unitary_1 [0; 1] ;;
  circuit_2 <- prepare_unitary (matmul unitary_2 (snd r)) ;;
  Ok (Py.set_nth (block_index + 1) (circuit_log circuit_2)
        (Py.set_nth block_index (circuit_log (fst r)) qsd_blocks)).

(** [apply_a2_optimization] past its early return, with no list access
    checked: the blocks and the gaps are slices of the log, which Python
    never refuses, and the loop reads [qsd_blocks] unchecked. *)
Definition post_pass_unchecked (unitary_data : Matrix) (st : state)
  : result state :=
  let blocks := a2_qsd_blocks st in
  merged <-
    Py.for_each merge_step_unchecked (Py.range (length blocks - 1))
      (block_slices (circuit_log (circuit st)) blocks) ;;
  if almost_equal (get_unitary (rebuilt (circuit st) blocks merged))
       unitary_data
  then Ok {| circuit := rebuilt (circuit st) blocks merged;
             a2_qsd_blocks := blocks |}
  else Raise AssertionError.

(** Every block of [bs] delimits, in [log], the gates of one two-qubit
    leaf of the recursion. *)
Definition leaf_blocks (log : list gate) (bs : list (nat * nat)) : Prop :=
  Forall
    (fun b => exists V qs,
       shape0 V = 4 /\
       two_qubit_gates V qs = Ok (Py.slice log (fst b) (snd b)))
    bs.

(** [st'] is [st] with gates appended and with blocks recorded; the new
    blocks lie one after the other in the appended part of the log, and
    each one is a two-qubit leaf. *)
Definition grows (st st' : state) : Prop :=
  exists gs new,
    circuit st' = extend gs (circuit st)
    /\ a2_qsd_blocks st' = a2_qsd_blocks st ++ new
    /\ chained (length (circuit_log (circuit st))) new
         (length (circuit_log (circuit st)) + length gs)
    /\ leaf_blocks (circuit_log (circuit st) ++ gs) new.

(** What scipy documents about the shapes of its results: the four
    factors of the cosine-sine decomposition of a square array of side
    [2 n], split in the middle, are square of side [n]; a square array of
    side [n] has [n] eigenvalues, a square array of eigenvectors and
    square Schur factors, all of side [n]. *)
Definition respects_shapes : Prop :=
  (forall U n, 0 < n -> Shapes.square (2 * n) U ->
     let r := cossin U n n in
     Shapes.square n (fst (fst (fst r)))
     /\ Shapes.square n (snd (fst (fst r)))
     /\ Shapes.square n (fst (snd r))
     /\ Shapes.square n (snd (snd r)))
  /\ (forall u n, Shapes.square n u ->
        length (fst (eigh u)) = n /\ Shapes.square n (snd (eigh u)))
  /\ (forall u n, Shapes.square n u ->
        Shapes.square n (fst (schur u)) /\ Shapes.square n (snd (schur u))).

End Backend.

End Wellformed.

(** ** A backend that is exact on identity blocks *)

Module IdentityBackend.

Import Shannon.

Local Open Scope R_scope.

(** [numpy.testing.assert_almost_equal] with its default of seven
    decimals: the shapes agree and [abs(desired - actual) < 1.5e-7]
    entrywise. *)
Definition close (a b : Matrix) : bool :=
  (shape0 a =? shape0 b)%nat && (shape1 a =? shape1 b)%nat
  && forallb
       (fun i =>
          forallb
            (fun j =>
               if Rlt_dec (Cabs (Csub (entry a i j) (entry b i j))) 1.5e-7
               then true else false)
            (seq 0 (shape1 a)))
       (seq 0 (shape0 a)).

(** The numerical routines of [TestBackend]; the two-qubit routines
    return what they return on the identity, the empty circuit and the
    identity as the diagonal. *)
Definition exact_on_identity : Backend :=
  {| cossin := TestBackend.cossin_block_diagonal;
     eigh := TestBackend.eigh_diagonal;
     schur := TestBackend.schur_triangular;
     is_hermitian_matrix := TestBackend.hermitian_within;
     decompose_uc_rotations :=
       fun angles s e reversed =>
         TestBackend.half_butterfly (length angles) angles s e reversed;
     two_qubit_gates := fun _ _ => Ok [];
     apply_unitary_up_to_diagonal := fun c _ _ => Ok (c, eye 4);
     prepare_unitary := fun _ => Ok (Circ.new 2);
     get_unitary := fun c => eye (2 ^ num_qubits c);
     almost_equal := close |}.

(** A circuit on three qubits with two recorded blocks.  Each block is
    a pair of equal CZ gates, whose product is the identity; the four
    gates outside the blocks, before, between and after them, multiply
    to the identity as well. *)
Definition two_identity_blocks : state :=
  {| circuit :=
       {| num_qubits := 3;
          circuit_log := [CZ 0 2; CZ 0 1; CZ 0 1; CZ 1 2;
                          CZ 0 1; CZ 0 1; CZ 1 2; CZ 0 2] |};
     a2_qsd_blocks := [(1, 3); (4, 6)]%nat |}.

End IdentityBackend.

(* ================================================================== *)
(** * Part II: properties *)
(* ================================================================== *)

(** ** Binary strings *)

Module BinFacts.

Import BinStr Bits.

Example binary_repr_6 :
  binary_repr 6 = ["1"%char; "1"%char; "0"%char].
Proof. reflexivity. Qed.

Example reversed_index_8_1 : GateMatrix.reversed_index 8 1 = Ok 4.
Proof. reflexivity. Qed.

Example reversed_index_8_6 : GateMatrix.reversed_index 8 6 = Ok 3.
Proof. reflexivity. Qed.

Example control_indices_of_seven_steps :
  map Shannon.control_index_of [0; 1; 2; 3; 4; 5; 6] = [0; 1; 0; 2; 0; 1; 0].
Proof. reflexivity. Qed.

Example lowest_zero_bits_of_seven_steps :
  map (fun i => lowest_zero_bit (i + 1)) [0; 1; 2; 3; 4; 5; 6]
  = [1; 0; 2; 0; 1; 0; 3].
Proof. reflexivity. Qed.

Lemma value_lsb_app (l1 l2 : list bool) :
  value_lsb (l1 ++ l2) = (value_lsb l1 + 2 ^ N.of_nat (length l1) * value_lsb l2)%N.
Proof.
  induction l1 as [|b l1 IH]; cbn [length app value_lsb].
  - change (N.of_nat 0) with 0%N. rewrite N.pow_0_r. lia.
  - rewrite IH, Nat2N.inj_succ, N.pow_succ_r'. lia.
Qed.

Lemma value_lsb_bound (l : list bool) :
  (value_lsb l < 2 ^ N.of_nat (length l))%N.
Proof.
  induction l as [|b l IH]; cbn [length value_lsb].
  - change (N.of_nat 0) with 0%N. rewrite N.pow_0_r. lia.
  - rewrite Nat2N.inj_succ, N.pow_succ_r'. destruct b; cbn [N.b2n]; lia.
Qed.

Lemma bits_lsb_length (n : nat) (i : N) : length (bits_lsb n i) = n.
Proof.
  revert i; induction n as [|n IH]; intros i; simpl; [reflexivity|].
  now rewrite IH.
Qed.

Lemma value_bits_lsb (n : nat) (i : N) :
  (i < 2 ^ N.of_nat n)%N -> value_lsb (bits_lsb n i) = i.
Proof.
  revert i; induction n as [|n IH]; intros i Hi.
  - change (N.of_nat 0) with 0%N in Hi. rewrite N.pow_0_r in Hi.
    cbn [bits_lsb value_lsb]. lia.
  - rewrite Nat2N.inj_succ, N.pow_succ_r' in Hi.
    cbn [bits_lsb value_lsb]. rewrite IH.
    + pose proof (N.div2_odd i). lia.
    + pose proof (N.div2_odd i). destruct (N.odd i); cbn [N.b2n] in *; lia.
Qed.

Lemma bits_value_lsb (l : list bool) :
  bits_lsb (length l) (value_lsb l) = l.
Proof.
  induction l as [|b l IH]; cbn [length bits_lsb value_lsb]; [reflexivity|].
  assert (Hodd : N.odd (N.b2n b + 2 * value_lsb l) = b).
  { rewrite N.odd_add_mul_2. now destruct b. }
  assert (Hdiv : N.div2 (N.b2n b + 2 * value_lsb l) = value_lsb l).
  { destruct b; cbn [N.b2n].
    - rewrite N.add_comm. apply N.div2_odd'.
    - rewrite N.add_0_l. apply N.div2_even. }
  now rewrite Hodd, Hdiv, IH.
Qed.

Lemma pow2_of_nat (n : nat) : (2 ^ N.of_nat n)%N = N.of_nat (2 ^ n).
Proof. now rewrite Nat2N.inj_pow. Qed.

Lemma bit_reverse_bound (n i : nat) : bit_reverse n i < 2 ^ n.
Proof.
  unfold bit_reverse.
  pose proof (value_lsb_bound (rev (bits_lsb n (N.of_nat i)))) as H.
  rewrite length_rev, bits_lsb_length, pow2_of_nat in H. lia.
Qed.

Lemma bit_reverse_involutive (n i : nat) :
  i < 2 ^ n -> bit_reverse n (bit_reverse n i) = i.
Proof.
  intros Hi. unfold bit_reverse.
  rewrite N2Nat.id.
  set (l := bits_lsb n (N.of_nat i)).
  assert (Hl : length (rev l) = n) by (unfold l; now rewrite length_rev, bits_lsb_length).
  rewrite <- Hl at 1. rewrite bits_value_lsb, rev_involutive.
  unfold l. rewrite value_bits_lsb.
  - apply Nat2N.id.
  - rewrite pow2_of_nat. lia.
Qed.

Lemma bit_reverse_injective (n i j : nat) :
  i < 2 ^ n -> j < 2 ^ n -> bit_reverse n i = bit_reverse n j -> i = j.
Proof.
  intros Hi Hj H.
  rewrite <- (bit_reverse_involutive n i Hi), <- (bit_reverse_involutive n j Hj).
  now rewrite H.
Qed.

Lemma bits_lsb_zero (n : nat) : bits_lsb n 0%N = repeat false n.
Proof. induction n as [|n IH]; cbn [bits_lsb repeat]; [reflexivity|]. now rewrite N.div2_0, IH. Qed.

Lemma map_digit_repeat (n : nat) :
  map digit (repeat false n) = repeat "0"%char n.
Proof. induction n as [|n IH]; cbn; [reflexivity|]. now rewrite IH. Qed.

(** The digits of a positive number are its low bits, and zero bits follow. *)
Lemma bits_lsb_pos (p : positive) (n : nat) :
  (Npos p < 2 ^ N.of_nat n)%N ->
  length (pos_digits_lsb p) <= n /\
  map digit (bits_lsb n (Npos p)) =
    pos_digits_lsb p ++ repeat "0"%char (n - length (pos_digits_lsb p)).
Proof.
  revert n; induction p as [q IH|q IH|]; intros n Hn;
    (destruct n as [|n];
     [ change (N.of_nat 0) with 0%N in Hn; rewrite N.pow_0_r in Hn; lia | ]);
    rewrite Nat2N.inj_succ, N.pow_succ_r' in Hn; cbn [bits_lsb pos_digits_lsb length map].
  - destruct (IH n) as [Hlen Heq]; [lia|].
    change (N.div2 (N.pos q~1)) with (N.pos q).
    split; [lia|]. now rewrite Heq.
  - destruct (IH n) as [Hlen Heq]; [lia|].
    change (N.div2 (N.pos q~0)) with (N.pos q).
    split; [lia|]. now rewrite Heq.
  - change (N.div2 1) with 0%N. split; [lia|].
    rewrite bits_lsb_zero, map_digit_repeat. cbn. now rewrite Nat.sub_0_r.
Qed.

Lemma rev_repeat {A} (a : A) (n : nat) : rev (repeat a n) = repeat a n.
Proof.
  induction n as [|n IH]; [reflexivity|].
  cbn [repeat rev]. rewrite IH. symmetry. apply repeat_cons.
Qed.

(** The reversed, zero-filled representation lists the low bits in order. *)
Lemma reversed_zfill_binary_repr (n i : nat) :
  1 <= n -> i < 2 ^ n ->
  reversed (zfill n (binary_repr i)) = map digit (bits_lsb n (N.of_nat i)).
Proof.
  intros Hn Hi. unfold reversed, zfill, binary_repr.
  destruct (N.of_nat i) as [|p] eqn:E.
  - rewrite bits_lsb_zero, map_digit_repeat.
    rewrite rev_app_distr, rev_repeat. cbn [rev app length].
    destruct n as [|n]; [lia|]. cbn. now rewrite Nat.sub_0_r.
  - destruct (bits_lsb_pos p n) as [Hlen Heq].
    { rewrite pow2_of_nat. lia. }
    rewrite Heq, rev_app_distr, rev_involutive, rev_repeat, length_rev.
    reflexivity.
Qed.

Lemma digit_value_digit (b : bool) : digit_value (digit b) = Ok (N.to_nat (N.b2n b)).
Proof. destruct b; reflexivity. Qed.

Lemma parse_digits (l : list bool) (acc : nat) :
  Py.for_each (fun acc c => d <- digit_value c ;; Ok (2 * acc + d))
              (map digit l) acc
  = Ok (acc * 2 ^ length l + N.to_nat (value_lsb (rev l))).
Proof.
  revert acc; induction l as [|b l IH]; intros acc.
  - cbn. f_equal. lia.
  - cbn [map Py.for_each]. rewrite digit_value_digit. cbn [Py.bind].
    rewrite IH. f_equal.
    cbn [rev length]. rewrite value_lsb_app, length_rev.
    cbn [value_lsb]. rewrite pow2_of_nat.
    rewrite N2Nat.inj_add, N2Nat.inj_mul, Nat2N.id.
    replace (N.to_nat (N.b2n b + 2 * 0)) with (N.to_nat (N.b2n b)) by lia.
    rewrite Nat.pow_succ_r'. nia.
Qed.

Lemma int_base2_digits (l : list bool) :
  l <> [] -> int_base2 (map digit l) = Ok (N.to_nat (value_lsb (rev l))).
Proof.
  intros Hl. destruct l as [|b l]; [congruence|].
  unfold int_base2. cbn [map].
  change (digit b :: map digit l) with (map digit (b :: l)).
  rewrite parse_digits. f_equal.
Qed.

(** [int(bin(i)[2:].zfill(n)[::-1], 2)] is the bit reversal of [i]. *)
Lemma reversed_index_spec (n i : nat) :
  i < 2 ^ n ->
  GateMatrix.reversed_index (2 ^ n) i = Ok (bit_reverse n i).
Proof.
  intros Hi. unfold GateMatrix.reversed_index, int_log2.
  rewrite Nat.log2_pow2 by lia.
  destruct n as [|n].
  - cbn in Hi. assert (i = 0) by lia. subst i. reflexivity.
  - rewrite reversed_zfill_binary_repr by (try exact Hi; lia).
    rewrite int_base2_digits; [reflexivity|].
    cbn [bits_lsb]. discriminate.
Qed.

Lemma lstrip_zero_pos (p : positive) :
  length (pos_digits_lsb p) - length (lstrip_zero (pos_digits_lsb p))
  = pos_trailing_zeros p.
Proof.
  induction p as [q IH|q IH|]; cbn [pos_digits_lsb lstrip_zero pos_trailing_zeros].
  - cbn. lia.
  - cbn [Ascii.eqb Bool.eqb length].
    change (Ascii.eqb "0" "0") with true. cbn iota.
    assert (length (lstrip_zero (pos_digits_lsb q)) <= length (pos_digits_lsb q)).
    { clear. induction (pos_digits_lsb q) as [|c l IHl]; cbn; [lia|].
      destruct (Ascii.eqb c "0"); cbn; lia. }
    lia.
  - cbn. lia.
Qed.

(** The control index computed from the binary representation is the
    number of trailing zero bits of [i + 1]. *)
Lemma control_index_of_spec (i : nat) :
  Shannon.control_index_of i = trailing_zeros (i + 1).
Proof.
  unfold Shannon.control_index_of, trailing_zeros, binary_repr, rstrip_zero.
  destruct (N.of_nat (i + 1)) as [|p] eqn:E; [lia|].
  rewrite rev_involutive, !length_rev. apply lstrip_zero_pos.
Qed.

End BinFacts.

(** ** Arrays *)

Module NpFacts.

Import Shapes.

Lemma length_set_nth {A} (i : nat) (v : A) (l : list A) :
  length (Py.set_nth i v l) = length l.
Proof.
  revert i; induction l as [|a l IH]; intros [|i]; cbn; try reflexivity.
  now rewrite IH.
Qed.

Lemma nth_set_nth {A} (i k : nat) (v d : A) (l : list A) :
  i < length l ->
  nth k (Py.set_nth i v l) d = if k =? i then v else nth k l d.
Proof.
  revert i k; induction l as [|a l IH]; intros i k Hi; cbn in Hi; [lia|].
  destruct i as [|i], k as [|k]; cbn; try reflexivity.
  apply IH. lia.
Qed.

Lemma square_row (n : nat) (M : Matrix) (i : nat) :
  square n M -> i < n -> length (nth i M []) = n.
Proof.
  intros [Hlen Hrows] Hi.
  rewrite Forall_forall in Hrows. apply Hrows, nth_In. lia.
Qed.

Lemma get_item_square (n : nat) (M : Matrix) (i j : nat) :
  square n M -> i < n -> j < n -> get_item M i j = Ok (entry M i j).
Proof.
  intros HM Hi Hj. unfold get_item, Py.index, entry.
  pose proof (square_row n M i HM Hi) as Hrow. destruct HM as [Hlen _].
  rewrite (nth_error_nth' M []) by lia. cbn [Py.bind].
  now rewrite (nth_error_nth' _ C0) by lia.
Qed.

Lemma set_item_square (n : nat) (R : Matrix) (a b : nat) (v : C) :
  square n R -> a < n -> b < n ->
  exists R', set_item R a b v = Ok R' /\ square n R' /\
    forall a' b', entry R' a' b' =
      if (a' =? a) && (b' =? b) then v else entry R a' b'.
Proof.
  intros HR Ha Hb. unfold set_item, Py.index.
  pose proof (square_row n R a HR Ha) as Hrow. destruct HR as [Hlen Hrows].
  rewrite (nth_error_nth' R []) by lia. cbn [Py.bind].
  assert (Hlt : (b <? length (nth a R [])) = true) by (apply Nat.ltb_lt; lia).
  rewrite Hlt. eexists; split; [reflexivity|]. split.
  - split; [now rewrite length_set_nth|].
    rewrite Forall_forall in *. intros row Hin.
    destruct (In_nth _ _ [] Hin) as [k [Hk Hnth]].
    rewrite length_set_nth in Hk. rewrite nth_set_nth in Hnth by lia.
    destruct (k =? a).
    + subst row. now rewrite length_set_nth.
    + apply Hrows. subst row. apply nth_In. lia.
  - intros a' b'. unfold entry. rewrite nth_set_nth by lia.
    destruct (a' =? a) eqn:Ea; cbn [andb]; [|reflexivity].
    apply Nat.eqb_eq in Ea. subst a'.
    rewrite nth_set_nth by lia. reflexivity.
Qed.

Lemma square_zeros (n : nat) : square n (zeros n n).
Proof.
  unfold zeros. split; [apply repeat_length|].
  apply Forall_forall. intros row Hin.
  apply repeat_spec in Hin. subst row. apply repeat_length.
Qed.

(** Two square arrays with the same entries are the same array. *)
Lemma square_ext (n : nat) (A B : Matrix) :
  square n A -> square n B ->
  (forall i j, i < n -> j < n -> entry A i j = entry B i j) -> A = B.
Proof.
  intros HA HB Heq.
  apply (nth_ext A B [] []); [destruct HA, HB; lia|].
  intros i Hi. assert (Hi' : i < n) by (destruct HA; lia).
  apply (nth_ext _ _ C0 C0).
  - now rewrite (square_row n A i HA Hi'), (square_row n B i HB Hi').
  - intros j Hj. rewrite (square_row n A i HA Hi') in Hj. now apply Heq.
Qed.

Lemma entry_map_seq (f : nat -> nat -> C) (r c i j : nat) :
  i < r -> j < c ->
  entry (map (fun i => map (fun j => f i j) (seq 0 c)) (seq 0 r)) i j = f i j.
Proof.
  intros Hi Hj. unfold entry.
  rewrite (nth_indep _ [] (map (fun j => f 0 j) (seq 0 c)))
    by (now rewrite length_map, length_seq).
  rewrite (map_nth (fun i => map (fun j => f i j) (seq 0 c)) (seq 0 r) 0 i).
  rewrite seq_nth by lia. cbn [Nat.add].
  rewrite (nth_indep _ C0 (f i 0)) by (now rewrite length_map, length_seq).
  rewrite (map_nth (fun j => f i j) (seq 0 c) 0 j).
  now rewrite seq_nth by lia.
Qed.

Lemma square_map_seq (f : nat -> nat -> C) (n : nat) :
  square n (map (fun i => map (fun j => f i j) (seq 0 n)) (seq 0 n)).
Proof.
  split; [now rewrite length_map, length_seq|].
  apply Forall_forall. intros row Hin. apply in_map_iff in Hin.
  destruct Hin as [i [<- _]]. now rewrite length_map, length_seq.
Qed.

End NpFacts.

(** ** The gate-matrix helper *)

Module GateFacts.

Import GateMatrix Bits BinFacts Shapes NpFacts.

Section Reorder.

Variable n : nat.
Variable M : Matrix.
Hypothesis HM : square (2 ^ n) M.

Let size := 2 ^ n.
Let pi := bit_reverse n.

Let written := Shapes.written n M.
Let inner_body := reorder_step M size.

Lemma written_weaken (P Q : nat -> nat -> Prop) (R : Matrix) :
  (forall a b, a < size -> b < size -> Q a b -> P a b) ->
  written P R -> written Q R.
Proof.
  intros HPQ [Hsq HP]. split; [exact Hsq|].
  intros a b Ha Hb HQ. apply HP; auto.
Qed.

Lemma inner_step (P : nat -> nat -> Prop) (R : Matrix) (i j : nat) :
  i < size -> j < size -> written P R ->
  exists R', inner_body i R j = Ok R' /\
             written (fun a b => P a b \/ (a = pi i /\ pi b = j)) R'.
Proof.
  intros Hi Hj [Hsq HP]. unfold inner_body, reorder_step, size.
  rewrite !reversed_index_spec by assumption. cbn [Py.bind].
  rewrite (get_item_square (2 ^ n)) by assumption. cbn [Py.bind].
  destruct (set_item_square size R (bit_reverse n i) (bit_reverse n j)
              (entry M i j) Hsq) as [R' [Hset [Hsq' Hent]]];
    try apply bit_reverse_bound.
  exists R'. split; [exact Hset|]. split; [exact Hsq'|].
  intros a b Ha Hb Hab. rewrite Hent.
  destruct (andb (a =? bit_reverse n i) (b =? bit_reverse n j)) eqn:E.
  - apply andb_true_iff in E. destruct E as [Ea Eb].
    apply Nat.eqb_eq in Ea, Eb. subst a b. unfold pi.
    now rewrite !bit_reverse_involutive.
  - destruct Hab as [HPab | [Ea Eb]]; [now apply HP|].
    exfalso. apply andb_false_iff in E.
    destruct E as [E | E]; apply Nat.eqb_neq in E; apply E; [exact Ea|].
    unfold pi in Eb. rewrite <- Eb. now rewrite bit_reverse_involutive.
Qed.

Lemma inner_loop (js : list nat) :
  forall (P : nat -> nat -> Prop) (R : Matrix) (i : nat),
    i < size -> (forall j, In j js -> j < size) -> written P R ->
    exists R', Py.for_each (inner_body i) js R = Ok R' /\
               written (fun a b => P a b \/ (a = pi i /\ In (pi b) js)) R'.
Proof.
  induction js as [|j js IH]; intros P R i Hi Hjs HR.
  - exists R. split; [reflexivity|].
    eapply written_weaken; [|exact HR]. cbn. intros a b _ _ [H | [_ []]]. exact H.
  - destruct (inner_step P R i j Hi (Hjs j (or_introl eq_refl)) HR)
      as [R1 [Hstep HR1]].
    destruct (IH _ R1 i Hi (fun j' Hin => Hjs j' (or_intror Hin)) HR1)
      as [R' [Hloop HR']].
    exists R'. cbn [Py.for_each]. rewrite Hstep. cbn [Py.bind].
    split; [exact Hloop|].
    eapply written_weaken; [|exact HR']. cbn.
    intros a b _ _ [H | [Ha [Hb | Hb]]]; auto.
Qed.

Lemma outer_loop (rows : list nat) :
  forall (P : nat -> nat -> Prop) (R : Matrix),
    (forall i, In i rows -> i < size) -> written P R ->
    exists R',
      Py.for_each
        (fun R i => Py.for_each (inner_body i) (Py.range size) R) rows R
      = Ok R' /\
      written (fun a b => P a b \/ In (pi a) rows) R'.
Proof.
  induction rows as [|i rows IH]; intros P R Hrows HR.
  - exists R. split; [reflexivity|].
    eapply written_weaken; [|exact HR]. cbn. intros a b _ _ [H | []]. exact H.
  - destruct (inner_loop (Py.range size) P R i (Hrows i (or_introl eq_refl)))
      as [R1 [Hin HR1]]; [|exact HR|].
    { intros j Hj. apply in_seq in Hj. lia. }
    destruct (IH _ R1 (fun i' Hi' => Hrows i' (or_intror Hi')) HR1)
      as [R' [Hloop HR']].
    exists R'. cbn [Py.for_each]. rewrite Hin. cbn [Py.bind].
    split; [exact Hloop|].
    eapply written_weaken; [|exact HR']. cbn.
    intros a b Ha Hb [H | [Hi | Hi]]; auto.
    left. right. split.
    + unfold pi. rewrite Hi. unfold pi. now rewrite bit_reverse_involutive.
    + apply in_seq. pose proof (bit_reverse_bound n b). unfold pi, size. lia.
Qed.

(** The loops of [change_mapping] never raise on a square array of side
    [2 ^ n], and they permute rows and columns by bit reversal. *)
Lemma reorder_permuted : reorder M = Ok (permuted n M).
Proof.
  unfold reorder. destruct HM as [Hlen Hrows]. rewrite Hlen.
  destruct (outer_loop (Py.range size) (fun _ _ => False) (zeros size size))
    as [R' [Hloop [Hsq Hent]]].
  - intros i Hi. apply in_seq in Hi. lia.
  - split; [apply square_zeros|]. intros a b _ _ [].
  - fold size. unfold inner_body in Hloop. rewrite Hloop. f_equal.
    apply (square_ext size); [exact Hsq|apply square_map_seq|].
    intros i j Hi Hj. unfold permuted. fold size.
    rewrite (entry_map_seq (fun a b => entry M (bit_reverse n a) (bit_reverse n b)))
      by assumption.
    apply Hent; try assumption. right. apply in_seq.
    pose proof (bit_reverse_bound n i). unfold pi, size. lia.
Qed.

Lemma permuted_square : square (2 ^ n) (permuted n M).
Proof. apply square_map_seq. Qed.

Lemma permuted_entry (a b : nat) :
  a < 2 ^ n -> b < 2 ^ n ->
  entry (permuted n M) a b = entry M (bit_reverse n a) (bit_reverse n b).
Proof.
  intros Ha Hb. unfold permuted.
  now rewrite (entry_map_seq
                 (fun a b => entry M (bit_reverse n a) (bit_reverse n b))).
Qed.

End Reorder.

(** Reordering twice gives the array back, entry for entry. *)
Lemma permuted_involutive (n : nat) (M : Matrix) :
  square (2 ^ n) M -> permuted n (permuted n M) = M.
Proof.
  intros HM.
  apply (square_ext (2 ^ n)); [apply permuted_square| exact HM |].
  intros i j Hi Hj.
  rewrite permuted_entry by assumption.
  rewrite permuted_entry by apply bit_reverse_bound.
  now rewrite !bit_reverse_involutive.
Qed.

End GateFacts.

(** ** Unitarity *)

Module UnitaryFacts.

Import GateMatrix Bits BinFacts Shapes NpFacts GateFacts.

Local Open Scope R_scope.

Lemma Cadd_comm (a b : C) : Cadd a b = Cadd b a.
Proof. unfold Cadd. f_equal; lra. Qed.

Lemma Cadd_assoc (a b c : C) : Cadd a (Cadd b c) = Cadd (Cadd a b) c.
Proof. unfold Cadd. cbn [fst snd]. f_equal; lra. Qed.

(** A sum does not depend on the order of its terms. *)
Lemma Csum_permutation (l l' : list C) :
  Permutation l l' -> Csum l = Csum l'.
Proof.
  induction 1 as [| x l l' _ IH | x y l | l l' l'' _ IH1 _ IH2]; cbn [Csum fold_right].
  - reflexivity.
  - unfold Csum in IH. now rewrite IH.
  - now rewrite !Cadd_assoc, (Cadd_comm y x).
  - congruence.
Qed.

Lemma shape1_square (n : nat) (M : Matrix) :
  (0 < n)%nat -> square n M -> shape1 M = n.
Proof.
  intros Hn HM. unfold shape1.
  pose proof (square_row n M 0 HM Hn) as H.
  destruct M as [|row M]; [destruct HM; cbn in *; lia|]. exact H.
Qed.

Lemma shape1_conj_transpose (n : nat) (M : Matrix) :
  (0 < n)%nat -> square n M -> shape1 (conj_transpose M) = n.
Proof.
  intros Hn HM. unfold conj_transpose.
  rewrite (shape1_square n M Hn HM). destruct HM as [Hlen _].
  unfold shape0, shape1. rewrite Hlen.
  destruct n as [|n]; [lia|]. cbn [seq map hd length].
  now rewrite length_map, length_seq.
Qed.

Lemma entry_gram (n : nat) (M : Matrix) (i j : nat) :
  square n M -> (i < n)%nat -> (j < n)%nat ->
  entry (matmul M (conj_transpose M)) i j = gram n M i j.
Proof.
  intros HM Hi Hj. assert (Hn : (0 < n)%nat) by lia.
  unfold matmul.
  rewrite (shape1_conj_transpose n M Hn HM), (shape1_square n M Hn HM).
  replace (shape0 M) with n by (destruct HM; unfold shape0; lia).
  rewrite (entry_map_seq
             (fun i j => Csum (map (fun k => Cmul (entry M i k)
                                               (entry (conj_transpose M) k j))
                                   (seq 0 n)))) by assumption.
  unfold gram. f_equal. apply map_ext_in. intros k Hk. apply in_seq in Hk.
  f_equal. unfold conj_transpose.
  rewrite (shape1_square n M Hn HM).
  replace (shape0 M) with n by (destruct HM; unfold shape0; lia).
  now rewrite (entry_map_seq (fun j i => Cconj (entry M i j))) by lia.
Qed.

Lemma is_square_matrix_spec (M : Matrix) :
  is_square_matrix M = true <-> square (length M) M.
Proof.
  unfold is_square_matrix, square. rewrite forallb_forall, Forall_forall.
  split.
  - intros H. split; [reflexivity|]. intros row Hin. now apply Nat.eqb_eq, H.
  - intros [_ H] row Hin. now apply Nat.eqb_eq, H.
Qed.

(** The unitarity test, read off as a statement about entries. *)
Lemma is_unitary_matrix_spec (M : Matrix) :
  is_unitary_matrix M = true <->
  exists n, square (2 ^ n) M /\
    forall i j, (i < 2 ^ n)%nat -> (j < 2 ^ n)%nat ->
      within tau_unitary (Csub (gram (2 ^ n) M i j) (identity_entry i j)) = true.
Proof.
  unfold is_unitary_matrix. rewrite !andb_true_iff. split.
  - intros [[Hsq Hpow] Hall].
    apply is_square_matrix_spec in Hsq.
    unfold is_power_of_two, shape0 in Hpow. apply Nat.eqb_eq in Hpow.
    exists (Nat.log2 (length M)). rewrite <- Hpow. split; [exact Hsq|].
    intros i j Hi Hj. cbv zeta in Hall. rewrite forallb_forall in Hall.
    specialize (Hall i). rewrite forallb_forall in Hall.
    unfold shape0 in Hall.
    rewrite <- (entry_gram (length M) M i j Hsq Hi Hj).
    apply Hall; apply in_seq; lia.
  - intros [n [Hsq Hall]]. pose proof Hsq as [Hlen _].
    split; [split|].
    + apply is_square_matrix_spec. now rewrite Hlen.
    + unfold is_power_of_two, shape0. rewrite Hlen.
      rewrite Nat.log2_pow2 by lia. apply Nat.eqb_refl.
    + cbv zeta. unfold shape0. rewrite Hlen.
      apply forallb_forall. intros i Hi. apply forallb_forall. intros j Hj.
      apply in_seq in Hi, Hj.
      rewrite (entry_gram (2 ^ n) M i j Hsq) by lia.
      apply Hall; lia.
Qed.

Lemma bit_reverse_permutation (n : nat) :
  Permutation (map (bit_reverse n) (seq 0 (2 ^ n))) (seq 0 (2 ^ n)).
Proof.
  apply Permutation_map_same_l.
  - apply Injective_map_NoDup_in; [|apply seq_NoDup].
    intros x y Hx Hy. apply in_seq in Hx, Hy.
    apply bit_reverse_injective; lia.
  - intros y Hy. apply in_map_iff in Hy. destruct Hy as [x [<- _]].
    apply in_seq. pose proof (bit_reverse_bound n x). lia.
Qed.

Lemma gram_permuted (n : nat) (M : Matrix) (i j : nat) :
  square (2 ^ n) M -> (i < 2 ^ n)%nat -> (j < 2 ^ n)%nat ->
  gram (2 ^ n) (permuted n M) i j
  = gram (2 ^ n) M (bit_reverse n i) (bit_reverse n j).
Proof.
  intros HM Hi Hj. unfold gram.
  rewrite <- (Csum_permutation _ _
    (Permutation_map
       (fun k => Cmul (entry M (bit_reverse n i) k)
                      (Cconj (entry M (bit_reverse n j) k)))
       (bit_reverse_permutation n))).
  rewrite map_map. f_equal. apply map_ext_in. intros k Hk. apply in_seq in Hk.
  now rewrite !(permuted_entry n M) by lia.
Qed.

Lemma identity_entry_bit_reverse (n i j : nat) :
  (i < 2 ^ n)%nat -> (j < 2 ^ n)%nat ->
  identity_entry (bit_reverse n i) (bit_reverse n j) = identity_entry i j.
Proof.
  intros Hi Hj. unfold identity_entry.
  destruct (Nat.eqb_spec i j) as [->|Hne]; [now rewrite Nat.eqb_refl|].
  destruct (Nat.eqb_spec (bit_reverse n i) (bit_reverse n j)) as [He|]; [|reflexivity].
  exfalso. apply Hne. now apply (bit_reverse_injective n).
Qed.

(** Permuting rows and columns by bit reversal preserves unitarity. *)
Lemma is_unitary_permuted (n : nat) (M : Matrix) :
  square (2 ^ n) M -> is_unitary_matrix M = true ->
  is_unitary_matrix (permuted n M) = true.
Proof.
  intros HM HU. apply is_unitary_matrix_spec in HU.
  destruct HU as [m [Hsq Hall]].
  assert (m = n).
  { destruct HM as [H1 _], Hsq as [H2 _]. rewrite H1 in H2.
    apply (Nat.pow_inj_r 2); lia. }
  subst m. apply is_unitary_matrix_spec. exists n.
  split; [apply permuted_square|].
  intros i j Hi Hj. rewrite gram_permuted by assumption.
  rewrite <- (identity_entry_bit_reverse n i j) by assumption.
  apply Hall; apply bit_reverse_bound.
Qed.

Lemma unitary_square (M : Matrix) :
  is_unitary_matrix M = true ->
  square (2 ^ Nat.log2 (length M)) M /\
  length M = (2 ^ Nat.log2 (length M))%nat.
Proof.
  intros HU. apply is_unitary_matrix_spec in HU. destruct HU as [n [Hsq _]].
  pose proof Hsq as [Hlen _]. rewrite Hlen, Nat.log2_pow2 by lia. auto.
Qed.

End UnitaryFacts.

(** ** Concrete gates *)

Module Examples.

Import GateMatrix Bits BinFacts Shapes Inputs NpFacts GateFacts UnitaryFacts.

Local Open Scope R_scope.

Lemma within_zero (z : C) : fst z = 0 -> snd z = 0 -> within tau_unitary z = true.
Proof.
  intros H1 H2. unfold within, Cabs. rewrite H1, H2.
  replace (0 * 0 + 0 * 0) with 0 by lra. rewrite sqrt_0.
  destruct (Rle_dec 0 tau_unitary) as [_|Hn]; [reflexivity|].
  exfalso. apply Hn. unfold tau_unitary. lra.
Qed.

(** A square array whose rows are exactly orthonormal passes the test. *)
Lemma is_unitary_matrix_exact (n : nat) (M : Matrix) :
  square (2 ^ n) M ->
  (forall i j, (i < 2 ^ n)%nat -> (j < 2 ^ n)%nat ->
               gram (2 ^ n) M i j = identity_entry i j) ->
  is_unitary_matrix M = true.
Proof.
  intros Hsq Hall. apply is_unitary_matrix_spec. exists n. split; [exact Hsq|].
  intros i j Hi Hj. rewrite (Hall i j Hi Hj).
  apply within_zero; unfold Csub; cbn [fst snd]; lra.
Qed.

Ltac square_concrete :=
  split; [reflexivity | repeat constructor].

Ltac gram_concrete :=
  unfold gram, entry, identity_entry; cbn;
  unfold Cadd, Cmul, Cconj, C0, C1; cbn [fst snd]; f_equal; lra.

Lemma pauli_x_unitary : is_unitary_matrix pauli_x = true.
Proof.
  apply (is_unitary_matrix_exact 1); [square_concrete|].
  intros i j Hi Hj. cbn in Hi, Hj.
  destruct i as [|[|i]]; [| |lia];
    (destruct j as [|[|j]]; [| |lia]); gram_concrete.
Qed.

Lemma cx_matrix_unitary : is_unitary_matrix cx_matrix = true.
Proof.
  apply (is_unitary_matrix_exact 2); [square_concrete|].
  intros i j Hi Hj. cbn in Hi, Hj.
  destruct i as [|[|[|[|i]]]]; [| | | |lia];
    (destruct j as [|[|[|[|j]]]]; [| | | |lia]); gram_concrete.
Qed.

Lemma init_x_gate : init "X" pauli_x = Ok x_gate.
Proof. unfold init. rewrite pauli_x_unitary. reflexivity. Qed.

Lemma init_cx_gate : init "CX" cx_matrix = Ok cx_gate.
Proof. unfold init. rewrite cx_matrix_unitary. reflexivity. Qed.

Lemma reorder_cx_matrix : reorder cx_matrix = Ok cx_reversed.
Proof. rewrite (reorder_permuted 2); [reflexivity | square_concrete]. Qed.

Lemma reorder_cx_reversed : reorder cx_reversed = Ok cx_matrix.
Proof. rewrite (reorder_permuted 2); [reflexivity | square_concrete]. Qed.

Lemma R1_neq_0 : (1 : R) <> 0.
Proof. lra. Qed.

Lemma cx_reversed_differs : cx_matrix <> cx_reversed.
Proof.
  intros H.
  assert (E : fst (entry cx_matrix 1 1) = fst (entry cx_reversed 1 1))
    by now rewrite H.
  cbn in E. lra.
Qed.

End Examples.

(** ** [Gate.control] *)

Module ControlFacts.

Import GateMatrix Bits BinFacts Shapes Inputs NpFacts GateFacts UnitaryFacts Examples.

Local Open Scope R_scope.

Ltac list_eq tac := repeat (apply (f_equal2 cons); [tac|]); try reflexivity.
Ltac c_eq := cbv [Cadd Cmul C0 C1 fst snd]; apply (f_equal2 pair); lra.
Ltac matrix_eq := list_eq ltac:(list_eq c_eq).

Lemma shape0_kron_projector (p q r s : C) (A : Matrix) :
  shape0 (kron [[p; q]; [r; s]] A) = (2 * shape0 A)%nat.
Proof.
  unfold kron, shape0. cbn [flat_map]. rewrite !length_app, !length_map.
  cbn [length]. lia.
Qed.

Lemma shape1_kron_projector (p q r s : C) (A : Matrix) :
  shape1 (kron [[p; q]; [r; s]] A) = (2 * shape1 A)%nat.
Proof.
  unfold kron, shape1. cbn [flat_map].
  destruct A as [|row A]; [reflexivity|].
  cbn [map app hd]. rewrite !length_app, !length_map. cbn [length]. lia.
Qed.

Lemma shape0_eye (n : nat) : shape0 (eye n) = n.
Proof. unfold eye, shape0. now rewrite length_map, length_seq. Qed.

Lemma shape1_eye (n : nat) : (0 < n)%nat -> shape1 (eye n) = n.
Proof.
  intros Hn. unfold eye, shape1. destruct n as [|n]; [lia|].
  cbn [seq map hd length]. now rewrite length_map, length_seq.
Qed.

(** The sum in [control] needs the identity block and the gate to have
    the same side: with [k] different from the number of qubits of the
    gate, numpy cannot broadcast the two terms. *)
Lemma control_mismatch (g : Gate) (n : nat) (k : Z) :
  square (2 ^ n) (matrix g) -> (1 <= k)%Z -> Z.to_nat k <> n ->
  control g k = Raise (ValueError "operands could not be broadcast together").
Proof.
  intros Hsq Hk Hne. unfold control.
  destruct (Z.ltb_spec k 1) as [Hlt|_]; [lia|].
  unfold Np.add, zero_projector, one_projector.
  rewrite !shape0_kron_projector, shape0_eye.
  replace (shape0 (matrix g)) with (2 ^ n)%nat
    by (destruct Hsq as [H _]; unfold shape0; lia).
  assert (Hpow : (2 ^ Z.to_nat k)%nat <> (2 ^ n)%nat).
  { intros E. apply Hne. apply (Nat.pow_inj_r 2); lia. }
  assert (H1 : (0 < 2 ^ Z.to_nat k)%nat) by (apply Nat.neq_0_lt_0, Nat.pow_nonzero; lia).
  assert (H2 : (0 < 2 ^ n)%nat) by (apply Nat.neq_0_lt_0, Nat.pow_nonzero; lia).
  unfold broadcast_dim at 1.
  destruct (Nat.eqb_spec (2 * 2 ^ Z.to_nat k) (2 * 2 ^ n)) as [E|_]; [lia|].
  destruct (Nat.eqb_spec (2 * 2 ^ Z.to_nat k) 1) as [E|_]; [lia|].
  destruct (Nat.eqb_spec (2 * 2 ^ n) 1) as [E|_]; [lia|].
  reflexivity.
Qed.

(** One control on the one-qubit gate X: the only count that works. *)
Lemma control_x_one :
  control x_gate 1
  = Ok {| name := "C-X"; matrix := cx_matrix; num_qubits := 2; ordering := "MSB" |}.
Proof.
  unfold control. cbn [Z.ltb Z.compare].
  assert (E : Np.add (kron zero_projector (eye (2 ^ Z.to_nat 1)))
                     (kron one_projector (matrix x_gate)) = Ok cx_matrix).
  { vm_compute. f_equal. matrix_eq. }
  rewrite E. cbn [Py.bind]. unfold init. rewrite cx_matrix_unitary. reflexivity.
Qed.

Lemma nth_map_in {A B} (f : A -> B) (l : list A) (i : nat) (d : A) (e : B) :
  (i < length l)%nat -> nth i (map f l) e = f (nth i l d).
Proof.
  intros Hi. rewrite (nth_indep _ e (f d)) by (now rewrite length_map).
  apply map_nth.
Qed.

(** The four blocks of [np.kron] with a 2 x 2 left factor. *)
Lemma entry_kron_projector (p q r s : C) (A : Matrix) (N a b : nat) :
  square N A -> (a < 2 * N)%nat -> (b < 2 * N)%nat ->
  entry (kron [[p; q]; [r; s]] A) a b
  = Cmul (if (a <? N)%nat then (if (b <? N)%nat then p else q)
          else (if (b <? N)%nat then r else s))
         (entry A (if (a <? N)%nat then a else (a - N)%nat)
                  (if (b <? N)%nat then b else (b - N)%nat)).
Proof.
  intros HA Ha Hb. pose proof HA as [Hlen Hrows].
  assert (Hrow : forall x y (i : nat), (i < N)%nat ->
            nth b (map (Cmul x) (nth i A []) ++ map (Cmul y) (nth i A []) ++ []) C0
            = Cmul (if (b <? N)%nat then x else y)
                   (nth (if (b <? N)%nat then b else (b - N)%nat) (nth i A []) C0)).
  { intros x y i Hi. pose proof (square_row N A i HA Hi) as Hl.
    destruct (Nat.ltb_spec b N) as [Hlt|Hge].
    - rewrite app_nth1 by (rewrite length_map; lia).
      apply nth_map_in. lia.
    - rewrite app_nth2 by (rewrite length_map; lia).
      rewrite length_map, Hl, app_nil_r. apply nth_map_in. lia. }
  unfold kron, entry. cbn [flat_map]. rewrite app_nil_r.
  destruct (Nat.ltb_spec a N) as [Hlt|Hge].
  - rewrite app_nth1 by (rewrite length_map; lia).
    rewrite (nth_map_in _ A a []) by lia.
    rewrite app_nil_r. rewrite <- (app_nil_r (map (Cmul q) _)).
    now apply Hrow.
  - rewrite app_nth2 by (rewrite length_map; lia).
    rewrite length_map, Hlen.
    rewrite (nth_map_in _ A (a - N) []) by lia.
    rewrite app_nil_r. rewrite <- (app_nil_r (map (Cmul s) _)).
    apply Hrow. lia.
Qed.

Lemma square_kron_projector (p q r s : C) (A : Matrix) (N : nat) :
  square N A -> square (2 * N) (kron [[p; q]; [r; s]] A).
Proof.
  intros [Hlen Hrows]. split.
  - pose proof (shape0_kron_projector p q r s A) as H.
    unfold shape0 in H. lia.
  - unfold kron. cbn [flat_map]. rewrite app_nil_r.
    rewrite Forall_forall in *. intros row Hin.
    apply in_app_or in Hin.
    destruct Hin as [Hin | Hin]; apply in_map_iff in Hin;
      destruct Hin as [rowA [<- HinA]]; cbn [flat_map];
      rewrite !length_app, !length_map, (Hrows rowA HinA); cbn [length]; lia.
Qed.

Lemma square_eye (n : nat) : square n (eye n).
Proof. apply square_map_seq. Qed.

Lemma entry_eye (n i j : nat) :
  (i < n)%nat -> (j < n)%nat -> entry (eye n) i j = identity_entry i j.
Proof.
  intros Hi Hj. unfold eye.
  now rewrite (entry_map_seq (fun i j => if (i =? j)%nat then C1 else C0)).
Qed.

(** The sum of two square arrays of the same side, at least 2. *)
Lemma add_square (n : nat) (A A' : Matrix) :
  (2 <= n)%nat -> square n A -> square n A' ->
  Np.add A A'
  = Ok (map (fun i => map (fun j => Cadd (entry A i j) (entry A' i j)) (seq 0 n))
            (seq 0 n)).
Proof.
  intros Hn HA HA'. unfold Np.add, bentry.
  rewrite (shape1_square n A), (shape1_square n A') by (try assumption; lia).
  replace (shape0 A) with n by (destruct HA; unfold shape0; lia).
  replace (shape0 A') with n by (destruct HA'; unfold shape0; lia).
  unfold broadcast_dim. rewrite Nat.eqb_refl.
  destruct (Nat.eqb_spec n 1) as [E|_]; [lia|]. reflexivity.
Qed.

Lemma Cmul_C1_l (z : C) : Cmul C1 z = z.
Proof. destruct z. unfold Cmul, C1. cbn [fst snd]. f_equal; lra. Qed.

Lemma Cmul_C0_l (z : C) : Cmul C0 z = C0.
Proof. unfold Cmul, C0. cbn [fst snd]. f_equal; lra. Qed.

Lemma Cadd_C0_r (z : C) : Cadd z C0 = z.
Proof. destruct z. unfold Cadd, C0. cbn [fst snd]. f_equal; lra. Qed.

Lemma Cadd_C0_l (z : C) : Cadd C0 z = z.
Proof. destruct z. unfold Cadd, C0. cbn [fst snd]. f_equal; lra. Qed.

(** The array that [control] hands to the constructor when the number of
    controls is the number of qubits of the gate. *)
Lemma controlled_matrix_entries (n : nat) (U : Matrix) :
  (1 <= n)%nat -> square (2 ^ n) U ->
  exists Mc,
    Np.add (kron zero_projector (eye (2 ^ n))) (kron one_projector U) = Ok Mc
    /\ square (2 ^ S n) Mc
    /\ forall a b, (a < 2 ^ S n)%nat -> (b < 2 ^ S n)%nat ->
         entry Mc a b = controlled_entry (2 ^ n) U a b.
Proof.
  intros Hn HU. set (N := (2 ^ n)%nat) in *.
  assert (HN : (2 <= N)%nat).
  { unfold N. destruct n as [|n]; [lia|]. rewrite Nat.pow_succ_r'.
    pose proof (Nat.pow_nonzero 2 n). lia. }
  assert (HS : (2 ^ S n = 2 * N)%nat) by (unfold N; apply Nat.pow_succ_r').
  rewrite HS.
  unfold zero_projector, one_projector.
  rewrite (add_square (2 * N))
    by (try apply square_kron_projector; try apply square_eye; try assumption; lia).
  eexists. split; [reflexivity|]. split; [apply square_map_seq|].
  intros a b Ha Hb.
  rewrite (entry_map_seq
             (fun i j => Cadd (entry (kron [[C1; C0]; [C0; C0]] (eye N)) i j)
                              (entry (kron [[C0; C0]; [C0; C1]] U) i j)))
    by assumption.
  rewrite (entry_kron_projector C1 C0 C0 C0 (eye N) N)
    by (try apply square_eye; assumption).
  rewrite (entry_kron_projector C0 C0 C0 C1 U N) by assumption.
  unfold controlled_entry.
  destruct (Nat.ltb_spec a N), (Nat.ltb_spec b N);
    rewrite ?Cmul_C1_l, ?Cmul_C0_l, ?Cadd_C0_r, ?Cadd_C0_l;
    try reflexivity.
  apply entry_eye; assumption.
Qed.

Lemma Cmul_conj_C0_r (z : C) : Cmul z (Cconj C0) = C0.
Proof. unfold Cmul, Cconj, C0. cbn [fst snd]. f_equal; lra. Qed.

Lemma Csum_app (l1 l2 : list C) : Csum (l1 ++ l2) = Cadd (Csum l1) (Csum l2).
Proof.
  induction l1 as [|z l1 IH]; cbn [app Csum fold_right].
  - now rewrite Cadd_C0_l.
  - unfold Csum in IH. now rewrite IH, Cadd_assoc.
Qed.

Lemma Csum_zero (f : nat -> C) (l : list nat) :
  (forall k, In k l -> f k = C0) -> Csum (map f l) = C0.
Proof.
  induction l as [|k l IH]; intros H; [reflexivity|].
  cbn [map Csum fold_right]. rewrite (H k) by now left.
  unfold Csum in IH. rewrite IH by (intros k' Hk'; apply H; now right).
  apply Cadd_C0_l.
Qed.

(** The rows of the identity are orthonormal. *)
Lemma gram_identity (a b n : nat) :
  forall s,
    Csum (map (fun k => Cmul (identity_entry a k) (Cconj (identity_entry b k)))
              (seq s n))
    = if ((s <=? a) && (a <? s + n) && (a =? b))%nat then C1 else C0.
Proof.
  induction n as [|n IH]; intros s.
  - cbn [seq map Csum fold_right].
    destruct (Nat.leb_spec s a), (Nat.ltb_spec a (s + 0)); cbn [andb];
      try reflexivity; lia.
  - cbn [seq map Csum fold_right]. unfold Csum in IH. rewrite IH.
    unfold identity_entry.
    destruct (Nat.eqb_spec a s) as [Eas|Nas];
      destruct (Nat.eqb_spec b s) as [Ebs|Nbs];
      destruct (Nat.eqb_spec a b) as [Eab|Nab];
      destruct (Nat.leb_spec (S s) a); destruct (Nat.leb_spec s a);
      destruct (Nat.ltb_spec a (S s + n)); destruct (Nat.ltb_spec a (s + S n));
      cbn [andb]; try lia;
      unfold Cadd, Cmul, Cconj, C0, C1; cbn [fst snd]; f_equal; lra.
Qed.

Lemma seq_shifted (N n : nat) :
  forall s, seq (s + N) n = map (fun k => (k + N)%nat) (seq s n).
Proof.
  induction n as [|n IH]; intros s; [reflexivity|].
  cbn [seq map]. f_equal. apply (IH (S s)).
Qed.

Lemma seq_upper_half (N : nat) : seq N N = map (fun k => (k + N)%nat) (seq 0 N).
Proof. apply (seq_shifted N N 0). Qed.

(** [M M^H] for the array of a controlled gate, block by block. *)
Lemma gram_controlled (N : nat) (U Mc : Matrix) (a b : nat) :
  (forall i j, (i < 2 * N)%nat -> (j < 2 * N)%nat ->
               entry Mc i j = controlled_entry N U i j) ->
  (a < 2 * N)%nat -> (b < 2 * N)%nat ->
  gram (2 * N) Mc a b
  = if (a <? N)%nat then (if (b <? N)%nat then identity_entry a b else C0)
    else (if (b <? N)%nat then C0 else gram N U (a - N) (b - N)).
Proof.
  intros HMc Ha Hb. unfold gram.
  rewrite (map_ext_in _
             (fun k => Cmul (controlled_entry N U a k)
                            (Cconj (controlled_entry N U b k))))
    by (intros k Hk; apply in_seq in Hk; rewrite !HMc by lia; reflexivity).
  replace (2 * N)%nat with (N + N)%nat by lia.
  rewrite seq_app, map_app, Csum_app. cbn [Nat.add].
  unfold controlled_entry.
  destruct (Nat.ltb_spec a N) as [HaN|HaN]; destruct (Nat.ltb_spec b N) as [HbN|HbN].
  - rewrite (map_ext_in _
               (fun k => Cmul (identity_entry a k) (Cconj (identity_entry b k)))
               (seq 0 N))
      by (intros k Hk; apply in_seq in Hk;
          destruct (Nat.ltb_spec k N); [reflexivity|lia]).
    rewrite gram_identity.
    rewrite Csum_zero
      by (intros k Hk; apply in_seq in Hk;
          destruct (Nat.ltb_spec k N); [lia|apply Cmul_C0_l]).
    rewrite Cadd_C0_r. unfold identity_entry.
    destruct (Nat.leb_spec 0 a); [|lia].
    destruct (Nat.ltb_spec a (0 + N)); [|lia]. cbn [andb]. reflexivity.
  - rewrite !Csum_zero; [apply Cadd_C0_l | |];
      intros k Hk; apply in_seq in Hk; destruct (Nat.ltb_spec k N);
      try lia; first [apply Cmul_conj_C0_r | apply Cmul_C0_l].
  - rewrite !Csum_zero; [apply Cadd_C0_l | |];
      intros k Hk; apply in_seq in Hk; destruct (Nat.ltb_spec k N);
      try lia; first [apply Cmul_C0_l | apply Cmul_conj_C0_r].
  - rewrite Csum_zero
      by (intros k Hk; apply in_seq in Hk;
          destruct (Nat.ltb_spec k N); [apply Cmul_C0_l|lia]).
    rewrite Cadd_C0_l, seq_upper_half, map_map. f_equal.
    apply map_ext_in. intros k Hk. apply in_seq in Hk.
    destruct (Nat.ltb_spec (k + N) N); [lia|].
    now rewrite Nat.add_sub.
Qed.

(** With as many controls as the gate has qubits, [control] succeeds:
    it returns a gate of side [2^(n+1)] whose matrix is
    [|0><0| (x) I + |1><1| (x) U], and that matrix is unitary. *)
Lemma control_matching (g : Gate) (n : nat) :
  (1 <= n)%nat -> is_unitary_matrix (matrix g) = true ->
  length (matrix g) = (2 ^ n)%nat ->
  exists g',
    control g (Z.of_nat n) = Ok g'
    /\ name g' = String.append "C-" (name g)
    /\ ordering g' = "MSB"
    /\ square (2 ^ S n) (matrix g')
    /\ (forall a b, (a < 2 ^ S n)%nat -> (b < 2 ^ S n)%nat ->
          entry (matrix g') a b = controlled_entry (2 ^ n) (matrix g) a b)
    /\ is_unitary_matrix (matrix g') = true.
Proof.
  intros Hn HU Hlen.
  pose proof HU as HU'. apply is_unitary_matrix_spec in HU'.
  destruct HU' as [m [Hsq Hall]].
  assert (m = n).
  { destruct Hsq as [H1 _]. rewrite Hlen in H1. apply (Nat.pow_inj_r 2); lia. }
  subst m.
  destruct (controlled_matrix_entries n (matrix g) Hn Hsq)
    as [Mc [Hadd [HsqMc Hent]]].
  assert (HUc : is_unitary_matrix Mc = true).
  { apply is_unitary_matrix_spec. exists (S n). split; [exact HsqMc|].
    intros a b Ha Hb.
    assert (HS : (2 ^ S n = 2 * 2 ^ n)%nat) by apply Nat.pow_succ_r'.
    rewrite HS in *.
    rewrite (gram_controlled (2 ^ n) (matrix g) Mc a b Hent Ha Hb).
    unfold identity_entry.
    destruct (Nat.ltb_spec a (2 ^ n)); destruct (Nat.ltb_spec b (2 ^ n)).
    - apply within_zero; unfold Csub; cbn [fst snd]; lra.
    - destruct (Nat.eqb_spec a b); [lia|].
      apply within_zero; unfold Csub, C0; cbn [fst snd]; lra.
    - destruct (Nat.eqb_spec a b); [lia|].
      apply within_zero; unfold Csub, C0; cbn [fst snd]; lra.
    - specialize (Hall (a - 2 ^ n)%nat (b - 2 ^ n)%nat).
      unfold identity_entry in Hall.
      replace (a - 2 ^ n =? b - 2 ^ n)%nat with (a =? b)%nat in Hall.
      + apply Hall; lia.
      + destruct (Nat.eqb_spec a b), (Nat.eqb_spec (a - 2 ^ n) (b - 2 ^ n));
          try reflexivity; lia. }
  unfold control.
  destruct (Z.ltb_spec (Z.of_nat n) 1) as [Hlt|_]; [lia|].
  rewrite Nat2Z.id, Hadd. cbn [Py.bind]. unfold init. rewrite HUc.
  cbn [negb]. eexists. split; [reflexivity|].
  cbn [name ordering matrix].
  split; [reflexivity|]. split; [reflexivity|]. split; [exact HsqMc|].
  split; [exact Hent | exact HUc].
Qed.

(** C2, at the failing input.  X is a gate; asking for two controls on it
    raises, because the identity block has side 4 and X has side 2. *)
Theorem control_x_two_raises :
  init "X" pauli_x = Ok x_gate /\
  control x_gate 2
  = Raise (ValueError "operands could not be broadcast together").
Proof.
  split; [exact init_x_gate|].
  apply (control_mismatch x_gate 1 2); [square_concrete | lia | discriminate].
Qed.

End ControlFacts.

(** ** [Gate.change_mapping] and the unitarity invariant *)

Module MappingFacts.

Import GateMatrix Bits BinFacts Shapes Inputs NpFacts GateFacts UnitaryFacts.
Import Examples ControlFacts.

(** What [change_mapping] does to a gate that holds a unitary matrix. *)
Lemma change_mapping_unitary (g : Gate) (o : string) :
  is_unitary_matrix (matrix g) = true ->
  change_mapping g o =
    if negb (existsb (String.eqb o) ["MSB"; "LSB"]) then
      Raise (ValueError "The ordering must be either 'MSB' or 'LSB'.")
    else if String.eqb o (ordering g) then Ok g
    else Ok {| name := name g;
               matrix := permuted (Nat.log2 (length (matrix g))) (matrix g);
               num_qubits := num_qubits g;
               ordering := o |}.
Proof.
  intros HU. unfold change_mapping.
  destruct (negb (existsb (String.eqb o) ["MSB"; "LSB"])); [reflexivity|].
  destruct (String.eqb o (ordering g)); [reflexivity|].
  destruct (unitary_square _ HU) as [Hsq _].
  now rewrite (reorder_permuted _ _ Hsq).
Qed.

(** C9, as the code has it.  On a gate in the ordering MSB (every gate is
    constructed so) that holds a unitary matrix, [change_mapping("LSB")]
    succeeds and gives a gate in the ordering LSB, and
    [change_mapping("MSB")] on that gate gives back the gate one started
    from: the same matrix entry for entry, and the ordering MSB. *)
Theorem change_mapping_round_trip (g : Gate) :
  is_unitary_matrix (matrix g) = true ->
  ordering g = "MSB" ->
  exists g1,
    change_mapping g "LSB" = Ok g1 /\
    ordering g1 = "LSB" /\
    change_mapping g1 "MSB" = Ok g.
Proof.
  intros HU Hord.
  destruct (unitary_square _ HU) as [Hsq Hlen].
  set (n := Nat.log2 (length (matrix g))) in *.
  exists {| name := name g; matrix := permuted n (matrix g);
            num_qubits := num_qubits g; ordering := "LSB" |}.
  split; [|split; [reflexivity|]].
  - rewrite (change_mapping_unitary g "LSB" HU), Hord. reflexivity.
  - rewrite change_mapping_unitary
      by (cbn [matrix]; now apply is_unitary_permuted).
    cbn [matrix ordering name num_qubits negb existsb String.eqb Ascii.eqb Bool.eqb orb].
    assert (Hn : Nat.log2 (length (permuted n (matrix g))) = n).
    { destruct (permuted_square n (matrix g)) as [H _].
      rewrite H. apply Nat.log2_pow2. lia. }
    rewrite Hn, (permuted_involutive n _ Hsq).
    destruct g as [nm m q o]. cbn in *. now subst o.
Qed.

Lemma change_mapping_round_trip_witness :
  exists g1,
    change_mapping Inputs.cx_gate "LSB" = Ok g1 /\
    ordering g1 = "LSB" /\
    change_mapping g1 "MSB" = Ok Inputs.cx_gate.
Proof.
  apply change_mapping_round_trip; [exact cx_matrix_unitary | reflexivity].
Defined.

(** C9, as stated, fails on a gate whose ordering is already LSB.  The
    gate [cx_gate_lsb] is what [change_mapping("LSB")] makes of CX; on it
    the first call returns at once and the second permutes the matrix. *)
Lemma change_mapping_round_trip_from_lsb :
  (g <- init "CX" cx_matrix ;; change_mapping g "LSB") = Ok cx_gate_lsb /\
  exists g',
    (g1 <- change_mapping cx_gate_lsb "LSB" ;; change_mapping g1 "MSB") = Ok g' /\
    matrix g' <> matrix cx_gate_lsb.
Proof.
  split.
  - rewrite init_cx_gate. cbn [Py.bind]. unfold change_mapping.
    cbn [negb existsb String.eqb Ascii.eqb Bool.eqb orb ordering cx_gate matrix].
    rewrite reorder_cx_matrix. reflexivity.
  - exists cx_gate. split.
    + assert (E1 : change_mapping cx_gate_lsb "LSB" = Ok cx_gate_lsb)
        by reflexivity.
      assert (E2 : change_mapping cx_gate_lsb "MSB" = Ok cx_gate).
      { unfold change_mapping.
        cbn [negb existsb String.eqb Ascii.eqb Bool.eqb orb ordering cx_gate_lsb matrix].
        rewrite reorder_cx_reversed. reflexivity. }
      rewrite E1. cbn [Py.bind]. exact E2.
    + exact cx_reversed_differs.
Qed.

(** C10.  The constructor raises [ValueError] exactly on the matrices
    that fail the unitarity test and otherwise stores the matrix as it
    is; on a gate that holds a unitary matrix, a gate returned by
    [control] holds one (the constructor has validated it), and
    [change_mapping] with either ordering succeeds and returns a gate
    that holds one, the bit-reversal permutation of rows and columns
    preserving unitarity.  [adjoint] is a function of the matrix and does
    not touch the gate. *)
Theorem gate_holds_unitary (nm : string) (m : Matrix) (g : Gate) :
  (is_unitary_matrix m = false ->
   init nm m = Raise (ValueError "The matrix must be unitary.")) /\
  (is_unitary_matrix m = true ->
   exists g0, init nm m = Ok g0 /\ matrix g0 = m) /\
  (is_unitary_matrix (matrix g) = true ->
   (forall k g', control g k = Ok g' -> is_unitary_matrix (matrix g') = true) /\
   (forall o, o = "MSB" \/ o = "LSB" ->
      exists g', change_mapping g o = Ok g' /\
                 is_unitary_matrix (matrix g') = true) /\
   (forall o g', change_mapping g o = Ok g' ->
                 is_unitary_matrix (matrix g') = true) /\
   adjoint g = conj_transpose (matrix g)).
Proof.
  split; [|split].
  - intros H. unfold init. now rewrite H.
  - intros H. unfold init. rewrite H. eexists. split; reflexivity.
  - intros HU.
    assert (Hcm : forall o g', change_mapping g o = Ok g' ->
                               is_unitary_matrix (matrix g') = true).
    { intros o g' H. rewrite (change_mapping_unitary g o HU) in H.
      destruct (negb (existsb (String.eqb o) ["MSB"; "LSB"])); [discriminate|].
      destruct (String.eqb o (ordering g)); injection H as <-; [exact HU|].
      cbn [matrix]. apply is_unitary_permuted; [|exact HU].
      apply (unitary_square _ HU). }
    split; [|split; [|split]].
    + intros k g' H. unfold control in H.
      destruct (k <? 1)%Z; [discriminate|].
      destruct (Np.add _ _) as [cm|e]; [|discriminate].
      cbn [Py.bind] in H. unfold init in H.
      destruct (is_unitary_matrix cm) eqn:E; [|discriminate].
      cbn [negb] in H. injection H as <-. exact E.
    + intros o Ho.
      assert (E : negb (existsb (String.eqb o) ["MSB"; "LSB"]) = false)
        by (destruct Ho as [-> | ->]; reflexivity).
      pose proof (change_mapping_unitary g o HU) as H. rewrite E in H.
      destruct (String.eqb o (ordering g)); eexists; (split; [exact H|]);
        apply (Hcm o); exact H.
    + exact Hcm.
    + reflexivity.
Qed.

Lemma gate_holds_unitary_witness :
  (exists g0, init "X" pauli_x = Ok g0 /\ matrix g0 = pauli_x) /\
  is_unitary_matrix cx_matrix = true /\
  (exists g', change_mapping x_gate "LSB" = Ok g' /\
              is_unitary_matrix (matrix g') = true).
Proof.
  destruct (gate_holds_unitary "X" pauli_x x_gate) as [_ [Hinit Hinv]].
  destruct (Hinv pauli_x_unitary) as [Hctl [Hcm _]].
  split; [exact (Hinit pauli_x_unitary)|].
  split; [exact (Hctl 1%Z _ control_x_one)|].
  apply Hcm. now right.
Defined.

End MappingFacts.

(** ** The CZ-basis rotation kernel *)

Module KernelFacts.

Import Shannon Kernel Bits BinFacts.

Lemma emit_all_nil (st : state) : emit_all [] st = st.
Proof.
  destruct st as [[q log] blocks]. unfold emit_all, extend. cbn.
  now rewrite app_nil_r.
Qed.

Lemma emit_all_app (gs hs : list gate) (st : state) :
  emit_all (gs ++ hs) st = emit_all hs (emit_all gs st).
Proof. unfold emit_all, extend. cbn. now rewrite app_assoc. Qed.

Lemma emit_emit_all (g : gate) (st : state) : emit g st = emit_all [g] st.
Proof. reflexivity. Qed.

Lemma last_item_snoc {A} (l : list A) (x : A) : Py.last_item (l ++ [x]) = Ok x.
Proof. unfold Py.last_item. now rewrite rev_unit. Qed.

Lemma but_last_snoc {A} (l : list A) (x : A) : Py.but_last (l ++ [x]) = l.
Proof. apply removelast_last. Qed.

Lemma pos_trailing_zeros_le (p : positive) :
  2 ^ pos_trailing_zeros p <= Pos.to_nat p.
Proof.
  induction p as [q IH|q IH|]; cbn [pos_trailing_zeros].
  - cbn. lia.
  - rewrite Nat.pow_succ_r', Pos2Nat.inj_xO. lia.
  - cbn. lia.
Qed.

(** The number of trailing zeros of [m] is the largest power of two that
    divides [m]. *)
Lemma trailing_zeros_divides (m : nat) :
  0 < m ->
  exists q, m = 2 ^ trailing_zeros m * q /\ Nat.odd q = true.
Proof.
  intros Hm. unfold trailing_zeros.
  destruct (N.of_nat m) as [|p] eqn:E; [lia|].
  assert (Hp : m = Pos.to_nat p) by lia. rewrite Hp. clear.
  induction p as [q IH|q IH|]; cbn [pos_trailing_zeros].
  - exists (Pos.to_nat q~1). split; [cbn; lia|].
    rewrite Pos2Nat.inj_xI. rewrite Nat.odd_succ, Nat.even_mul. reflexivity.
  - destruct IH as [r [Hr Hodd]]. exists r. split; [|exact Hodd].
    rewrite Pos2Nat.inj_xO, Nat.pow_succ_r'. lia.
  - exists 1. split; reflexivity.
Qed.

Lemma trailing_zeros_bound (m k : nat) :
  0 < m -> m < 2 ^ k -> trailing_zeros m < k.
Proof.
  intros Hm Hk. unfold trailing_zeros.
  destruct (N.of_nat m) as [|p] eqn:E; [lia|].
  pose proof (pos_trailing_zeros_le p) as Hle.
  assert (Hp : Pos.to_nat p = m) by lia. rewrite Hp in Hle.
  apply (Nat.pow_lt_mono_r_iff 2); lia.
Qed.

Section Kernel.

Context {B : Backend}.

Lemma ucry_cz_loop (k N : nat) (controls : list nat) (target : nat)
    (items : list (nat * R)) :
  length controls = k -> N <= 2 ^ k ->
  forall st,
    Py.for_each (ucry_cz_step N N controls target) items st
    = Ok (emit_all (flat_map (step_gates c_code N controls target) items) st).
Proof.
  intros Hk HN. induction items as [|[i angle] items IH]; intros st.
  - cbn. now rewrite emit_all_nil.
  - cbn [Py.for_each flat_map]. rewrite emit_all_app.
    assert (Hstep : ucry_cz_step N N controls target st (i, angle)
                    = Ok (emit_all (step_gates c_code N controls target (i, angle)) st)).
    { unfold ucry_cz_step, control_index, step_gates. cbn [fst snd].
      rewrite emit_all_app.
      set (st1 := if exceeds_epsilon angle then emit (RY angle target) st else st).
      assert (Hst1 : emit_all (if exceeds_epsilon angle then [RY angle target] else []) st = st1).
      { unfold st1. destruct (exceeds_epsilon angle);
          [reflexivity | apply emit_all_nil]. }
      rewrite Hst1.
      destruct (Nat.ltb_spec i (N - 1)) as [Hi|Hi].
      - destruct (Nat.eqb_spec i (N - 1)) as [E|_]; [lia|]. cbn [negb].
        rewrite control_index_of_spec.
        assert (Htz : trailing_zeros (i + 1) < length controls).
        { rewrite Hk. apply trailing_zeros_bound; lia. }
        unfold Py.index. rewrite (nth_error_nth' controls 0%nat Htz).
        reflexivity.
      - now rewrite emit_all_nil. }
    rewrite Hstep. cbn [Py.bind]. apply IH.
Qed.

(** The gates that [get_ucry_cz] appends when there is at least one
    control and one angle per value of the controls. *)
Lemma get_ucry_cz_log (k : nat) (controls : list nat) (target : nat)
    (angles : list R) (st : state) :
  1 <= k -> length controls = k -> length angles = 2 ^ k ->
  length (decompose_uc_rotations angles 0 (length angles) false) = 2 ^ k ->
  get_ucry_cz (controls ++ [target]) angles st
  = Ok (emit_all
          (ucry_cz_gates c_code controls target
             (decompose_uc_rotations angles 0 (length angles) false))
          st).
Proof.
  intros Hk Hc Ha Hd. unfold get_ucry_cz.
  rewrite last_item_snoc, but_last_snoc. cbn [Py.bind].
  destruct controls as [|c0 controls]; [cbn in Hc; lia|].
  rewrite Hd. rewrite Ha at 1.
  rewrite (ucry_cz_loop k) by (try assumption; lia).
  unfold ucry_cz_gates. now rewrite Hd.
Qed.

End Kernel.

End KernelFacts.

Module KernelClaims.

Import Shannon Kernel Bits BinFacts KernelFacts.

(** C3, as the code has it.  With [k >= 1] controls and [2 ^ k]
    transformed angles [angles'] (the list that [decompose_uc_rotations]
    leaves), [get_ucry_cz] succeeds and appends, for each index [i] of
    [angles'] in turn, the rotation [RY] when its angle exceeds [1e-10]
    in absolute value and then, for every [i < 2 ^ k - 1], a CZ on the
    target whose control is [controls[c i]], where [c i] is the number of
    trailing zero bits of [i + 1] (the largest power of two dividing
    [i + 1]); at the last index the control index is [k - 1] and nothing
    follows the rotation. *)
Theorem get_ucry_cz_emits {B : Backend} (k : nat) (controls : list nat)
    (target : nat) (angles : list R) (st : state) :
  let angles' := decompose_uc_rotations angles 0 (length angles) false in
  1 <= k -> length controls = k ->
  length angles = 2 ^ k -> length angles' = 2 ^ k ->
  get_ucry_cz (controls ++ [target]) angles st
  = Ok (emit_all (ucry_cz_gates c_code controls target angles') st)
  /\ ucry_cz_gates c_code controls target angles'
     = flat_map
         (fun item : nat * R =>
            (if exceeds_epsilon (snd item) then [RY (snd item) target] else [])
            ++ (if fst item <? 2 ^ k - 1
                then [CZ (nth (c_code (fst item)) controls 0) target]
                else []))
         (enumerate angles')
  /\ (forall i, i < 2 ^ k - 1 ->
        control_index (2 ^ k) controls i = c_code i /\
        c_code i < k /\
        exists q, i + 1 = 2 ^ c_code i * q /\ Nat.odd q = true)
  /\ control_index (2 ^ k) controls (2 ^ k - 1) = k - 1.
Proof.
  intros angles' Hk Hc Ha Hd. split; [|split; [|split]].
  - now apply (get_ucry_cz_log k).
  - unfold ucry_cz_gates, step_gates. now rewrite Hd.
  - intros i Hi. unfold c_code, control_index. split; [|split].
    + destruct (Nat.eqb_spec i (2 ^ k - 1)) as [E|_]; [lia|].
      apply control_index_of_spec.
    + apply trailing_zeros_bound; lia.
    + apply trailing_zeros_divides. lia.
  - unfold control_index. now rewrite Nat.eqb_refl, Hc.
Qed.

Lemma get_ucry_cz_emits_witness :
  let angles' :=
    decompose_uc_rotations (Backend := TestBackend.backend) [0; 0]%R 0 2 false in
  get_ucry_cz (B := TestBackend.backend) ([0] ++ [1]) [0; 0]%R
    (Inputs.empty_state 2)
  = Ok (emit_all (ucry_cz_gates c_code [0] 1 angles') (Inputs.empty_state 2)).
Proof.
  apply (get_ucry_cz_emits (B := TestBackend.backend) 1 [0] 1 [0; 0]%R);
    [lia | reflexivity | reflexivity | reflexivity].
Defined.

(** C3, as stated, fails: with two controls the first entangler is on
    [controls[0]], the number of trailing zeros of 1 being 0, whereas the
    least significant zero bit of 1 is at position 1. *)
Lemma get_ucry_cz_not_lowest_zero_bit :
  get_ucry_cz (B := TestBackend.backend) [0; 1; 2] [0; 0; 0; 0]%R (Inputs.empty_state 3)
  <> Ok (emit_all
           (ucry_cz_gates c_spec [0; 1] 2
              (decompose_uc_rotations (Backend := TestBackend.backend)
                 [0; 0; 0; 0]%R 0 4 false))
           (Inputs.empty_state 3)).
Proof.
  rewrite (get_ucry_cz_log (B := TestBackend.backend) 2 [0; 1] 2 [0; 0; 0; 0]%R)
    by (try reflexivity; lia).
  intros H. injection H as H. revert H.
  unfold ucry_cz_gates, step_gates, enumerate.
  cbn [length seq combine flat_map fst snd Nat.sub Nat.ltb Nat.leb].
  change (c_code 0) with 0. change (c_spec 0) with 1. cbn [nth].
  destruct (exceeds_epsilon _); cbn [app]; intros H; discriminate H.
Qed.

End KernelClaims.

(** ** The recursion and its post-pass *)

Module DriverFacts.

Import Shannon Kernel Bits BinFacts KernelFacts.

Lemma append_append (g h : gate) (c : Circuit) :
  append g (append h c) = extend [h; g] c.
Proof. unfold append, extend. cbn. now rewrite <- app_assoc. Qed.

Lemma extend_extend (gs hs : list gate) (c : Circuit) :
  extend hs (extend gs c) = extend (gs ++ hs) c.
Proof. unfold extend. cbn. now rewrite app_assoc. Qed.

Lemma extend_nil (c : Circuit) : extend [] c = c.
Proof. destruct c. unfold extend. cbn. now rewrite app_nil_r. Qed.

(** The one-qubit leaf of the recursion appends its gates to the log. *)
Lemma one_qubit_appends (c c' : Circuit) (u : unitary_arg) (q : qubits_arg) :
  OneQubit.apply_unitary OneQubit.default c u q = Ok c' ->
  exists gs, c' = extend gs c.
Proof.
  unfold OneQubit.apply_unitary. intros H.
  destruct (negb (length (as_list q) =? 1)); [discriminate|].
  destruct (as_operator u) as [op|e]; [|discriminate]. cbn [Py.bind] in H.
  destruct (negb (op_num_qubits op =? 1)); [discriminate|].
  destruct (Py.index (as_list q) 0) as [q0|e]; [|discriminate].
  cbn [Py.bind] in H.
  change (String.eqb (OneQubit.basis OneQubit.default) "zyz") with false in H.
  change (String.eqb (OneQubit.basis OneQubit.default) "u3") with true in H.
  cbv iota in H.
  destruct (OneQubit.params_u3 (data op)) as [phase [[theta phi] lamda]].
  injection H as <-. rewrite append_append. now eexists.
Qed.

Section Driver.

Context {B : Backend}.

Lemma ucry_cz_step_appends (N L : nat) (controls : list nat) (target : nat)
    (st st' : state) (item : nat * R) :
  ucry_cz_step N L controls target st item = Ok st' ->
  exists gs, st' = emit_all gs st.
Proof.
  unfold ucry_cz_step. destruct item as [i angle].
  set (st1 := if exceeds_epsilon angle then _ else _).
  assert (H1 : exists gs, st1 = emit_all gs st).
  { unfold st1. destruct (exceeds_epsilon angle).
    - exists [RY angle target]. reflexivity.
    - exists []. now rewrite emit_all_nil. }
  destruct H1 as [gs1 ->].
  destruct (i <? N - 1).
  - destruct (Py.index controls _) as [c|e]; [|discriminate].
    cbn [Py.bind]. intros H. injection H as <-.
    exists (gs1 ++ [CZ c target]). now rewrite emit_all_app.
  - intros H. injection H as <-. now exists gs1.
Qed.

(** [get_ucry_cz] only appends to the log, whatever its arguments. *)
Lemma get_ucry_cz_appends (qubits : list nat) (angles : list R)
    (st st' : state) :
  get_ucry_cz qubits angles st = Ok st' -> exists gs, st' = emit_all gs st.
Proof.
  unfold get_ucry_cz.
  destruct (Py.last_item qubits) as [target|e]; [|discriminate].
  cbn [Py.bind].
  destruct (Py.but_last qubits) as [|c0 controls].
  - destruct (Py.index angles 0) as [a0|e]; [|discriminate]. cbn [Py.bind].
    destruct (exceeds_epsilon a0); intros H; injection H as <-.
    + now exists [RY a0 target].
    + exists []. now rewrite emit_all_nil.
  - generalize (enumerate (decompose_uc_rotations angles 0 (length angles) false)).
    generalize (length (decompose_uc_rotations angles 0 (length angles) false)).
    intros L items. revert st.
    induction items as [|item items IH]; intros st H.
    + injection H as <-. exists []. now rewrite emit_all_nil.
    + cbn [Py.for_each] in H.
      destruct (ucry_cz_step _ _ _ _ st item) as [st1|e] eqn:E; [|discriminate].
      cbn [Py.bind] in H.
      apply ucry_cz_step_appends in E. destruct E as [gs1 ->].
      destruct (IH _ H) as [gs2 ->].
      exists (gs1 ++ gs2). now rewrite emit_all_app.
Qed.

(** The order of what [demultiplexor] appends, given that the recursive
    calls only append. *)
Lemma demultiplexor_with_log
    (qsd : list nat -> Matrix -> nat -> state -> result state)
    (demux_qubits : list nat) (U1 U2 : Matrix) (depth : nat)
    (st st' : state) :
  (forall q U s s', qsd q U (depth + 1) s = Ok s' ->
                    exists gs, circuit s' = extend gs (circuit s)) ->
  demultiplexor_with qsd demux_qubits U1 U2 depth st = Ok st' ->
  let u := matmul U1 (conj_transpose U2) in
  let d := if is_hermitian_matrix u
           then map (fun x => (x, 0%R)) (fst (eigh u))
           else diagonal (fst (schur u)) in
  let E := if is_hermitian_matrix u then snd (eigh u) else snd (schur u) in
  let sq := map emath_sqrt d in
  let W := matmul (matmul (diag sq) (conj_transpose E)) U2 in
  let inner := Py.but_last demux_qubits in
  let angles := map (fun z => (2 * OneQubit.angle (Cconj z))%R) sq in
  exists target gsW gsE st1,
    Py.last_item demux_qubits = Ok target /\
    qsd inner W (depth + 1) st = Ok st1 /\
    circuit st1 = extend gsW (circuit st) /\
    qsd inner E (depth + 1) (emit (UCRZ angles inner target) st1) = Ok st' /\
    circuit st'
    = extend (gsW ++ [UCRZ angles inner target] ++ gsE) (circuit st).
Proof.
  intros Hqsd H u d E sq W inner angles.
  unfold demultiplexor_with in H. fold u in H.
  assert (Hpair :
    (if is_hermitian_matrix u
     then let '(w, v) := eigh u in (map (fun x => (x, 0%R)) w, v)
     else let '(t, z) := schur u in (diagonal t, z)) = (d, E)).
  { unfold d, E. destruct (is_hermitian_matrix u).
    - now destruct (eigh u).
    - now destruct (schur u). }
  rewrite Hpair in H. fold sq W inner in H.
  destruct (qsd inner W (depth + 1) st) as [st1|e] eqn:E1; [|discriminate].
  cbn [Py.bind] in H.
  destruct (Py.last_item demux_qubits) as [target|e]; [|discriminate].
  cbn [Py.bind] in H. fold angles in H.
  destruct (Hqsd _ _ _ _ E1) as [gsW HW].
  destruct (Hqsd _ _ _ _ H) as [gsE HE].
  exists target, gsW, gsE, st1. repeat split; try assumption.
  rewrite HE. cbn [emit circuit]. rewrite HW.
  change (append (UCRZ angles inner target) (extend gsW (circuit st)))
    with (extend [UCRZ angles inner target] (extend gsW (circuit st))).
  rewrite !extend_extend. f_equal.
Qed.

(** Below the top level the driver only appends to the log: the A.2
    post-pass, which rebuilds the log, runs at depth 0 only. *)
Lemma qsd_appends (fuel : nat) (data : Matrix) :
  forall (qubits : list nat) (U : Matrix) (depth : nat) (st st' : state),
    1 <= depth ->
    quantum_shannon_decomposition fuel data qubits U depth st = Ok st' ->
    exists gs, circuit st' = extend gs (circuit st).
Proof.
  induction fuel as [|fuel IH]; intros qubits U depth st st' Hd H;
    [discriminate|].
  cbn [quantum_shannon_decomposition] in H.
  destruct (shape0 U =? 2).
  { unfold lift_circuit in H.
    destruct (OneQubit.apply_unitary _ _ _ _) as [c|e] eqn:E; [|discriminate].
    cbn [Py.bind] in H. injection H as <-. cbn [circuit].
    now apply one_qubit_appends in E. }
  destruct (shape0 U =? 4).
  { destruct (two_qubit_gates U qubits) as [gs|e]; [|discriminate].
    cbn [Py.bind] in H. exists gs.
    destruct (0 <? depth); injection H as <-; reflexivity. }
  destruct (cossin U (shape0 U / 2) (shape0 U / 2))
    as [[[u1 u2] vtheta] [v1h v2h]].
  assert (Hrec : forall q V s s',
             quantum_shannon_decomposition fuel data q V (depth + 1) s = Ok s' ->
             exists gs, circuit s' = extend gs (circuit s)).
  { intros q V s s' Hs. apply (IH q V (depth + 1) s s'); [lia | exact Hs]. }
  destruct (demultiplexor_with _ qubits v1h v2h depth st) as [st1|e] eqn:E1;
    [|discriminate].
  cbn [Py.bind] in H.
  destruct (get_ucry_cz qubits _ st1) as [st2|e] eqn:E2; [|discriminate].
  cbn [Py.bind] in H.
  destruct (demultiplexor_with _ qubits u1 _ depth st2) as [st3|e] eqn:E3;
    [|discriminate].
  cbn [Py.bind] in H.
  destruct (Nat.eqb_spec depth 0) as [E0|_]; [lia|]. injection H as <-.
  destruct (demultiplexor_with_log _ _ _ _ _ _ _ Hrec E1)
    as [t1 [gsW1 [gsE1 [s1 [_ [_ [_ [_ Hc1]]]]]]]].
  destruct (get_ucry_cz_appends _ _ _ _ E2) as [gs2 ->].
  destruct (demultiplexor_with_log _ _ _ _ _ _ _ Hrec E3)
    as [t3 [gsW3 [gsE3 [s3 [_ [_ [_ [_ Hc3]]]]]]]].
  eexists. rewrite Hc3. cbn [emit_all circuit]. rewrite Hc1.
  rewrite !extend_extend. reflexivity.
Qed.

(** C8.  With fewer than two recorded leaf blocks the A.2 post-pass
    returns at once: the state after the call, circuit log included, is
    the state before it. *)
Theorem a2_fewer_than_two_blocks (data : Matrix) (st : state) :
  length (a2_qsd_blocks st) < 2 ->
  apply_a2_optimization data st = Ok st.
Proof.
  intros H. unfold apply_a2_optimization.
  destruct (Nat.ltb_spec (length (a2_qsd_blocks st)) 2) as [_|Hge]; [reflexivity|lia].
Qed.

(** The eigen-decomposition step of [demultiplexor], branch by branch. *)
Lemma eigen_pair (u : Matrix) :
  (if is_hermitian_matrix u
   then let '(w, v) := eigh u in (map (fun x => (x, 0%R)) w, v)
   else let '(t, z) := schur u in (diagonal t, z))
  = (if is_hermitian_matrix u
     then map (fun x => (x, 0%R)) (fst (eigh u))
     else diagonal (fst (schur u)),
     if is_hermitian_matrix u then snd (eigh u) else snd (schur u)).
Proof.
  destruct (is_hermitian_matrix u).
  - now destruct (eigh u).
  - now destruct (schur u).
Qed.

(** C4.  [demultiplexor] computes the eigenvalues [d] and eigenvectors
    [E] of [U1 U2^H] (by [eigh] when that product passes the Hermitian
    test, otherwise as the diagonal and the unitary factor of the complex
    Schur form), forms [W = diag(sqrt d) E^H U2], and then runs, in this
    order, the recursion for [W] on the inner qubits (all but the last),
    one UCRZ with angles [2 arg (conj (sqrt d_i))] whose controls are the
    inner qubits and whose target is the last qubit, and the recursion
    for [E] on the inner qubits.  When it returns, the log is the log
    before the call followed by the gates of [W], that UCRZ and the gates
    of [E]. *)
Theorem demultiplexor_emits (fuel : nat) (data : Matrix)
    (demux_qubits : list nat) (U1 U2 : Matrix) (depth : nat) (st : state) :
  let u := matmul U1 (conj_transpose U2) in
  let d := if is_hermitian_matrix u
           then map (fun x => (x, 0%R)) (fst (eigh u))
           else diagonal (fst (schur u)) in
  let E := if is_hermitian_matrix u then snd (eigh u) else snd (schur u) in
  let sq := map emath_sqrt d in
  let W := matmul (matmul (diag sq) (conj_transpose E)) U2 in
  let inner := Py.but_last demux_qubits in
  let angles := map (fun z => (2 * OneQubit.angle (Cconj z))%R) sq in
  demultiplexor fuel data demux_qubits U1 U2 depth st
  = (st1 <- quantum_shannon_decomposition fuel data inner W (depth + 1) st ;;
     target <- Py.last_item demux_qubits ;;
     quantum_shannon_decomposition fuel data inner E (depth + 1)
       (emit (UCRZ angles inner target) st1))
  /\ (forall st',
        demultiplexor fuel data demux_qubits U1 U2 depth st = Ok st' ->
        exists target gsW gsE st1,
          Py.last_item demux_qubits = Ok target /\
          quantum_shannon_decomposition fuel data inner W (depth + 1) st
          = Ok st1 /\
          circuit st1 = extend gsW (circuit st) /\
          quantum_shannon_decomposition fuel data inner E (depth + 1)
            (emit (UCRZ angles inner target) st1) = Ok st' /\
          circuit_log (circuit st')
          = circuit_log (circuit st)
            ++ gsW ++ [UCRZ angles inner target] ++ gsE).
Proof.
  intros u d E sq W inner angles. split.
  - unfold demultiplexor, demultiplexor_with. fold u.
    rewrite (eigen_pair u). reflexivity.
  - intros st' H. unfold demultiplexor in H.
    assert (Hd : 1 <= depth + 1) by lia.
    destruct (demultiplexor_with_log _ _ _ _ _ _ _
                (fun q V s s' Hs =>
                   qsd_appends fuel data q V (depth + 1) s s' Hd Hs)
                H)
      as [target [gsW [gsE [st1 [Ht [H1 [Hc1 [H2 Hc]]]]]]]].
    exists target, gsW, gsE, st1. repeat split; try assumption.
    fold u d E sq W inner angles in Hc. rewrite Hc. reflexivity.
Qed.

Lemma negate_columns_from_entry (h : nat) (M : Matrix) (i j : nat) :
  i < length M -> j < length (nth i M []) ->
  entry (negate_columns_from h M) i j
  = if j <? h then entry M i j else Cneg (entry M i j).
Proof.
  intros Hi Hj. unfold negate_columns_from, entry.
  rewrite (nth_indep _ [] (firstn h [] ++ map Cneg (skipn h [])))
    by (now rewrite length_map).
  rewrite (map_nth (fun row => firstn h row ++ map Cneg (skipn h row)) M [] i).
  set (row := nth i M []) in *.
  destruct (Nat.ltb_spec j h) as [Hlt|Hge].
  - rewrite app_nth1 by (rewrite length_firstn; lia).
    rewrite <- (firstn_skipn h row) at 2.
    now rewrite app_nth1 by (rewrite length_firstn; lia).
  - rewrite app_nth2 by (rewrite length_firstn; lia).
    rewrite length_firstn, Nat.min_l by lia.
    rewrite (nth_indep _ C0 (Cneg C0)) by (rewrite length_map, length_skipn; lia).
    rewrite map_nth. f_equal.
    rewrite <- (firstn_skipn h row) at 2.
    rewrite app_nth2 by (rewrite length_firstn; lia).
    now rewrite length_firstn, Nat.min_l by lia.
Qed.

Lemma count_cz_items (c : nat -> nat) (controls : list nat) (target N : nat)
    (l : list R) :
  forall s,
    length
      (filter is_cz
         (flat_map (step_gates c N controls target)
            (combine (seq s (length l)) l)))
    = Nat.min (s + length l) (N - 1) - Nat.min s (N - 1).
Proof.
  induction l as [|a l IH]; intros s.
  - cbn. rewrite Nat.add_0_r. lia.
  - cbn [length seq combine flat_map]. unfold step_gates at 1. cbn [fst snd].
    rewrite !filter_app, !length_app, IH.
    destruct (exceeds_epsilon a); cbn [filter is_cz length];
      destruct (Nat.ltb_spec s (N - 1)); cbn [filter is_cz length]; lia.
Qed.



End Driver.

End DriverFacts.

(** ** The one-qubit closed form *)

Module OneQubitFacts.

Import OneQubit Shapes Inputs NpFacts UnitaryFacts Examples.

Local Open Scope R_scope.

Lemma atan2_zero_nonneg (x : R) : 0 <= x -> atan2 0 x = 0.
Proof.
  intros Hx. unfold atan2.
  destruct (Rlt_dec 0 x) as [Hpos|Hnpos].
  - unfold Rdiv. rewrite Rmult_0_l. apply atan_0.
  - destruct (Rlt_dec x 0) as [Hneg|_]; [lra|].
    destruct (Rlt_dec 0 0) as [H|_]; [lra|].
    destruct (Rlt_dec 0 0) as [H|_]; [lra|]. reflexivity.
Qed.


Lemma Cabs_nonneg (z : C) : 0 <= Cabs z.
Proof. unfold Cabs. apply sqrt_pos. Qed.

Lemma Cabs_real (x : R) : 0 <= x -> Cabs (x, 0) = x.
Proof.
  intros Hx. unfold Cabs. cbn [fst snd].
  replace (x * x + 0 * 0) with (x * x) by lra. now apply sqrt_square.
Qed.

Lemma angle_real_nonneg (x : R) : 0 <= x -> angle (x, 0) = 0.
Proof. intros Hx. unfold angle. cbn [fst snd]. now apply atan2_zero_nonneg. Qed.

Lemma pow_neg_half_one : pow_neg_half (1, 0) = (1, 0).
Proof.
  unfold pow_neg_half. rewrite Cabs_real, angle_real_nonneg by lra.
  rewrite sqrt_1, Rinv_1.
  replace (- 0 / 2) with 0 by lra. rewrite cos_0, sin_0.
  f_equal; lra.
Qed.

Lemma Int_part_IZR (z : Z) : Int_part (IZR z) = z.
Proof. symmetry. apply Int_part_spec. lra. Qed.

Lemma rint_IZR (z : Z) : rint (IZR z) = z.
Proof.
  unfold rint. rewrite Int_part_IZR.
  destruct (Rlt_dec (IZR z - IZR z) (1 / 2)) as [_|Hn]; [reflexivity|].
  exfalso. apply Hn. lra.
Qed.

Lemma rint_small (x : R) : 0 <= x < 1 / 2 -> rint x = 0%Z.
Proof.
  intros Hx. unfold rint.
  assert (E : Int_part x = 0%Z) by (symmetry; apply Int_part_spec; simpl; lra).
  rewrite E.
  destruct (Rlt_dec (x - 0) (1 / 2)) as [_|Hn]; [reflexivity|].
  exfalso. apply Hn. lra.
Qed.

Lemma pow10_pos (d : nat) : 0 < 10 ^ d.
Proof. apply pow_lt. lra. Qed.

(** Rounding leaves integers alone. *)
Lemma round_float_IZR (d : nat) (z : Z) : round_float d (IZR z) = IZR z.
Proof.
  unfold round_float.
  rewrite pow_IZR, <- mult_IZR, rint_IZR, mult_IZR, <- pow_IZR.
  pose proof (pow10_pos d). field. lra.
Qed.

(** Rounding to [d] decimals sends whatever is below [0.5 * 10^-d] to 0. *)
Lemma round_float_small (d : nat) (x : R) :
  0 <= x -> x * 10 ^ d < 1 / 2 -> round_float d x = 0.
Proof.
  intros H0 H1. unfold round_float. rewrite rint_small.
  - unfold Rdiv. apply Rmult_0_l.
  - split; [|exact H1]. apply Rmult_le_pos; [exact H0|].
    apply Rlt_le, pow10_pos.
Qed.

Lemma scale_one (U : Matrix) : scale (1, 0) U = U.
Proof.
  unfold scale. rewrite <- (map_id U) at 2. apply map_ext. intros row.
  rewrite <- (map_id row) at 2. apply map_ext. intros [x y].
  unfold Cmul. cbn [fst snd]. f_equal; lra.
Qed.

Lemma round_eye_2 : round 10 (eye 2) = eye 2.
Proof.
  cbn [round eye seq map Nat.eqb C0 C1 fst snd].
  unfold C1, C0. cbn [fst snd].
  rewrite (round_float_IZR 10 1), (round_float_IZR 10 0). reflexivity.
Qed.

Lemma det_eye_2 : det (eye 2) = (1, 0).
Proof. unfold det, entry. cbn. unfold Csub, Cmul, C0, C1. cbn [fst snd]. f_equal; lra. Qed.

(** On the identity all four parameters are zero. *)
Lemma params_zyz_eye_2 : params_zyz (eye 2) = (0, (0, 0, 0)).
Proof.
  unfold params_zyz. rewrite det_eye_2, pow_neg_half_one, scale_one, round_eye_2.
  change (entry (eye 2) 1 0) with (0, 0).
  change (entry (eye 2) 0 0) with (1, 0).
  change (entry (eye 2) 1 1) with (1, 0).
  rewrite !Cabs_real, !angle_real_nonneg, atan2_zero_nonneg by lra.
  repeat f_equal; lra.
Qed.

Lemma params_u3_eye_2 : params_u3 (eye 2) = (0, (0, 0, 0)).
Proof. unfold params_u3. rewrite params_zyz_eye_2. repeat f_equal; lra. Qed.

Lemma eye_2_unitary : is_unitary_matrix (eye 2) = true.
Proof.
  apply (is_unitary_matrix_exact 1); [square_concrete|].
  intros i j Hi Hj. cbn in Hi, Hj.
  destruct i as [|[|i]]; [| |lia];
    (destruct j as [|[|j]]; [| |lia]); gram_concrete.
Qed.

(** The one-qubit leaf on the identity: a U3 and a global phase, both
    with zero angles, and both appended. *)
Lemma apply_unitary_eye_2 (c : Circuit) (q : nat) :
  apply_unitary default c (Array (eye 2)) (Many [q])
  = Ok (extend [U3 [0; 0; 0] q; GlobalPhase 0] c).
Proof.
  unfold apply_unitary. cbn [as_list length Nat.eqb negb as_operator].
  unfold Operator_init. rewrite eye_2_unitary. cbn [Py.bind op_num_qubits data].
  change (int_log2 (shape0 (eye 2))) with 1%nat.
  cbn [Nat.eqb negb Py.index nth_error Py.bind].
  change (String.eqb (basis default) "zyz") with false.
  change (String.eqb (basis default) "u3") with true. cbv iota.
  rewrite params_u3_eye_2. now rewrite DriverFacts.append_append.
Qed.

End OneQubitFacts.

(** ** Polar form, and unitary arrays of side 2 *)

Module ZyzFacts.

Import OneQubit Zyz Shapes Inputs NpFacts UnitaryFacts Examples OneQubitFacts.

Local Open Scope R_scope.



Lemma cos2_sin2 (t : R) : cos t * cos t + sin t * sin t = 1.
Proof. pose proof (sin2_cos2 t) as H. unfold Rsqr in H. lra. Qed.


Lemma sqrt_one_plus_sq_pos (t : R) : 0 < sqrt (1 + t * t).
Proof. apply sqrt_lt_R0. nra. Qed.

Lemma sqrt_one_plus_sq_sq (t : R) :
  sqrt (1 + t * t) * sqrt (1 + t * t) = 1 + t * t.
Proof. apply sqrt_def. nra. Qed.

(** Every complex number is its modulus times the unit vector at its
    argument, whichever way the argument is taken on the negative real
    axis. *)
Lemma polar (z : C) :
  z = (Cabs z * cos (angle z), Cabs z * sin (angle z)).
Proof.
  destruct z as [x y]. unfold angle, atan2, Cabs. cbn [fst snd].
  destruct (Rlt_dec 0 x) as [Hpos|Hnpos].
  - set (t := y / x). pose proof (sqrt_one_plus_sq_pos t) as Hs.
    pose proof (sqrt_one_plus_sq_sq t) as Hss.
    assert (Hy : y = x * t) by (unfold t; field; lra).
    assert (Hr : sqrt (x * x + y * y) = x * sqrt (1 + t * t)).
    { apply sqrt_lem_1; [nra | nra |]. rewrite Hy. nra. }
    rewrite Hr, cos_atan, sin_atan. unfold Rsqr.
    f_equal; [field; lra | rewrite Hy at 1; field; lra].
  - destruct (Rlt_dec x 0) as [Hneg|Hnneg].
    + set (t := y / x). pose proof (sqrt_one_plus_sq_pos t) as Hs.
      pose proof (sqrt_one_plus_sq_sq t) as Hss.
      assert (Hy : y = x * t) by (unfold t; field; lra).
      assert (Hr : sqrt (x * x + y * y) = - x * sqrt (1 + t * t)).
      { apply sqrt_lem_1; [nra | nra |]. rewrite Hy. nra. }
      rewrite Hr.
      destruct (Rle_dec 0 y) as [_|_].
      * rewrite neg_cos, neg_sin, cos_atan, sin_atan. unfold Rsqr.
        f_equal; [field; lra | rewrite Hy at 1; field; lra].
      * replace (atan t - PI) with (- (PI - atan t)) by lra.
        rewrite cos_neg, sin_neg.
        replace (PI - atan t) with (- atan t + PI) by lra.
        rewrite neg_cos, neg_sin, cos_neg, sin_neg, cos_atan, sin_atan.
        unfold Rsqr.
        f_equal; [field; lra | rewrite Hy at 1; field; lra].
    + assert (Hx : x = 0) by lra. subst x.
      replace (0 * 0 + y * y) with (y * y) by ring.
      destruct (Rlt_dec 0 y) as [Hy|Hy].
      * rewrite sqrt_square by lra. rewrite cos_PI2, sin_PI2.
        f_equal; ring.
      * destruct (Rlt_dec y 0) as [Hy'|Hy'].
        -- replace (y * y) with ((- y) * (- y)) by ring.
           rewrite sqrt_square by lra.
           rewrite cos_neg, sin_neg, cos_PI2, sin_PI2. f_equal; ring.
        -- assert (Hy0 : y = 0) by lra. subst y.
           rewrite Rmult_0_l, sqrt_0, cos_0, sin_0. f_equal; ring.
Qed.




Lemma Cabs_of_norm (z : C) :
  fst z * fst z + snd z * snd z = 1 -> Cabs z = 1.
Proof. intros H. unfold Cabs. rewrite H. apply sqrt_1. Qed.



Lemma square_2_inv (U : Matrix) :
  square 2 U -> exists a b c d : C, U = [[a; b]; [c; d]].
Proof.
  intros [Hlen Hrows].
  destruct U as [|r0 [|r1 [|r2 U]]]; cbn in Hlen; try lia.
  inversion Hrows as [|? ? H0 Hrows']; subst.
  inversion Hrows' as [|? ? H1 _]; subst.
  destruct r0 as [|a [|b [|x r0]]]; cbn in H0; try lia.
  destruct r1 as [|c [|d [|x r1]]]; cbn in H1; try lia.
  now exists a, b, c, d.
Qed.


(** What [U U^H = I] gives for an array of side 2 with determinant [D]:
    [|D| = 1], the second column is [D] times the conjugate of the
    first, crossed, and the first column has norm one. *)
Lemma unitary2_algebra (a b c d : C) :
  exactly_unitary [[a; b]; [c; d]] ->
  let D := det [[a; b]; [c; d]] in
  fst D * fst D + snd D * snd D = 1
  /\ d = Cmul D (Cconj a)
  /\ b = Cneg (Cmul D (Cconj c))
  /\ fst a * fst a + snd a * snd a + (fst c * fst c + snd c * snd c) = 1.
Proof.
  intros [_ Hg] D.
  pose proof (Hg 0%nat 0%nat ltac:(lia) ltac:(lia)) as H00.
  pose proof (Hg 1%nat 1%nat ltac:(lia) ltac:(lia)) as H11.
  pose proof (Hg 0%nat 1%nat ltac:(lia) ltac:(lia)) as H01.
  unfold gram, entry, identity_entry in H00, H11, H01.
  cbn [seq map nth Csum fold_right Nat.eqb] in H00, H11, H01.
  unfold D, det, entry. cbn [nth].
  destruct a as [a1 a2], b as [b1 b2], c as [c1 c2], d as [d1 d2].
  unfold Cadd, Cmul, Cconj, Csub, Cneg, C0, C1 in *. cbn [fst snd] in *.
  injection H00 as H00 _. injection H11 as H11 _. injection H01 as H01r H01i.
  assert (HN : a1 * a1 + a2 * a2 + b1 * b1 + b2 * b2 = 1) by lra.
  assert (HM : c1 * c1 + c2 * c2 + d1 * d1 + d2 * d2 = 1) by lra.
  assert (HR : a1 * c1 + a2 * c2 + b1 * d1 + b2 * d2 = 0) by lra.
  assert (HI : a2 * c1 - a1 * c2 + b2 * d1 - b1 * d2 = 0) by lra.
  clear H00 H11 H01r H01i.
  set (D1 := a1 * d1 - a2 * d2 - (b1 * c1 - b2 * c2)).
  set (D2 := a1 * d2 + a2 * d1 - (b1 * c2 + b2 * c1)).
  assert (HD : D1 * D1 + D2 * D2 = 1).
  { replace (D1 * D1 + D2 * D2)
      with ((a1 * a1 + a2 * a2 + b1 * b1 + b2 * b2)
            * (c1 * c1 + c2 * c2 + d1 * d1 + d2 * d2)
            - ((a1 * c1 + a2 * c2 + b1 * d1 + b2 * d2)
               * (a1 * c1 + a2 * c2 + b1 * d1 + b2 * d2)
               + (a2 * c1 - a1 * c2 + b2 * d1 - b1 * d2)
                 * (a2 * c1 - a1 * c2 + b2 * d1 - b1 * d2)))
      by (unfold D1, D2; ring).
    rewrite HN, HM, HR, HI. ring. }
  assert (Hd1 : d1 = D1 * a1 - D2 * - a2).
  { replace (D1 * a1 - D2 * - a2)
      with (d1 + (a1 * a1 + a2 * a2 + b1 * b1 + b2 * b2 - 1) * d1
            - (b1 * (a1 * c1 + a2 * c2 + b1 * d1 + b2 * d2)
               + b2 * (a2 * c1 - a1 * c2 + b2 * d1 - b1 * d2)))
      by (unfold D1, D2; ring).
    rewrite HN, HR, HI. ring. }
  assert (Hd2 : d2 = D1 * - a2 + D2 * a1).
  { replace (D1 * - a2 + D2 * a1)
      with (d2 + (a1 * a1 + a2 * a2 + b1 * b1 + b2 * b2 - 1) * d2
            - (b2 * (a1 * c1 + a2 * c2 + b1 * d1 + b2 * d2)
               - b1 * (a2 * c1 - a1 * c2 + b2 * d1 - b1 * d2)))
      by (unfold D1, D2; ring).
    rewrite HN, HR, HI. ring. }
  assert (Hb1 : b1 = - (D1 * c1 - D2 * - c2)).
  { replace (- (D1 * c1 - D2 * - c2))
      with (b1 - (d1 * (a1 * c1 + a2 * c2 + b1 * d1 + b2 * d2)
                  - d2 * (a2 * c1 - a1 * c2 + b2 * d1 - b1 * d2))
            - b1 * (1 - (c1 * c1 + c2 * c2 + d1 * d1 + d2 * d2)))
      by (unfold D1, D2; ring).
    rewrite HM, HR, HI. ring. }
  assert (Hb2 : b2 = - (D1 * - c2 + D2 * c1)).
  { replace (- (D1 * - c2 + D2 * c1))
      with (b2 - (d1 * (a2 * c1 - a1 * c2 + b2 * d1 - b1 * d2)
                  + d2 * (a1 * c1 + a2 * c2 + b1 * d1 + b2 * d2))
            - b2 * (1 - (c1 * c1 + c2 * c2 + d1 * d1 + d2 * d2)))
      by (unfold D1, D2; ring).
    rewrite HM, HR, HI. ring. }
  split; [exact HD|]. split; [f_equal; assumption|].
  split; [f_equal; assumption|].
  assert (Hbb : b1 * b1 + b2 * b2 = (D1 * D1 + D2 * D2) * (c1 * c1 + c2 * c2)).
  { rewrite Hb1 at 1 2. rewrite Hb2 at 1 2. ring. }
  rewrite HD in Hbb. lra.
Qed.




Lemma Cnorm_mul_Cexp (t : R) (z : C) :
  fst (Cmul (Cexp t) z) * fst (Cmul (Cexp t) z)
  + snd (Cmul (Cexp t) z) * snd (Cmul (Cexp t) z)
  = fst z * fst z + snd z * snd z.
Proof.
  unfold Cmul, Cexp. cbn [fst snd]. pose proof (cos2_sin2 t) as H.
  replace ((cos t * fst z - sin t * snd z) * (cos t * fst z - sin t * snd z)
           + (cos t * snd z + sin t * fst z) * (cos t * snd z + sin t * fst z))
    with ((cos t * cos t + sin t * sin t) * (fst z * fst z + snd z * snd z))
    by ring.
  rewrite H. ring.
Qed.

Lemma pow_neg_half_unit (D : C) :
  fst D * fst D + snd D * snd D = 1 ->
  pow_neg_half D = Cexp (- angle D / 2).
Proof.
  intros HD. unfold pow_neg_half.
  rewrite (Cabs_of_norm D HD), sqrt_1, Rinv_1. unfold Cexp. f_equal; ring.
Qed.


Lemma exactly_unitary_pauli_x : exactly_unitary pauli_x.
Proof.
  split; [square_concrete|].
  intros i j Hi Hj.
  destruct i as [|[|i]]; [| |lia];
    (destruct j as [|[|j]]; [| |lia]); gram_concrete.
Qed.





End ZyzFacts.

Module OneQubitClaims.

Import OneQubit Zyz Shapes Inputs NpFacts UnitaryFacts Examples OneQubitFacts.
Import ZyzFacts.

Local Open Scope R_scope.



Lemma rot_norm : rot_cos * rot_cos + rot_sin * rot_sin = 1.
Proof. unfold rot_cos, rot_sin, tiny. field; lra. Qed.


Lemma rot_sin_pos : 0 < rot_sin.
Proof. unfold rot_sin, tiny. apply Rdiv_lt_0_compat; lra. Qed.

Lemma rot_sin_rounds_to_zero : round_float 10 rot_sin = 0.
Proof.
  apply round_float_small; [apply Rlt_le, rot_sin_pos|].
  unfold rot_sin.
  assert (H : 0 < 1 + tiny * tiny) by (unfold tiny; lra).
  apply (Rmult_lt_reg_r (1 + tiny * tiny)); [exact H|].
  replace (2 * tiny / (1 + tiny * tiny) * 10 ^ 10 * (1 + tiny * tiny))
    with (2 * tiny * 10 ^ 10) by (field; lra).
  unfold tiny. lra.
Qed.


Lemma det_small_rotation : det small_rotation = (1, 0).
Proof.
  pose proof rot_norm as Hn.
  unfold det, entry. cbn. unfold Csub, Cmul. cbn [fst snd]. f_equal; nra.
Qed.


(** On the same rotation the values returned do not decompose the
    array either: with [theta = 0] the product of the three rotations is
    diagonal, and the rotation is not. *)
Lemma params_zyz_not_a_decomposition :
  let p := params_zyz small_rotation in
  exactly_unitary small_rotation
  /\ zyz_matrix (fst p) (fst (fst (snd p))) (snd (fst (snd p)))
       (snd (snd p))
     <> small_rotation.
Proof.
  intros p. split.
  - pose proof rot_norm as Hn. split; [square_concrete|].
    intros i j Hi Hj.
    destruct i as [|[|i]]; [| |lia];
      (destruct j as [|[|j]]; [| |lia]);
      unfold Shapes.gram, entry, identity_entry; cbn;
      unfold Cadd, Cmul, Cconj, C0, C1; cbn [fst snd]; f_equal; nra.
  - assert (Hth : fst (fst (snd p)) = 0).
    { unfold p, params_zyz. cbn [fst snd].
      rewrite det_small_rotation, pow_neg_half_one, scale_one.
      change (entry (round 10 small_rotation) 1 0)
        with (round_float 10 rot_sin, round_float 10 0).
      rewrite rot_sin_rounds_to_zero, (round_float_IZR 10 0).
      rewrite (Cabs_real 0) by lra.
      rewrite atan2_zero_nonneg by apply Cabs_nonneg. ring. }
    rewrite Hth. intros H.
    apply (f_equal (fun M => fst (entry M 1 0))) in H.
    unfold zyz_matrix, scale, matmul, Rz, Ry, shape0, shape1, entry in H.
    cbn [hd length seq map nth Csum fold_right small_rotation] in H.
    replace (0 / 2) with 0 in H by field. rewrite sin_0, cos_0 in H.
    unfold Cadd, Cmul, Cexp, C0 in H. cbn [fst snd] in H.
    pose proof rot_sin_pos as Hpos.
    ring_simplify in H. lra.
Qed.

End OneQubitClaims.

(** ** Synthesis of the identity, and the driver on concrete inputs *)

Module DriverClaims.

Import Shannon Kernel Bits BinFacts KernelFacts DriverFacts OneQubitFacts.
Import UnitaryFacts Examples ControlFacts.

Local Open Scope R_scope.

Lemma filter_ltb_seq (N n s : nat) :
  filter (fun i => i <? N)%nat (seq s n) = seq s (Nat.min n (N - s)).
Proof.
  revert s; induction n as [|n IH]; intros s; [reflexivity|].
  cbn [seq filter]. rewrite IH.
  destruct (Nat.ltb_spec s N) as [Hlt|Hge].
  - replace (Nat.min (S n) (N - s)) with (S (Nat.min n (N - S s))) by lia.
    reflexivity.
  - replace (Nat.min n (N - S s)) with 0%nat by lia.
    replace (Nat.min (S n) (N - s)) with 0%nat by lia. reflexivity.
Qed.

Lemma suppressed_items (c : nat -> nat) (controls : list nat) (target N : nat)
    (l : list R) :
  Forall (fun a => exceeds_epsilon a = false) l ->
  forall s,
    flat_map (step_gates c N controls target) (combine (seq s (length l)) l)
    = map (fun i => CZ (nth (c i) controls 0%nat) target)
          (filter (fun i => i <? N - 1)%nat (seq s (length l))).
Proof.
  induction 1 as [|a l Ha _ IH]; intros s; [reflexivity|].
  cbn [length seq combine flat_map filter]. unfold step_gates at 1.
  cbn [fst snd]. rewrite Ha, IH.
  destruct (s <? N - 1)%nat; reflexivity.
Qed.

(** When every transformed angle is within the threshold, the kernel
    appends the entanglers and nothing else. *)
Lemma ucry_cz_gates_suppressed (c : nat -> nat) (controls : list nat)
    (target : nat) (angles' : list R) :
  Forall (fun a => exceeds_epsilon a = false) angles' ->
  ucry_cz_gates c controls target angles'
  = map (fun i => CZ (nth (c i) controls 0%nat) target)
        (seq 0 (length angles' - 1)).
Proof.
  intros Hall. unfold ucry_cz_gates, enumerate.
  rewrite suppressed_items by assumption.
  rewrite filter_ltb_seq. do 2 f_equal. lia.
Qed.

Section Identity.

Context {B : Backend}.

(** The driver on the one-qubit identity. *)
Lemma shannon_eye_2 (fuel : nat) (c : Circuit) (q : nat) :
  Shannon.apply_unitary (S fuel) c (Array (eye 2)) (Single q)
  = Ok (extend [U3 [0; 0; 0] q; GlobalPhase 0] c).
Proof.
  unfold Shannon.apply_unitary. cbn [as_operator as_list].
  unfold Operator_init. rewrite eye_2_unitary.
  cbn [Py.bind op_num_qubits data length].
  change (int_log2 (shape0 (eye 2))) with 1%nat. cbn [Nat.eqb negb].
  cbn [quantum_shannon_decomposition].
  change (shape0 (eye 2) =? 2)%nat with true. cbv iota.
  unfold lift_circuit. cbn [Shannon.circuit].
  rewrite apply_unitary_eye_2. reflexivity.
Qed.

(** C7, as the code has it.  Synthesizing the one-qubit identity appends
    exactly two gates, [U3(0, 0, 0)] and [GlobalPhase(0)]: their angles
    are zero, and they are appended all the same.  The threshold
    [1e-10] guards only the RY rotations of the central block: when all
    its transformed angles are within the threshold, as they are for
    zero angles, [get_ucry_cz] appends no rotation and still appends its
    [2 ^ k - 1] CZ entanglers. *)
Theorem identity_synthesis (fuel : nat) (c : Circuit) (q : nat)
    (k : nat) (controls : list nat) (target : nat) (angles : list R)
    (st : state) :
  Shannon.apply_unitary (S fuel) c (Array (eye 2)) (Single q)
  = Ok (extend [U3 [0; 0; 0] q; GlobalPhase 0] c)
  /\ ((1 <= k)%nat -> length controls = k -> length angles = (2 ^ k)%nat ->
      length (decompose_uc_rotations angles 0 (length angles) false)
      = (2 ^ k)%nat ->
      Forall (fun a => exceeds_epsilon a = false)
        (decompose_uc_rotations angles 0 (length angles) false) ->
      get_ucry_cz (controls ++ [target]) angles st
      = Ok (emit_all
              (map (fun i => CZ (nth (c_code i) controls 0%nat) target)
                   (seq 0 (2 ^ k - 1)))
              st)).
Proof.
  split; [apply shannon_eye_2|].
  intros Hk Hc Ha Hd Hall.
  rewrite (get_ucry_cz_log k) by assumption.
  rewrite ucry_cz_gates_suppressed by assumption.
  now rewrite Hd.
Qed.

End Identity.

Lemma exceeds_epsilon_zero (x : R) : x = 0 -> exceeds_epsilon x = false.
Proof.
  intros ->. unfold exceeds_epsilon, EPSILON. rewrite Rabs_R0.
  destruct (Rlt_dec 1e-10 0) as [H|_]; [lra|reflexivity].
Qed.

Lemma identity_synthesis_witness :
  Shannon.apply_unitary (B := TestBackend.backend) 1 (Circ.new 1)
    (Array (eye 2)) (Single 0%nat)
  = Ok (extend [U3 [0; 0; 0] 0%nat; GlobalPhase 0] (Circ.new 1))
  /\ get_ucry_cz (B := TestBackend.backend) ([0; 1] ++ [2])%nat [0; 0; 0; 0]
       (Inputs.empty_state 3)
     = Ok (emit_all [CZ 0 2; CZ 1 2; CZ 0 2] (Inputs.empty_state 3)).
Proof.
  destruct (identity_synthesis (B := TestBackend.backend) 0 (Circ.new 1) 0%nat
              2 [0; 1]%nat 2%nat [0; 0; 0; 0] (Inputs.empty_state 3))
    as [H1 H2].
  split; [exact H1|].
  apply H2; [lia | reflexivity | reflexivity | reflexivity |].
  cbn [length decompose_uc_rotations TestBackend.backend].
  cbn [TestBackend.half_butterfly Nat.sub Nat.div Nat.divmod fst Nat.eqb
       Nat.add seq fold_left nth Py.set_nth].
  repeat (constructor; [apply exceeds_epsilon_zero; lra|]). constructor.
Defined.

(** C7, as stated, fails already for one qubit: the log is not empty
    after the identity has been synthesized into an empty circuit. *)
Lemma identity_synthesis_not_empty :
  exists c,
    Shannon.apply_unitary (B := TestBackend.backend) 1 (Circ.new 1)
      (Array (eye 2)) (Single 0%nat) = Ok c
    /\ circuit_log c = [U3 [0; 0; 0] 0%nat; GlobalPhase 0]
    /\ circuit_log c <> circuit_log (Circ.new 1).
Proof.
  eexists. split; [apply (shannon_eye_2 (B := TestBackend.backend))|].
  split; [reflexivity|]. discriminate.
Qed.

(** ** Runs of the driver that the theorems above are applied to *)

Lemma a2_fewer_than_two_blocks_witness :
  apply_a2_optimization (B := TestBackend.backend) (eye 4)
    {| circuit := {| num_qubits := 2; circuit_log := [CX 0 1] |};
       a2_qsd_blocks := [(0, 1)]%nat |}
  = Ok {| circuit := {| num_qubits := 2; circuit_log := [CX 0 1] |};
          a2_qsd_blocks := [(0, 1)]%nat |}.
Proof.
  apply (a2_fewer_than_two_blocks (B := TestBackend.backend)). cbn. lia.
Defined.


Lemma emath_sqrt_one : emath_sqrt (1, 0) = (1, 0).
Proof.
  unfold emath_sqrt. rewrite Cabs_real, angle_real_nonneg by lra.
  rewrite sqrt_1. replace (0 / 2) with 0 by lra. rewrite cos_0, sin_0.
  f_equal; lra.
Qed.

Lemma gram_eye_2 : matmul (eye 2) (conj_transpose (eye 2)) = eye 2.
Proof. vm_compute. matrix_eq. Qed.

Lemma w_eye_2 :
  matmul (matmul (diag [(1, 0); (1, 0)]) (conj_transpose (eye 2))) (eye 2)
  = eye 2.
Proof. vm_compute. matrix_eq. Qed.

(** The demultiplexor of two one-qubit identities, run to the end. *)
Lemma demultiplexor_eye_2 (st : state) :
  demultiplexor (B := TestBackend.backend) 1 (eye 4) [0; 1]%nat
    (eye 2) (eye 2) 0 st
  = Ok (emit_all
          ([U3 [0; 0; 0] 0%nat; GlobalPhase 0]
           ++ [UCRZ [2 * OneQubit.angle (Cconj (1, 0));
                     2 * OneQubit.angle (Cconj (1, 0))] [0%nat] 1%nat]
           ++ [U3 [0; 0; 0] 0%nat; GlobalPhase 0])
          st).
Proof.
  unfold demultiplexor, demultiplexor_with.
  rewrite gram_eye_2.
  cbn [is_hermitian_matrix eigh schur TestBackend.backend].
  assert (Hpair :
    (if TestBackend.hermitian_within (eye 2)
     then let '(w, v) := TestBackend.eigh_diagonal (eye 2) in
          (map (fun x : R => (x, 0)) w, v)
     else let '(t, z) := TestBackend.schur_triangular (eye 2) in
          (diagonal t, z)) = ([(1, 0); (1, 0)], eye 2)).
  { destruct (TestBackend.hermitian_within (eye 2)); reflexivity. }
  rewrite Hpair. cbn [map]. rewrite emath_sqrt_one.
  unfold C. rewrite w_eye_2.
  cbn [Py.but_last removelast Py.last_item rev app Nat.add].
  cbn [quantum_shannon_decomposition].
  change (shape0 (eye 2) =? 2)%nat with true. cbv iota.
  unfold lift_circuit. rewrite apply_unitary_eye_2. cbn [Py.bind].
  cbn [emit Shannon.circuit a2_qsd_blocks].
  rewrite apply_unitary_eye_2. cbn [Py.bind]. f_equal.
  unfold emit_all. f_equal.
  change (append ?g ?c) with (extend [g] c).
  now rewrite !extend_extend.
Qed.

Lemma demultiplexor_emits_witness :
  exists target gsW gsE angles st',
    Py.last_item [0; 1]%nat = Ok target /\
    demultiplexor (B := TestBackend.backend) 1 (eye 4) [0; 1]%nat
      (eye 2) (eye 2) 0 (Inputs.empty_state 2) = Ok st' /\
    circuit_log (circuit st')
    = circuit_log (circuit (Inputs.empty_state 2))
      ++ gsW ++ [UCRZ angles (Py.but_last [0; 1]%nat) target] ++ gsE.
Proof.
  destruct (demultiplexor_emits (B := TestBackend.backend) 1 (eye 4)
              [0; 1]%nat (eye 2) (eye 2) 0 (Inputs.empty_state 2))
    as [_ Hlog].
  destruct (Hlog _ (demultiplexor_eye_2 (Inputs.empty_state 2)))
    as [target [gsW [gsE [st1 [Ht [_ [_ [_ Hl]]]]]]]].
  exists target, gsW, gsE. eexists. eexists.
  split; [exact Ht|]. split; [apply demultiplexor_eye_2 | exact Hl].
Defined.

End DriverClaims.

(* ================================================================== *)
(** * Part III: further properties of the same code *)
(* ================================================================== *)

(** ** [Gate]: constructor, [control], [change_mapping], [adjoint] *)

Module GateExtras.

Import GateMatrix Bits BinFacts Shapes Inputs NpFacts GateFacts UnitaryFacts.
Import Examples ControlFacts MappingFacts.

Lemma init_inversion (nm : string) (m : Matrix) (g : Gate) :
  init nm m = Ok g ->
  g = {| name := nm; matrix := m; num_qubits := Nat.log2 (length m);
         ordering := "MSB" |}
  /\ is_unitary_matrix m = true.
Proof.
  unfold init. destruct (is_unitary_matrix m); [|discriminate].
  cbn [negb]. intros H. injection H as <-. split; reflexivity.
Qed.

(** X1.  [control] rejects every count of controls other than the number
    of qubits of the gate: a count below 1 by its own test, any other
    count because numpy cannot add the identity block of side
    [2^(k+1)] to the gate block of side [2^(n+1)].  Both are
    [ValueError]. *)
Theorem control_rejects (g : Gate) (n : nat) (k : Z) :
  square (2 ^ n) (matrix g) ->
  ((k < 1)%Z ->
   control g k
   = Raise (ValueError "The number of control qubits must be greater than 0."))
  /\ ((1 <= k)%Z -> Z.to_nat k <> n ->
      control g k
      = Raise (ValueError "operands could not be broadcast together")).
Proof.
  intros Hsq. split.
  - intros Hk. unfold control.
    destruct (Z.ltb_spec k 1) as [_|H]; [reflexivity|lia].
  - intros Hk Hne. now apply (control_mismatch g n k).
Qed.

Lemma control_rejects_witness :
  control x_gate 0
  = Raise (ValueError "The number of control qubits must be greater than 0.")
  /\ control x_gate 3
     = Raise (ValueError "operands could not be broadcast together").
Proof.
  destruct (control_rejects x_gate 1 0) as [H0 _]; [square_concrete|].
  destruct (control_rejects x_gate 1 3) as [_ H3]; [square_concrete|].
  split; [apply H0; lia | apply H3; [lia | discriminate]].
Defined.

(** X2.  With as many controls as the gate has qubits ([n >= 1]),
    [control] succeeds and returns a gate named ["C-" + name], in the
    ordering MSB, on [n + 1] qubits, whose matrix has side [2^(n+1)],
    is [|0><0| (x) I + |1><1| (x) U] entry for entry, and is unitary:
    one control is added, whatever the count asked for. *)
Theorem control_accepts (g : Gate) (n : nat) :
  (1 <= n)%nat -> is_unitary_matrix (matrix g) = true ->
  length (matrix g) = (2 ^ n)%nat ->
  exists g',
    control g (Z.of_nat n) = Ok g'
    /\ name g' = String.append "C-" (name g)
    /\ ordering g' = "MSB"
    /\ num_qubits g' = S n
    /\ length (matrix g') = (2 ^ S n)%nat
    /\ (forall a b, (a < 2 ^ S n)%nat -> (b < 2 ^ S n)%nat ->
          entry (matrix g') a b = controlled_entry (2 ^ n) (matrix g) a b)
    /\ is_unitary_matrix (matrix g') = true.
Proof.
  intros Hn HU Hlen.
  destruct (control_matching g n Hn HU Hlen)
    as [g' [Hc [Hname [Hord [Hsq [Hent HU']]]]]].
  exists g'. repeat (split; [assumption|]).
  assert (Hl : length (matrix g') = (2 ^ S n)%nat) by (destruct Hsq; assumption).
  split; [|split; [exact Hl|split; assumption]].
  unfold control in Hc. destruct (Z.of_nat n <? 1)%Z; [discriminate|].
  destruct (Np.add _ _) as [cm|e]; [|discriminate]. cbn [Py.bind] in Hc.
  apply init_inversion in Hc. destruct Hc as [-> _].
  cbn [num_qubits matrix] in *. rewrite Hl. apply Nat.log2_pow2. lia.
Qed.

Lemma control_accepts_witness :
  exists g',
    control x_gate (Z.of_nat 1) = Ok g'
    /\ num_qubits g' = 2%nat
    /\ length (matrix g') = 4%nat
    /\ is_unitary_matrix (matrix g') = true.
Proof.
  destruct (control_accepts x_gate 1) as [g' [Hc [_ [_ [Hq [Hl [_ HU]]]]]]];
    [lia | exact pauli_x_unitary | reflexivity |].
  exists g'. repeat split; assumption.
Defined.

(** X3.  The attribute [num_qubits] is the binary logarithm of the side
    of the matrix: the constructor establishes [side = 2^num_qubits]
    (with the given name and the ordering MSB), and every gate that
    [control] or [change_mapping] returns from a gate with that property
    has it too. *)
Theorem num_qubits_is_log_of_side (nm : string) (m : Matrix) (g g0 : Gate) :
  (init nm m = Ok g0 ->
   name g0 = nm /\ ordering g0 = "MSB" /\ matrix g0 = m /\
   length (matrix g0) = 2 ^ num_qubits g0)
  /\ (forall k g', control g k = Ok g' ->
        length (matrix g') = 2 ^ num_qubits g')
  /\ (is_unitary_matrix (matrix g) = true ->
      length (matrix g) = 2 ^ num_qubits g ->
      forall o g', change_mapping g o = Ok g' ->
        length (matrix g') = 2 ^ num_qubits g' /\ name g' = name g).
Proof.
  assert (Hinit : forall nm' m' g1, init nm' m' = Ok g1 ->
            name g1 = nm' /\ ordering g1 = "MSB" /\ matrix g1 = m' /\
            length (matrix g1) = 2 ^ num_qubits g1).
  { intros nm' m' g1 H. apply init_inversion in H. destruct H as [-> HU].
    cbn [name ordering matrix num_qubits]. repeat split.
    apply (unitary_square _ HU). }
  split; [apply Hinit|split].
  - intros k g' H. unfold control in H.
    destruct (k <? 1)%Z; [discriminate|].
    destruct (Np.add _ _) as [cm|e]; [|discriminate]. cbn [Py.bind] in H.
    now apply Hinit in H.
  - intros HU Hlen o g' H. rewrite (change_mapping_unitary g o HU) in H.
    destruct (negb (existsb (String.eqb o) ["MSB"; "LSB"])); [discriminate|].
    destruct (String.eqb o (ordering g)); injection H as <-; [now split|].
    cbn [matrix num_qubits name]. split; [|reflexivity].
    destruct (permuted_square (Nat.log2 (length (matrix g))) (matrix g)) as [H _].
    rewrite H. destruct (unitary_square _ HU) as [_ <-]. exact Hlen.
Qed.

Lemma num_qubits_is_log_of_side_witness :
  (exists g0, init "CX" cx_matrix = Ok g0 /\ length (matrix g0) = 2 ^ num_qubits g0)
  /\ (exists g', change_mapping cx_gate "LSB" = Ok g'
                 /\ length (matrix g') = 2 ^ num_qubits g').
Proof.
  destruct (num_qubits_is_log_of_side "CX" cx_matrix cx_gate cx_gate)
    as [Hinit [_ Hcm]].
  split.
  - exists cx_gate. split; [exact init_cx_gate|].
    apply (Hinit init_cx_gate).
  - eexists. split.
    + rewrite (change_mapping_unitary cx_gate "LSB" cx_matrix_unitary).
      reflexivity.
    + eapply (proj1 (Hcm cx_matrix_unitary eq_refl "LSB" _ _)).
  Unshelve.
  rewrite (change_mapping_unitary cx_gate "LSB" cx_matrix_unitary). reflexivity.
Defined.

(** X4.  On a gate that holds a unitary matrix, [change_mapping] to the
    other ordering succeeds; the gate it returns has the new ordering,
    the same name and number of qubits, a matrix of the same side, and
    entry [(a, b)] of the new matrix is the entry of the old one at the
    bit-reversed indices. *)
Theorem change_mapping_moves_entries (g : Gate) (o : string) :
  is_unitary_matrix (matrix g) = true ->
  o = "MSB" \/ o = "LSB" -> o <> ordering g ->
  let n := Nat.log2 (length (matrix g)) in
  exists g',
    change_mapping g o = Ok g'
    /\ ordering g' = o /\ name g' = name g /\ num_qubits g' = num_qubits g
    /\ length (matrix g') = length (matrix g)
    /\ forall a b, a < length (matrix g) -> b < length (matrix g) ->
         entry (matrix g') a b
         = entry (matrix g) (bit_reverse n a) (bit_reverse n b).
Proof.
  intros HU Ho Hne n.
  pose proof (change_mapping_unitary g o HU) as H.
  assert (E1 : negb (existsb (String.eqb o) ["MSB"; "LSB"]) = false)
    by (destruct Ho as [-> | ->]; reflexivity).
  assert (E2 : String.eqb o (ordering g) = false) by now apply String.eqb_neq.
  rewrite E1, E2 in H. eexists. split; [exact H|].
  cbn [ordering name num_qubits matrix]. fold n.
  destruct (unitary_square _ HU) as [Hsq Hlen]. fold n in Hsq, Hlen.
  repeat split.
  - destruct (permuted_square n (matrix g)) as [Hp _]. now rewrite Hp.
  - intros a b Ha Hb. apply permuted_entry; lia.
Qed.

Lemma change_mapping_moves_entries_witness :
  exists g',
    change_mapping cx_gate "LSB" = Ok g'
    /\ ordering g' = "LSB"
    /\ entry (matrix g') 1 3 = entry cx_matrix (bit_reverse 2 1) (bit_reverse 2 3).
Proof.
  destruct (change_mapping_moves_entries cx_gate "LSB")
    as [g' [H [Ho [_ [_ [_ He]]]]]];
    [exact cx_matrix_unitary | now right | discriminate |].
  exists g'. split; [exact H|]. split; [exact Ho|].
  apply He; cbn; lia.
Defined.

(** X5.  [change_mapping] raises [ValueError] on every ordering other
    than "MSB" and "LSB", whatever the gate; and it is idempotent: asking
    again for the ordering a call has just returned changes nothing. *)
Theorem change_mapping_idempotent (g : Gate) (o : string) :
  (o <> "MSB" -> o <> "LSB" ->
   change_mapping g o
   = Raise (ValueError "The ordering must be either 'MSB' or 'LSB'."))
  /\ (forall g1, change_mapping g o = Ok g1 -> change_mapping g1 o = Ok g1).
Proof.
  split.
  - intros H1 H2. unfold change_mapping. cbn [existsb].
    apply String.eqb_neq in H1, H2. now rewrite H1, H2.
  - intros g1 H. unfold change_mapping in *.
    destruct (negb (existsb (String.eqb o) ["MSB"; "LSB"])); [discriminate|].
    destruct (String.eqb o (ordering g)) eqn:E.
    + injection H as <-. now rewrite E.
    + destruct (reorder (matrix g)) as [r|e]; [|discriminate].
      cbn [Py.bind] in H. injection H as <-. cbn [ordering].
      now rewrite String.eqb_refl.
Qed.

Lemma change_mapping_idempotent_witness :
  change_mapping x_gate "little"
  = Raise (ValueError "The ordering must be either 'MSB' or 'LSB'.")
  /\ change_mapping cx_gate_lsb "LSB" = Ok cx_gate_lsb.
Proof.
  destruct (change_mapping_idempotent x_gate "little") as [H _].
  destruct (change_mapping_idempotent cx_gate "LSB") as [_ H'].
  split; [apply H; discriminate|].
  apply H'. unfold change_mapping.
  cbn [negb existsb String.eqb Ascii.eqb Bool.eqb orb ordering cx_gate matrix].
  rewrite reorder_cx_matrix. reflexivity.
Defined.

(** X6.  The index computation of [change_mapping],
    [int(bin(i)[2:].zfill(n)[::-1], 2)] with [n = log2(size)], never
    raises on an index below a power-of-two size; its value is again
    below the size, and applying it twice gives the index back. *)
Theorem reversed_index_round_trip (n i : nat) :
  i < 2 ^ n ->
  exists r,
    reversed_index (2 ^ n) i = Ok r /\ r < 2 ^ n /\
    reversed_index (2 ^ n) r = Ok i.
Proof.
  intros Hi. exists (bit_reverse n i).
  split; [now apply reversed_index_spec|].
  split; [apply bit_reverse_bound|].
  rewrite reversed_index_spec by apply bit_reverse_bound.
  now rewrite bit_reverse_involutive.
Qed.

Lemma reversed_index_round_trip_witness :
  exists r, reversed_index (2 ^ 3) 6 = Ok r /\ r < 2 ^ 3 /\
            reversed_index (2 ^ 3) r = Ok 6.
Proof. apply reversed_index_round_trip. cbn. lia. Defined.

Lemma Cconj_involutive (z : C) : Cconj (Cconj z) = z.
Proof. destruct z. unfold Cconj. cbn [fst snd]. f_equal. lra. Qed.

Lemma conj_transpose_entry (n : nat) (M : Matrix) (i j : nat) :
  0 < n -> square n M -> i < n -> j < n ->
  entry (conj_transpose M) i j = Cconj (entry M j i).
Proof.
  intros Hn HM Hi Hj. unfold conj_transpose.
  rewrite (shape1_square n M Hn HM).
  replace (shape0 M) with n by (destruct HM; unfold shape0; lia).
  now rewrite (entry_map_seq (fun j i => Cconj (entry M i j))).
Qed.

Lemma conj_transpose_square (n : nat) (M : Matrix) :
  0 < n -> square n M -> square n (conj_transpose M).
Proof.
  intros Hn HM. unfold conj_transpose.
  rewrite (shape1_square n M Hn HM).
  replace (shape0 M) with n by (destruct HM; unfold shape0; lia).
  apply (square_map_seq (fun j i => Cconj (entry M i j))).
Qed.

(** X7.  [adjoint] of a gate that holds a unitary matrix returns an array
    of the same side whose entry [(i, j)] is the conjugate of entry
    [(j, i)] of the matrix, and taking the conjugate transpose of what
    it returns gives the matrix back. *)
Theorem adjoint_involutive (g : Gate) :
  is_unitary_matrix (matrix g) = true ->
  let side := length (matrix g) in
  length (adjoint g) = side
  /\ (forall i j, i < side -> j < side ->
        entry (adjoint g) i j = Cconj (entry (matrix g) j i))
  /\ conj_transpose (adjoint g) = matrix g.
Proof.
  intros HU side. destruct (unitary_square _ HU) as [Hsq Hlen].
  set (n := Nat.log2 (length (matrix g))) in *.
  assert (Hpos : 0 < 2 ^ n) by (apply Nat.neq_0_lt_0, Nat.pow_nonzero; lia).
  pose proof (conj_transpose_square _ _ Hpos Hsq) as Hsq'.
  unfold adjoint, side. rewrite Hlen. split; [|split].
  - now destruct Hsq'.
  - intros i j Hi Hj. now apply (conj_transpose_entry (2 ^ n)).
  - apply (square_ext (2 ^ n)); [now apply conj_transpose_square|exact Hsq|].
    intros i j Hi Hj.
    rewrite (conj_transpose_entry (2 ^ n)) by assumption.
    rewrite (conj_transpose_entry (2 ^ n)) by assumption.
    apply Cconj_involutive.
Qed.

Lemma adjoint_involutive_witness :
  length (adjoint cx_gate) = 4
  /\ conj_transpose (adjoint cx_gate) = cx_matrix.
Proof.
  destruct (adjoint_involutive cx_gate cx_matrix_unitary) as [H1 [_ H3]].
  split; [exact H1 | exact H3].
Defined.

End GateExtras.

(** ** The one-qubit decomposition *)

Module OneQubitExtras.

Import OneQubit Zyz Shapes Inputs NpFacts UnitaryFacts Examples OneQubitFacts.
Import DriverFacts ZyzFacts.

Local Open Scope R_scope.

Lemma atan_nonneg (x : R) : 0 <= x -> 0 <= atan x.
Proof.
  intros [H| <-].
  - rewrite <- atan_0. apply Rlt_le. now apply atan_increasing.
  - rewrite atan_0. lra.
Qed.

Lemma atan_nonpos (x : R) : x <= 0 -> atan x <= 0.
Proof.
  intros [H| ->].
  - rewrite <- atan_0. apply Rlt_le. now apply atan_increasing.
  - rewrite atan_0. lra.
Qed.

Lemma atan_pos (x : R) : 0 < x -> 0 < atan x.
Proof. intros H. rewrite <- atan_0. now apply atan_increasing. Qed.

(** On the closed first quadrant [atan2] lies between 0 and a right angle. *)
Lemma atan2_quadrant (y x : R) : 0 <= y -> 0 <= x -> 0 <= atan2 y x <= PI / 2.
Proof.
  intros Hy Hx. pose proof PI_RGT_0 as Hpi. unfold atan2.
  destruct (Rlt_dec 0 x) as [Hpos|_].
  - pose proof (atan_bound (y / x)) as Hb.
    assert (H : 0 <= y / x) by (apply Rle_mult_inv_pos; assumption).
    apply atan_nonneg in H. lra.
  - destruct (Rlt_dec x 0) as [Hneg|_]; [lra|].
    destruct (Rlt_dec 0 y) as [_|_]; [lra|].
    destruct (Rlt_dec y 0) as [Hn|_]; lra.
Qed.

(** [atan2] takes its values in the half-open interval from [-PI] to [PI]. *)
Lemma atan2_range (y x : R) : - PI < atan2 y x <= PI.
Proof.
  pose proof PI_RGT_0 as Hpi. unfold atan2.
  pose proof (atan_bound (y / x)) as Hb.
  destruct (Rlt_dec 0 x) as [Hpos|_]; [lra|].
  destruct (Rlt_dec x 0) as [Hneg|_].
  - destruct (Rle_dec 0 y) as [Hy|Hy].
    + assert (H : y / x <= 0).
      { unfold Rdiv. replace 0 with (y * 0) by lra.
        apply Rmult_le_compat_l; [exact Hy|].
        apply Rlt_le, Rinv_lt_0_compat, Hneg. }
      apply atan_nonpos in H. lra.
    + assert (H : 0 < y / x).
      { unfold Rdiv. replace (y * / x) with ((- y) * (- / x)) by lra.
        apply Rmult_lt_0_compat; [lra|].
        pose proof (Rinv_lt_0_compat x Hneg). lra. }
      apply atan_pos in H. lra.
  - destruct (Rlt_dec 0 y) as [_|_]; [lra|].
    destruct (Rlt_dec y 0) as [_|_]; lra.
Qed.

Lemma entry_map_map (f : C -> C) (M : Matrix) (i j : nat) :
  f C0 = C0 -> entry (map (map f) M) i j = f (entry M i j).
Proof.
  intros H. unfold entry.
  change (@nil C) with (map f []) at 1. rewrite map_nth.
  transitivity (nth j (map f (nth i M [])) (f C0)); [now rewrite H|].
  apply map_nth.
Qed.

Lemma Cmul_C0_r (a : C) : Cmul a C0 = C0.
Proof. unfold Cmul, C0. cbn [fst snd]. f_equal; lra. Qed.

(** An entry of the rounded, rescaled array, in terms of the entry of [U]. *)
Lemma entry_round_scale (coe : C) (U : Matrix) (i j : nat) :
  entry (round 10 (scale coe U)) i j
  = (round_float 10 (fst (Cmul coe (entry U i j))),
     round_float 10 (snd (Cmul coe (entry U i j)))).
Proof.
  unfold round, scale.
  rewrite (entry_map_map
             (fun z => (round_float 10 (fst z), round_float 10 (snd z)))).
  - now rewrite (entry_map_map (Cmul coe)) by apply Cmul_C0_r.
  - unfold C0. cbn [fst snd]. now rewrite (round_float_IZR 10 0).
Qed.

Lemma entry_round_scale_zero (coe : C) (U : Matrix) (i j : nat) :
  entry U i j = C0 -> entry (round 10 (scale coe U)) i j = C0.
Proof.
  intros H. rewrite entry_round_scale, H, Cmul_C0_r. unfold C0. cbn [fst snd].
  now rewrite (round_float_IZR 10 0).
Qed.

(** X8.  On a 2 x 2 array that passes the unitarity test, [params_zyz]
    returns a rotation angle [theta] between 0 and [PI], a phase [alpha]
    between [-PI] and [PI], and two angles [phi] and [lam] between
    [-2 PI] and [2 PI]. *)
Theorem params_zyz_ranges (U : Matrix) :
  square 2 U -> is_unitary_matrix U = true ->
  let p := params_zyz U in
  let alpha := fst p in
  let theta := fst (fst (snd p)) in
  let phi := snd (fst (snd p)) in
  let lam := snd (snd p) in
  0 <= theta <= PI
  /\ - PI <= alpha <= PI
  /\ - (2 * PI) <= phi <= 2 * PI
  /\ - (2 * PI) <= lam <= 2 * PI.
Proof.
  intros _ _. unfold params_zyz. cbn [fst snd].
  set (coe := pow_neg_half (det U)). set (v := round 10 (scale coe U)).
  pose proof (atan2_quadrant (Cabs (entry v 1 0)) (Cabs (entry v 0 0))
                (Cabs_nonneg _) (Cabs_nonneg _)) as Ht.
  pose proof (atan2_range (snd coe) (fst coe)) as Ha.
  pose proof (atan2_range (snd (entry v 1 1)) (fst (entry v 1 1))) as H1.
  pose proof (atan2_range (snd (entry v 1 0)) (fst (entry v 1 0))) as H0.
  unfold angle. repeat split; lra.
Qed.

Lemma params_zyz_ranges_witness :
  0 <= fst (fst (snd (params_zyz pauli_x))) <= PI.
Proof.
  apply (params_zyz_ranges pauli_x); [square_concrete|].
  exact pauli_x_unitary.
Defined.

Lemma rint_zero_bound (y : R) : rint y = 0%Z -> - (1 / 2) <= y <= 1 / 2.
Proof.
  unfold rint. destruct (base_Int_part y) as [H1 H2].
  set (n := Int_part y) in *.
  destruct (Rlt_dec (y - IZR n) (1 / 2)) as [Hlt|Hnlt].
  - intros E. rewrite E in *. cbn in H1, Hlt. lra.
  - destruct (Rlt_dec (1 / 2) (y - IZR n)) as [Hgt|Hngt].
    + intros E. assert (En : n = (-1)%Z) by lia. rewrite En in *.
      cbn in H2, Hgt. lra.
    + destruct (Z.even n).
      * intros E. rewrite E in *. cbn in Hnlt, Hngt. lra.
      * intros E. assert (En : n = (-1)%Z) by lia. rewrite En in *.
        cbn in Hnlt, Hngt. lra.
Qed.

(** What rounds to zero is small. *)
Lemma round_float_zero_bound (d : nat) (x : R) :
  round_float d x = 0 -> x * x <= 1 / 4.
Proof.
  unfold round_float. intros H. pose proof (pow10_pos d) as Hp.
  assert (Hp1 : 1 <= 10 ^ d) by (apply pow_R1_Rle; lra).
  assert (Hz : IZR (rint (x * 10 ^ d)) = 0).
  { apply (Rmult_eq_reg_r (/ 10 ^ d)).
    - rewrite Rmult_0_l. exact H.
    - apply Rinv_neq_0_compat. lra. }
  apply eq_IZR_R0, rint_zero_bound in Hz.
  set (q := 10 ^ d) in *.
  assert (Hhi : x <= 1 / 2).
  { destruct (Rle_dec x (1 / 2)) as [Hx|Hx]; [exact Hx|]. exfalso.
    assert (x * 1 <= x * q) by (apply Rmult_le_compat_l; lra). lra. }
  assert (Hlo : - (1 / 2) <= x).
  { destruct (Rle_dec (- (1 / 2)) x) as [Hx|Hx]; [exact Hx|]. exfalso.
    assert ((- x) * 1 <= (- x) * q) by (apply Rmult_le_compat_l; lra). lra. }
  nra.
Qed.

(** X9.  On a 2 x 2 array that passes the unitarity test and whose
    lower-left entry is zero, [params_zyz] returns [theta = 0].  On a
    2 x 2 array with [U U^H = I] whose upper-left entry is zero it
    returns [theta = PI], rounding or not. *)
Theorem params_zyz_axis_cases (U : Matrix) :
  let theta := fst (fst (snd (params_zyz U))) in
  square 2 U ->
  (is_unitary_matrix U = true -> entry U 1 0 = C0 -> theta = 0)
  /\ (exactly_unitary U -> entry U 0 0 = C0 -> theta = PI).
Proof.
  intros theta Hsq. unfold theta, params_zyz. cbn [fst snd].
  set (coe := pow_neg_half (det U)). split.
  - intros _ H. rewrite (entry_round_scale_zero coe U 1 0 H).
    unfold C0. rewrite (Cabs_real 0) by lra.
    rewrite atan2_zero_nonneg by apply Cabs_nonneg. lra.
  - intros HU H. rewrite (entry_round_scale_zero coe U 0 0 H).
    change (Cabs C0) with (Cabs (0, 0)). rewrite (Cabs_real 0) by lra.
    destruct (square_2_inv U Hsq) as [a [b [e [d' EU]]]].
    rewrite EU in HU, H.
    destruct (unitary2_algebra a b e d' HU) as [HD [_ [_ Hcol]]].
    change (entry [[a; b]; [e; d']] 0 0) with a in H. rewrite H in Hcol.
    unfold C0 in Hcol. cbn [fst snd] in Hcol.
    assert (Hc : coe = Cexp (- angle (det [[a; b]; [e; d']]) / 2)).
    { unfold coe. rewrite EU. now apply pow_neg_half_unit. }
    rewrite entry_round_scale. rewrite EU.
    change (entry [[a; b]; [e; d']] 1 0) with e.
    pose proof (Cnorm_mul_Cexp (- angle (det [[a; b]; [e; d']]) / 2) e) as Hn.
    rewrite <- Hc in Hn.
    set (x := fst (Cmul coe e)) in *. set (y := snd (Cmul coe e)) in *.
    assert (Hpos : 0 < Cabs (round_float 10 x, round_float 10 y)).
    { unfold Cabs. cbn [fst snd]. apply sqrt_lt_R0.
      destruct (Req_dec (round_float 10 x) 0) as [Ex|Ex].
      - destruct (Req_dec (round_float 10 y) 0) as [Ey|Ey].
        + apply round_float_zero_bound in Ex, Ey. lra.
        + nra.
      - nra. }
    unfold atan2.
    destruct (Rlt_dec 0 0) as [F|_]; [lra|].
    destruct (Rlt_dec 0 (Cabs (round_float 10 x, round_float 10 y)))
      as [_|F]; [lra | contradiction].
Qed.

Lemma params_zyz_axis_cases_witness :
  fst (fst (snd (params_zyz (eye 2)))) = 0
  /\ fst (fst (snd (params_zyz pauli_x))) = PI.
Proof.
  split.
  - apply (params_zyz_axis_cases (eye 2));
      [apply ControlFacts.square_eye | exact eye_2_unitary | reflexivity].
  - apply (params_zyz_axis_cases pauli_x);
      [square_concrete | exact exactly_unitary_pauli_x | reflexivity].
Defined.

(** X10.  The checks of [apply_unitary], in the order in which they are
    made: a list of qubit indices whose length is not 1 raises
    [ValueError] whatever the unitary is; then the error of the operator
    wrapper is passed on; then an operator on a number of qubits other
    than 1 raises [ValueError]. *)
Theorem apply_unitary_rejects (self : OneQubitDecomposition) (c : Circuit)
    (u : unitary_arg) (qs : qubits_arg) :
  (length (as_list qs) <> 1%nat ->
   apply_unitary self c u qs
   = Raise (ValueError "One-qubit decomposition requires exactly one qubit index."))
  /\ (length (as_list qs) = 1%nat ->
      forall e, as_operator u = Raise e -> apply_unitary self c u qs = Raise e)
  /\ (length (as_list qs) = 1%nat ->
      forall op, as_operator u = Ok op -> op_num_qubits op <> 1%nat ->
      apply_unitary self c u qs
      = Raise (ValueError "One-qubit decomposition requires a 2x2 unitary matrix.")).
Proof.
  unfold apply_unitary. split; [|split].
  - intros H. apply Nat.eqb_neq in H. now rewrite H.
  - intros H e He. now rewrite H, He.
  - intros H op Hop Hn. rewrite H, Hop. cbn [Nat.eqb negb Py.bind].
    apply Nat.eqb_neq in Hn. now rewrite Hn.
Qed.

Lemma apply_unitary_rejects_witness :
  apply_unitary default (Circ.new 2) (Array pauli_x) (Many [0; 1]%nat)
  = Raise (ValueError "One-qubit decomposition requires exactly one qubit index.")
  /\ apply_unitary default (Circ.new 2) (Array cx_matrix) (Single 0%nat)
     = Raise (ValueError "One-qubit decomposition requires a 2x2 unitary matrix.").
Proof.
  destruct (apply_unitary_rejects default (Circ.new 2) (Array pauli_x)
              (Many [0; 1]%nat)) as [H1 _].
  destruct (apply_unitary_rejects default (Circ.new 2) (Array cx_matrix)
              (Single 0%nat)) as [_ [_ H3]].
  split.
  - apply H1. cbn. lia.
  - apply (H3 eq_refl {| data := cx_matrix; op_num_qubits := 2 |}).
    + cbn [as_operator]. unfold Operator_init.
      now rewrite cx_matrix_unitary.
    + cbn. lia.
Defined.

(** X11.  For a decomposition that [__init__] has accepted, one qubit
    index [q] and an operator on one qubit, [apply_unitary] succeeds and
    appends, in this order, [RZ(lam)], [RY(theta)], [RZ(phi)] on [q] and
    [GlobalPhase(alpha)] in the basis "zyz", and [U3(theta, phi, lam)]
    on [q] and [GlobalPhase(alpha - (phi + lam) / 2)] in the basis "u3",
    with the values that [params_zyz] returns in both cases.  It never
    returns the circuit as it was. *)
Theorem apply_unitary_appends (b : string) (self : OneQubitDecomposition)
    (c : Circuit) (u : unitary_arg) (op : Operator) (qs : qubits_arg)
    (q : nat) :
  init b = Ok self -> as_operator u = Ok op -> op_num_qubits op = 1%nat ->
  as_list qs = [q] ->
  let p := params_zyz (data op) in
  let alpha := fst p in
  let theta := fst (fst (snd p)) in
  let phi := snd (fst (snd p)) in
  let lam := snd (snd p) in
  apply_unitary self c u qs
  = Ok (extend
          (if String.eqb b "zyz"
           then [RZ lam q; RY theta q; RZ phi q; GlobalPhase alpha]
           else [U3 [theta; phi; lam] q;
                 GlobalPhase (alpha - (phi + lam) / 2)])
          c)
  /\ apply_unitary self c u qs <> Ok c.
Proof.
  intros Hinit Hop Hn Hq p alpha theta phi lam.
  assert (E : apply_unitary self c u qs
              = Ok (extend
                      (if String.eqb b "zyz"
                       then [RZ lam q; RY theta q; RZ phi q; GlobalPhase alpha]
                       else [U3 [theta; phi; lam] q;
                             GlobalPhase (alpha - (phi + lam) / 2)])
                      c)).
  { unfold apply_unitary. rewrite Hq, Hop.
    cbn [length Nat.eqb negb Py.bind]. rewrite Hn.
    cbn [Nat.eqb negb Py.index nth_error Py.bind].
    unfold init in Hinit. cbn [existsb] in Hinit.
    destruct (String.eqb b "zyz") eqn:Ez.
    - injection Hinit as <-. cbn [basis]. rewrite Ez.
      unfold alpha, theta, phi, lam, p.
      destruct (params_zyz (data op)) as [a [[t f] l]]. cbn [fst snd].
      unfold append, extend. cbn. now rewrite <- ?app_assoc.
    - destruct (String.eqb b "u3") eqn:Eu; [|discriminate].
      injection Hinit as <-. cbn [basis]. rewrite Ez, Eu.
      unfold params_u3, alpha, theta, phi, lam, p.
      destruct (params_zyz (data op)) as [a [[t f] l]]. cbn [fst snd].
      unfold append, extend. cbn. now rewrite <- ?app_assoc. }
  split; [exact E|].
  rewrite E. intros H. injection H as H.
  apply (f_equal circuit_log) in H. cbn [extend circuit_log] in H.
  apply (f_equal (@length gate)) in H. rewrite length_app in H.
  destruct (String.eqb b "zyz"); cbn [length] in H; lia.
Qed.

Lemma apply_unitary_appends_witness :
  apply_unitary {| basis := "zyz" |} (Circ.new 1) (Array (eye 2)) (Single 3%nat)
  <> Ok (Circ.new 1).
Proof.
  apply (apply_unitary_appends "zyz" {| basis := "zyz" |} (Circ.new 1)
           (Array (eye 2)) {| data := eye 2; op_num_qubits := 1 |}
           (Single 3%nat) 3%nat).
  - reflexivity.
  - cbn [as_operator]. unfold Operator_init. now rewrite eye_2_unitary.
  - reflexivity.
  - reflexivity.
Defined.

End OneQubitExtras.

(** ** The Shannon driver *)

Module DriverExtras.

Import Shannon Kernel Bits BinFacts KernelFacts DriverFacts OneQubitFacts.
Import Shapes Inputs NpFacts UnitaryFacts Examples Wellformed.

Lemma operator_of_unitary (U : Matrix) :
  is_unitary_matrix U = true ->
  as_operator (Array U)
  = Ok {| data := U; op_num_qubits := Nat.log2 (length U) |}.
Proof. intros H. cbn [as_operator]. unfold Operator_init. now rewrite H. Qed.

(** The one-qubit leaf in its default basis. *)
Lemma one_qubit_default (c : Circuit) (u : unitary_arg) (op : Operator)
    (q : nat) :
  as_operator u = Ok op -> op_num_qubits op = 1 ->
  let p := OneQubit.params_u3 (data op) in
  OneQubit.apply_unitary OneQubit.default c u (Many [q])
  = Ok (extend [U3 [fst (fst (snd p)); snd (fst (snd p)); snd (snd p)] q;
                GlobalPhase (fst p)] c).
Proof.
  intros Hop Hn p. unfold OneQubit.apply_unitary.
  cbn [as_list length Nat.eqb negb]. rewrite Hop. cbn [Py.bind]. rewrite Hn.
  cbn [Nat.eqb negb Py.index nth_error Py.bind].
  change (String.eqb (OneQubit.basis OneQubit.default) "zyz") with false.
  change (String.eqb (OneQubit.basis OneQubit.default) "u3") with true.
  cbv iota. unfold p.
  destruct (OneQubit.params_u3 (data op)) as [phase [[theta phi] lamda]].
  cbn [fst snd]. now rewrite append_append.
Qed.

(** X12.  The checks of [ShannonDecomposition.apply_unitary] come before
    any synthesis: whatever the stack bound, the error of the operator
    wrapper is passed on, and a number of qubit indices other than the
    number of qubits of the operator raises [ValueError]. *)
Theorem shannon_rejects {B : Backend} (fuel : nat) (c : Circuit)
    (u : unitary_arg) (qs : qubits_arg) :
  (forall e, as_operator u = Raise e -> apply_unitary fuel c u qs = Raise e)
  /\ (forall op, as_operator u = Ok op ->
        length (as_list qs) <> op_num_qubits op ->
        apply_unitary fuel c u qs
        = Raise (ValueError
            "The number of qubit indices must match the number of qubits in the unitary.")).
Proof.
  unfold apply_unitary. split.
  - intros e He. now rewrite He.
  - intros op Hop Hn. rewrite Hop. cbn [Py.bind].
    apply Nat.eqb_neq in Hn. now rewrite Hn.
Qed.

Lemma shannon_rejects_witness :
  apply_unitary (B := TestBackend.backend) 0 (Circ.new 3) (Array cx_matrix)
    (Many [0; 1; 2])
  = Raise (ValueError
      "The number of qubit indices must match the number of qubits in the unitary.").
Proof.
  destruct (shannon_rejects (B := TestBackend.backend) 0 (Circ.new 3)
              (Array cx_matrix) (Many [0; 1; 2])) as [_ H].
  apply (H _ (operator_of_unitary cx_matrix cx_matrix_unitary)).
  cbn. lia.
Defined.

Lemma shannon_one_qubit_run {B : Backend} (fuel : nat) (c : Circuit)
    (U : Matrix) (qs : qubits_arg) (q : nat) :
  is_unitary_matrix U = true -> length U = 2 -> as_list qs = [q] ->
  let p := OneQubit.params_u3 U in
  apply_unitary (S fuel) c (Array U) qs
  = Ok (extend [U3 [fst (fst (snd p)); snd (fst (snd p)); snd (snd p)] q;
                GlobalPhase (fst p)] c).
Proof.
  intros HU Hlen Hq p. unfold apply_unitary.
  rewrite (operator_of_unitary U HU), Hq. cbn [Py.bind op_num_qubits data].
  rewrite Hlen. cbn [length Nat.log2 Nat.eqb negb].
  change (Nat.log2 2) with 1. cbn [Nat.eqb negb].
  cbn [quantum_shannon_decomposition]. unfold shape0. rewrite Hlen.
  cbn [Nat.eqb]. unfold lift_circuit. cbn [circuit].
  rewrite (one_qubit_default c (Array U)
             {| data := U; op_num_qubits := Nat.log2 (length U) |} q
             (operator_of_unitary U HU))
    by (cbn [op_num_qubits]; now rewrite Hlen).
  reflexivity.
Qed.

(** X13.  On a unitary of side 2 the driver does what the one-qubit
    decomposition does in its default basis, and nothing else: it
    appends [U3(theta, phi, lam)] on the given qubit and
    [GlobalPhase(phase)], with the values that [params_u3] returns. *)
Theorem shannon_one_qubit {B : Backend} (fuel : nat) (c : Circuit)
    (U : Matrix) (qs : qubits_arg) (q : nat) :
  is_unitary_matrix U = true -> length U = 2 -> as_list qs = [q] ->
  let p := OneQubit.params_u3 U in
  apply_unitary (S fuel) c (Array U) qs
  = Ok (extend [U3 [fst (fst (snd p)); snd (fst (snd p)); snd (snd p)] q;
                GlobalPhase (fst p)] c).
Proof. apply shannon_one_qubit_run. Qed.

Lemma shannon_one_qubit_witness :
  let p := OneQubit.params_u3 pauli_x in
  apply_unitary (B := TestBackend.backend) 1 (Circ.new 1) (Array pauli_x)
    (Single 0)
  = Ok (extend [U3 [fst (fst (snd p)); snd (fst (snd p)); snd (snd p)] 0;
                GlobalPhase (fst p)] (Circ.new 1)).
Proof.
  apply (shannon_one_qubit (B := TestBackend.backend) 0 (Circ.new 1) pauli_x
           (Single 0) 0 pauli_x_unitary); reflexivity.
Defined.

Lemma shannon_two_qubit_run {B : Backend} (fuel : nat) (c : Circuit)
    (U : Matrix) (qs : qubits_arg) :
  is_unitary_matrix U = true -> length U = 4 -> length (as_list qs) = 2 ->
  apply_unitary (S fuel) c (Array U) qs
  = (gs <- two_qubit_gates U (as_list qs) ;; Ok (extend gs c)).
Proof.
  intros HU Hlen Hq. unfold apply_unitary.
  rewrite (operator_of_unitary U HU), Hq. cbn [Py.bind op_num_qubits data].
  rewrite Hlen. change (Nat.log2 4) with 2. cbn [Nat.eqb negb].
  cbn [quantum_shannon_decomposition]. unfold shape0. rewrite Hlen.
  cbn [Nat.eqb]. destruct (two_qubit_gates U (as_list qs)) as [gs|e];
    reflexivity.
Qed.

(** X14.  On a unitary of side 4 the driver hands the matrix and the two
    qubit indices to the two-qubit decomposition and returns the circuit
    with the gates of that decomposition appended; an error of the
    two-qubit decomposition is passed on.  No block is recorded at the
    top level and the A.2 post-pass does not run. *)
Theorem shannon_two_qubit {B : Backend} (fuel : nat) (c : Circuit)
    (U : Matrix) (qs : qubits_arg) :
  is_unitary_matrix U = true -> length U = 4 -> length (as_list qs) = 2 ->
  apply_unitary (S fuel) c (Array U) qs
  = (gs <- two_qubit_gates U (as_list qs) ;; Ok (extend gs c))
  /\ forall st,
       quantum_shannon_decomposition (S fuel) U (as_list qs) U 0 st
       = (gs <- two_qubit_gates U (as_list qs) ;; Ok (emit_all gs st)).
Proof.
  intros HU Hlen Hq. split; [now apply shannon_two_qubit_run|].
  intros st. cbn [quantum_shannon_decomposition]. unfold shape0.
  rewrite Hlen. cbn [Nat.eqb].
  destruct (two_qubit_gates U (as_list qs)) as [gs|e]; reflexivity.
Qed.

Lemma shannon_two_qubit_witness :
  apply_unitary (B := IdentityBackend.exact_on_identity) 1 (Circ.new 2)
    (Array cx_matrix) (Many [0; 1])
  = Ok (extend [] (Circ.new 2)).
Proof.
  apply (shannon_two_qubit (B := IdentityBackend.exact_on_identity) 0
           (Circ.new 2) cx_matrix (Many [0; 1]) cx_matrix_unitary);
    reflexivity.
Defined.

(** X15.  [get_ucry_cz] without control qubits.  An empty list of qubit
    indices raises [IndexError], and so does one qubit with no angle.
    With one qubit and at least one angle, the call appends the rotation
    [RY] by the first angle when that angle exceeds [1e-10] in absolute
    value and nothing otherwise; the other angles are not read. *)
Theorem get_ucry_cz_without_controls {B : Backend} (t : nat)
    (angles : list R) (st : state) :
  get_ucry_cz [] angles st = Raise IndexError
  /\ get_ucry_cz [t] [] st = Raise IndexError
  /\ forall a0 rest,
       get_ucry_cz [t] (a0 :: rest) st
       = Ok (if exceeds_epsilon a0 then emit (RY a0 t) st else st).
Proof.
  split; [reflexivity|]. split; [reflexivity|].
  intros a0 rest. unfold get_ucry_cz.
  cbn [Py.last_item rev app Py.bind Py.but_last removelast Py.index nth_error].
  now destruct (exceeds_epsilon a0).
Qed.

Lemma ucry_cz_step_ok {B : Backend} (N L : nat) (controls : list nat)
    (target : nat) (st st' : state) (item : nat * R) :
  ucry_cz_step N L controls target st item = Ok st' ->
  st' = emit_all (step_gates (control_index L controls) N controls target item) st
  /\ Forall (kernel_gate controls target)
       (step_gates (control_index L controls) N controls target item).
Proof.
  unfold ucry_cz_step, step_gates. destruct item as [i angle]. cbn [fst snd].
  intros H.
  assert (Hry : Forall (kernel_gate controls target)
                  (if exceeds_epsilon angle then [RY angle target] else [])).
  { destruct (exceeds_epsilon angle); repeat constructor. }
  destruct (i <? N - 1).
  - unfold Py.index in H.
    destruct (nth_error controls (control_index L controls i)) as [c|] eqn:E;
      [|discriminate].
    cbn [Py.bind] in H. injection H as <-.
    rewrite (nth_error_nth _ _ 0 E). split.
    + rewrite emit_all_app.
      destruct (exceeds_epsilon angle); [reflexivity|].
      now rewrite emit_all_nil.
    + apply Forall_app. split; [exact Hry|].
      constructor; [|constructor]. split; [|reflexivity].
      eapply nth_error_In, E.
  - injection H as <-. rewrite app_nil_r. split; [|exact Hry].
    destruct (exceeds_epsilon angle); [reflexivity|].
    now rewrite emit_all_nil.
Qed.

Lemma ucry_cz_loop_ok {B : Backend} (N L : nat) (controls : list nat)
    (target : nat) (items : list (nat * R)) :
  forall st st',
    Py.for_each (ucry_cz_step N L controls target) items st = Ok st' ->
    st' = emit_all
            (flat_map (step_gates (control_index L controls) N controls target)
               items) st
    /\ Forall (kernel_gate controls target)
         (flat_map (step_gates (control_index L controls) N controls target)
            items).
Proof.
  induction items as [|item items IH]; intros st st' H.
  - injection H as <-. cbn [flat_map]. rewrite emit_all_nil.
    split; [reflexivity | constructor].
  - cbn [Py.for_each] in H.
    destruct (ucry_cz_step N L controls target st item) as [st1|e] eqn:E;
      [|discriminate].
    cbn [Py.bind] in H. apply ucry_cz_step_ok in E. destruct E as [-> F1].
    destruct (IH _ _ H) as [-> F2]. cbn [flat_map]. split.
    + now rewrite emit_all_app.
    + apply Forall_app. now split.
Qed.

(** The gates of a call of [get_ucry_cz] that returns. *)
Lemma get_ucry_cz_shape {B : Backend} (qubits : list nat) (angles : list R)
    (st st' : state) :
  get_ucry_cz qubits angles st = Ok st' ->
  exists target gs,
    Py.last_item qubits = Ok target
    /\ st' = emit_all gs st
    /\ Forall (kernel_gate (Py.but_last qubits) target) gs
    /\ length (filter is_cz gs) <= length angles - 1.
Proof.
  unfold get_ucry_cz. intros H.
  destruct (Py.last_item qubits) as [target|e]; [|discriminate].
  cbn [Py.bind] in H. exists target.
  destruct (Py.but_last qubits) as [|c0 controls] eqn:Ec.
  - destruct (Py.index angles 0) as [a0|e]; [|discriminate].
    cbn [Py.bind] in H.
    destruct (exceeds_epsilon a0); injection H as <-.
    + exists [RY a0 target]. split; [reflexivity|]. split; [reflexivity|].
      split; [repeat constructor|]. cbn [filter is_cz length]. lia.
    + exists []. rewrite emit_all_nil. split; [reflexivity|].
      split; [reflexivity|]. split; [constructor|].
      cbn [filter length]. lia.
  - apply ucry_cz_loop_ok in H. destruct H as [-> F].
    eexists. split; [reflexivity|]. split; [reflexivity|].
    split; [exact F|]. unfold enumerate. rewrite count_cz_items. lia.
Qed.

(** X16.  Whatever its arguments, a call of [get_ucry_cz] that returns
    has only appended to the log, and only rotations [RY] on the last of
    the given qubits and [CZ] gates from one of the other given qubits
    onto the last.  When there is an angle the number of [CZ] gates is
    below the number of angles; when there is none, no [CZ] gate is
    appended.  The recorded blocks are as they were. *)
Theorem get_ucry_cz_gates_on_target {B : Backend} (qubits : list nat)
    (angles : list R) (st st' : state) :
  get_ucry_cz qubits angles st = Ok st' ->
  exists target gs,
    Py.last_item qubits = Ok target
    /\ circuit st' = extend gs (circuit st)
    /\ a2_qsd_blocks st' = a2_qsd_blocks st
    /\ Forall (kernel_gate (Py.but_last qubits) target) gs
    /\ (angles <> [] -> length (filter is_cz gs) < length angles)
    /\ (angles = [] -> filter is_cz gs = []).
Proof.
  intros H. destruct (get_ucry_cz_shape _ _ _ _ H) as [t [gs [Ht [-> [F Hc]]]]].
  exists t, gs. split; [exact Ht|]. split; [reflexivity|].
  split; [reflexivity|]. split; [exact F|]. split.
  - intros Hne. destruct angles as [|a angles]; [contradiction|].
    cbn [length] in Hc |- *. lia.
  - intros ->. cbn [length] in Hc.
    destruct (filter is_cz gs) as [|g l]; [reflexivity|].
    cbn [length] in Hc. lia.
Qed.

Lemma get_ucry_cz_gates_on_target_witness :
  exists target gs,
    Py.last_item [0; 1] = Ok target
    /\ Forall (kernel_gate (Py.but_last [0; 1]) target) gs
    /\ length (filter is_cz gs) < 2.
Proof.
  destruct (get_ucry_cz_gates_on_target (B := TestBackend.backend) [0; 1]
              [0; 0]%R (empty_state 2) _
              (get_ucry_cz_log (B := TestBackend.backend) 1 [0] 1 [0; 0]%R
                 (empty_state 2) (le_n 1) eq_refl eq_refl eq_refl))
    as [t [gs [Ht [_ [_ [F [Hc _]]]]]]].
  exists t, gs. split; [exact Ht|]. split; [exact F|].
  apply Hc. discriminate.
Defined.

(** X17.  [demultiplexor] never returns on an empty list of qubits: after
    the first recursive call there is no last qubit for the multiplexed
    RZ to act on. *)
Theorem demultiplexor_needs_qubits {B : Backend} (fuel : nat) (data : Matrix)
    (U1 U2 : Matrix) (depth : nat) (st st' : state) :
  demultiplexor fuel data [] U1 U2 depth st <> Ok st'.
Proof.
  unfold demultiplexor, demultiplexor_with. rewrite eigen_pair.
  cbn [Py.but_last removelast Py.last_item rev].
  destruct (quantum_shannon_decomposition fuel data [] _ (depth + 1) st)
    as [st1|e]; cbn [Py.bind]; discriminate.
Qed.

Lemma demultiplexor_needs_qubits_witness :
  demultiplexor (B := TestBackend.backend) 1 (eye 4) [] (eye 2) (eye 2) 0
    (empty_state 2)
  <> Ok (empty_state 2).
Proof. apply demultiplexor_needs_qubits. Defined.

Lemma Cneg_involutive (z : C) : Cneg (Cneg z) = z.
Proof. destruct z. unfold Cneg. cbn [fst snd]. f_equal; lra. Qed.

Lemma negate_row_involutive (h : nat) :
  forall row : list C,
    firstn h (firstn h row ++ map Cneg (skipn h row))
    ++ map Cneg (skipn h (firstn h row ++ map Cneg (skipn h row)))
    = row.
Proof.
  induction h as [|h IH]; intros row.
  - cbn [firstn skipn app]. rewrite map_map.
    rewrite <- (map_id row) at 2. apply map_ext, Cneg_involutive.
  - destruct row as [|a row]; [reflexivity|].
    cbn [firstn skipn app]. f_equal. apply IH.
Qed.

Lemma negate_columns_from_square (h n : nat) (M : Matrix) :
  square n M -> square n (negate_columns_from h M).
Proof.
  intros [Hlen Hrows]. unfold negate_columns_from. split.
  - now rewrite length_map.
  - apply Forall_map. eapply Forall_impl; [|exact Hrows].
    intros row Hr. cbn beta in Hr |- *.
    rewrite length_app, length_firstn, length_map, length_skipn. lia.
Qed.

Lemma gram_negate_columns (h n : nat) (M : Matrix) (i j : nat) :
  square n M -> i < n -> j < n ->
  gram n (negate_columns_from h M) i j = gram n M i j.
Proof.
  intros HM Hi Hj. unfold gram. f_equal. apply map_ext_in.
  intros k Hk. apply in_seq in Hk.
  pose proof HM as [Hlen _].
  rewrite !negate_columns_from_entry
    by (rewrite ?(square_row n M _ HM); lia).
  destruct (k <? h); [reflexivity|].
  unfold Cmul, Cconj, Cneg. cbn [fst snd]. f_equal; ring.
Qed.

(** X18.  Negating the columns of an array from a given column on, as
    the driver does to the second left factor before the right
    demultiplexor, is an involution, keeps the shape of a square array,
    and keeps a unitary array unitary. *)
Theorem negate_columns_from_facts (h : nat) (M : Matrix) :
  negate_columns_from h (negate_columns_from h M) = M
  /\ (forall n, square n M -> square n (negate_columns_from h M))
  /\ (is_unitary_matrix M = true ->
      is_unitary_matrix (negate_columns_from h M) = true).
Proof.
  split; [|split].
  - unfold negate_columns_from. rewrite map_map.
    rewrite <- (map_id M) at 2. apply map_ext, negate_row_involutive.
  - intros n. apply negate_columns_from_square.
  - intros HU. apply is_unitary_matrix_spec in HU.
    destruct HU as [n [Hsq Hall]]. apply is_unitary_matrix_spec.
    exists n. split; [now apply negate_columns_from_square|].
    intros i j Hi Hj. rewrite gram_negate_columns by assumption.
    now apply Hall.
Qed.

Lemma negate_columns_from_facts_witness :
  is_unitary_matrix (negate_columns_from 1 pauli_x) = true.
Proof. apply (negate_columns_from_facts 1 pauli_x), pauli_x_unitary. Defined.

End DriverExtras.

(** ** Recorded blocks and the A.2 post-pass *)

Module RecursionExtras.

Import Shannon Kernel Bits BinFacts KernelFacts DriverFacts OneQubitFacts.
Import Shapes Inputs NpFacts UnitaryFacts Examples Wellformed DriverExtras.

Lemma slice_app_l {A} (l m : list A) (s e : nat) :
  e <= length l -> Py.slice (l ++ m) s e = Py.slice l s e.
Proof.
  intros He. unfold Py.slice.
  destruct (le_lt_dec s (length l)) as [Hs|Hs].
  - rewrite skipn_app. replace (s - length l) with 0 by lia.
    cbn [skipn]. rewrite firstn_app, length_skipn.
    replace (e - s - (length l - s)) with 0 by lia.
    cbn [firstn]. now rewrite app_nil_r.
  - replace (e - s) with 0 by lia. reflexivity.
Qed.

Lemma slice_whole_suffix {A} (l g : list A) :
  Py.slice (l ++ g) (length l) (length (l ++ g)) = g.
Proof.
  unfold Py.slice. rewrite length_app.
  replace (length l + length g - length l) with (length g) by lia.
  rewrite skipn_app, skipn_all, Nat.sub_diag. cbn [skipn app].
  apply firstn_all.
Qed.

Lemma chained_le (bs : list (nat * nat)) :
  forall lo hi, chained lo bs hi -> lo <= hi.
Proof.
  induction bs as [|b bs IH]; intros lo hi H; cbn [chained] in H; [exact H|].
  destruct H as [H1 [H2 H3]]. apply IH in H3. lia.
Qed.

Lemma chained_lower (bs : list (nat * nat)) (lo lo' hi : nat) :
  lo' <= lo -> chained lo bs hi -> chained lo' bs hi.
Proof.
  intros Hlo. destruct bs as [|b bs]; cbn [chained]; [lia|].
  intros [H1 H2]. split; [lia | exact H2].
Qed.

Lemma chained_within (bs : list (nat * nat)) :
  forall lo hi,
    chained lo bs hi ->
    Forall (fun b => lo <= fst b /\ fst b <= snd b /\ snd b <= hi) bs.
Proof.
  induction bs as [|b bs IH]; intros lo hi H; [constructor|].
  cbn [chained] in H. destruct H as [H1 [H2 H3]].
  constructor.
  - pose proof (chained_le _ _ _ H3). lia.
  - eapply Forall_impl; [|apply (IH _ _ H3)].
    cbn beta. intros b' Hb'. lia.
Qed.

Lemma chained_app (a b : list (nat * nat)) (mid hi : nat) :
  forall lo, chained lo a mid -> chained mid b hi -> chained lo (a ++ b) hi.
Proof.
  induction a as [|x a IH]; intros lo Ha Hb; cbn [app].
  - cbn [chained] in Ha. now apply (chained_lower b mid lo hi).
  - cbn [chained] in Ha |- *. destruct Ha as [H1 [H2 H3]].
    split; [exact H1|]. split; [exact H2|]. now apply IH.
Qed.

Section Recursion.

Context {B : Backend}.

Lemma leaf_blocks_app (log more : list gate) (bs : list (nat * nat)) :
  Forall (fun b => snd b <= length log) bs ->
  leaf_blocks log bs -> leaf_blocks (log ++ more) bs.
Proof.
  unfold leaf_blocks. rewrite !Forall_forall. intros Hb Hl b Hin.
  destruct (Hl b Hin) as [V [qs [H4 Hg]]]. exists V, qs.
  split; [exact H4|]. rewrite slice_app_l by now apply Hb. exact Hg.
Qed.

Lemma grows_emit_all (gs : list gate) (st : state) :
  grows st (emit_all gs st).
Proof.
  exists gs, []. cbn [emit_all circuit a2_qsd_blocks chained].
  rewrite app_nil_r. repeat split; [lia | constructor].
Qed.

Lemma grows_trans (st st1 st2 : state) :
  grows st st1 -> grows st1 st2 -> grows st st2.
Proof.
  intros [g1 [n1 [Hc1 [Hb1 [Hch1 Hl1]]]]] [g2 [n2 [Hc2 [Hb2 [Hch2 Hl2]]]]].
  exists (g1 ++ g2), (n1 ++ n2).
  rewrite Hc1 in Hch2, Hl2. cbn [extend circuit_log] in Hch2, Hl2.
  rewrite length_app in Hch2.
  split; [now rewrite Hc2, Hc1, extend_extend|].
  split; [now rewrite Hb2, Hb1, app_assoc|].
  split.
  - rewrite length_app, Nat.add_assoc. eapply chained_app; eassumption.
  - apply Forall_app. split.
    + rewrite app_assoc. apply leaf_blocks_app; [|exact Hl1].
      eapply Forall_impl; [|apply (chained_within _ _ _ Hch1)].
      cbn beta. intros b Hb. rewrite length_app. lia.
    + now rewrite app_assoc.
Qed.

Lemma demultiplexor_with_grows
    (qsd : list nat -> Matrix -> nat -> state -> result state)
    (demux_qubits : list nat) (U1 U2 : Matrix) (depth : nat)
    (st st' : state) :
  (forall q U s s', qsd q U (depth + 1) s = Ok s' -> grows s s') ->
  demultiplexor_with qsd demux_qubits U1 U2 depth st = Ok st' ->
  grows st st'.
Proof.
  intros Hqsd H. unfold demultiplexor_with in H. rewrite eigen_pair in H.
  destruct (qsd (Py.but_last demux_qubits) _ (depth + 1) st) as [st1|e] eqn:E1;
    [|discriminate].
  cbn [Py.bind] in H.
  destruct (Py.last_item demux_qubits) as [target|e]; [|discriminate].
  cbn [Py.bind] in H.
  apply Hqsd in E1, H.
  eapply grows_trans; [exact E1|].
  eapply grows_trans; [|exact H].
  rewrite emit_emit_all. apply grows_emit_all.
Qed.

(** Below the top level the driver appends gates and records, for each
    two-qubit leaf, the positions of its gates in the log. *)
Lemma qsd_grows (fuel : nat) (data : Matrix) :
  forall (qubits : list nat) (U : Matrix) (depth : nat) (st st' : state),
    1 <= depth ->
    quantum_shannon_decomposition fuel data qubits U depth st = Ok st' ->
    grows st st'.
Proof.
  induction fuel as [|fuel IH]; intros qubits U depth st st' Hd H;
    [discriminate|].
  cbn [quantum_shannon_decomposition] in H.
  destruct (shape0 U =? 2).
  { unfold lift_circuit in H.
    destruct (OneQubit.apply_unitary _ _ _ _) as [c|e] eqn:E; [|discriminate].
    cbn [Py.bind] in H. injection H as <-.
    apply one_qubit_appends in E. destruct E as [gs ->].
    apply (grows_emit_all gs st). }
  destruct (shape0 U =? 4) eqn:E4.
  { destruct (two_qubit_gates U qubits) as [gs|e] eqn:Eg; [|discriminate].
    cbn [Py.bind] in H.
    destruct (Nat.ltb_spec 0 depth) as [_|Hn]; [|lia]. injection H as <-.
    exists gs,
      [(length (circuit_log (circuit st)),
        length (circuit_log (circuit (emit_all gs st))))].
    cbn [emit_all circuit a2_qsd_blocks extend circuit_log chained fst snd].
    rewrite length_app. repeat split; try lia.
    constructor; [|constructor]. exists U, qubits.
    split; [now apply Nat.eqb_eq|]. cbn [fst snd].
    rewrite Eg. f_equal. symmetry.
    rewrite <- length_app. apply slice_whole_suffix. }
  destruct (cossin U (shape0 U / 2) (shape0 U / 2))
    as [[[u1 u2] vtheta] [v1h v2h]].
  assert (Hrec : forall q V s s',
             quantum_shannon_decomposition fuel data q V (depth + 1) s = Ok s' ->
             grows s s').
  { intros q V s s' Hs. apply (IH q V (depth + 1) s s'); [lia | exact Hs]. }
  destruct (demultiplexor_with _ qubits v1h v2h depth st) as [st1|e] eqn:E1;
    [|discriminate].
  cbn [Py.bind] in H.
  destruct (get_ucry_cz qubits _ st1) as [st2|e] eqn:E2; [|discriminate].
  cbn [Py.bind] in H.
  destruct (demultiplexor_with _ qubits u1 _ depth st2) as [st3|e] eqn:E3;
    [|discriminate].
  cbn [Py.bind] in H.
  destruct (Nat.eqb_spec depth 0) as [E0|_]; [lia|]. injection H as <-.
  apply (demultiplexor_with_grows _ _ _ _ _ _ _ Hrec) in E1, E3.
  apply get_ucry_cz_appends in E2. destruct E2 as [gs2 ->].
  eapply grows_trans; [exact E1|].
  eapply grows_trans; [apply grows_emit_all | exact E3].
Qed.

End Recursion.

(** X19.  Below the top level, a call of the driver that returns has
    appended gates to the log and blocks to the list of recorded blocks,
    and has changed nothing else; the new blocks lie one after the other
    inside the appended part of the log, and each delimits exactly the
    gates that the two-qubit decomposition produced for one leaf of side
    4.  The same holds for [demultiplexor] at every depth. *)
Theorem recursion_records_leaf_blocks {B : Backend} (fuel : nat)
    (data : Matrix) (qubits : list nat) (U U1 U2 : Matrix) (depth : nat)
    (st st' : state) :
  (1 <= depth ->
   quantum_shannon_decomposition fuel data qubits U depth st = Ok st' ->
   grows st st')
  /\ (demultiplexor fuel data qubits U1 U2 depth st = Ok st' ->
      grows st st').
Proof.
  split.
  - apply qsd_grows.
  - unfold demultiplexor. apply demultiplexor_with_grows.
    intros q V s s'. apply qsd_grows. lia.
Qed.

Lemma recursion_records_leaf_blocks_witness :
  grows (B := IdentityBackend.exact_on_identity) (empty_state 2)
    {| circuit := Circ.new 2; a2_qsd_blocks := [(0, 0)] |}.
Proof.
  destruct (recursion_records_leaf_blocks
              (B := IdentityBackend.exact_on_identity)
              1 (eye 4) [0; 1] (eye 4) (eye 4) (eye 4) 1 (empty_state 2)
              {| circuit := Circ.new 2; a2_qsd_blocks := [(0, 0)] |})
    as [H _].
  apply H; [lia | reflexivity].
Defined.

End RecursionExtras.

(** ** The A.2 post-pass *)

Module PostPassExtras.

Import Shannon Kernel Bits BinFacts KernelFacts DriverFacts OneQubitFacts.
Import Shapes Inputs NpFacts UnitaryFacts Examples Wellformed DriverExtras.
Import RecursionExtras.

Lemma map_snd_combine_seq {A T} (f : A -> T) (l : list A) :
  forall s,
    map (fun item : nat * A => f (snd item)) (combine (seq s (length l)) l)
    = map f l.
Proof.
  induction l as [|a l IH]; intros s; [reflexivity|].
  cbn [length seq combine map snd]. now rewrite IH.
Qed.

Lemma length_enumerate {A} (l : list A) : length (enumerate l) = length l.
Proof. unfold enumerate. rewrite length_combine, length_seq. lia. Qed.

(** The first loop of the post-pass: the slices of the blocks but the
    last, and the gaps after them. *)
Lemma a2_parts_loop (log : list gate) (blocks : list (nat * nat))
    (body : list (list gate) * list (list gate) -> nat * (nat * nat) ->
            result (list (list gate) * list (list gate))) :
  (forall acc i b,
     body acc (i, b)
     = (next_block <- Py.index blocks (i + 1) ;;
        Ok (fst acc ++ [Py.slice log (fst b) (snd b)],
            snd acc ++ [Py.slice log (snd b) (fst next_block)]))) ->
  forall (l : list (nat * nat)) (s : nat) acc,
    s + length l < length blocks ->
    Py.for_each body (combine (seq s (length l)) l) acc
    = Ok (fst acc
          ++ map (fun item : nat * (nat * nat) =>
                    Py.slice log (fst (snd item)) (snd (snd item)))
                 (combine (seq s (length l)) l),
          snd acc
          ++ map (fun item : nat * (nat * nat) =>
                    Py.slice log (snd (snd item))
                      (fst (nth (fst item + 1) blocks (0, 0))))
                 (combine (seq s (length l)) l)).
Proof.
  intros Hbody. induction l as [|b l IH]; intros s acc Hs.
  - cbn. rewrite !app_nil_r. now destruct acc.
  - cbn [length seq combine Py.for_each map]. rewrite Hbody.
    unfold Py.index at 1.
    rewrite (nth_error_nth' blocks (0, 0)) by (cbn [length] in Hs; lia).
    cbn [Py.bind]. rewrite IH by (cbn [length] in Hs; lia).
    cbn [fst snd]. now rewrite <- !app_assoc.
Qed.

Section PostPass.

Context {B : Backend}.

(** The post-pass when it runs: the blocks are cut out of the log, each
    is merged with the next, the log is rebuilt from the merged blocks
    and the gaps, and the unitary of the result is compared with the
    input. *)
Lemma a2_normal_form (data : Matrix) (st : state) :
  2 <= length (a2_qsd_blocks st) ->
  apply_a2_optimization data st
  = (merged <-
       Py.for_each merge_step (Py.range (length (a2_qsd_blocks st) - 1))
         (block_slices (circuit_log (circuit st)) (a2_qsd_blocks st)) ;;
     if almost_equal
          (get_unitary (rebuilt (circuit st) (a2_qsd_blocks st) merged)) data
     then Ok {| circuit := rebuilt (circuit st) (a2_qsd_blocks st) merged;
                a2_qsd_blocks := a2_qsd_blocks st |}
     else Raise AssertionError).
Proof.
  destruct st as [c blocks]. cbn [a2_qsd_blocks circuit]. intros Hlen.
  unfold apply_a2_optimization. cbn [a2_qsd_blocks circuit].
  destruct (Nat.ltb_spec (length blocks) 2) as [Hlt|_]; [lia|].
  assert (Hne : blocks <> []) by (intros ->; cbn in Hlen; lia).
  destruct (exists_last Hne) as [bl [x ->]]. clear Hne.
  rewrite length_app in Hlen. cbn [length] in Hlen.
  assert (Hi0 : Py.index (bl ++ [x]) 0 = Ok (hd (0, 0) (bl ++ [x]))).
  { destruct bl; [cbn [length] in Hlen; lia | reflexivity]. }
  rewrite Hi0. cbn [Py.bind].
  rewrite !but_last_snoc, !last_item_snoc. unfold enumerate.
  match goal with
  | |- context [Py.for_each ?f (combine (seq 0 (length bl)) bl) ?a] =>
      rewrite (a2_parts_loop (circuit_log c) (bl ++ [x]) f
                 (fun acc i b => eq_refl) bl 0 a)
        by (rewrite length_app; cbn [length]; lia)
  end.
  cbn [Py.bind fst snd app].
  unfold block_slices, rebuilt, gaps.
  rewrite but_last_snoc, last_last, map_app. cbn [map].
  rewrite (map_snd_combine_seq
             (fun b : nat * nat => Py.slice (circuit_log c) (fst b) (snd b))).
  rewrite !length_app, length_map. reflexivity.
Qed.

Lemma merge_step_length (q q' : list (list gate)) (i : nat) :
  merge_step q i = Ok q' -> length q' = length q.
Proof.
  unfold merge_step. intros H.
  destruct (Py.index q i) as [l1|e]; [|discriminate]. cbn [Py.bind] in H.
  destruct (Py.index q (i + 1)) as [l2|e]; [|discriminate].
  cbn [Py.bind] in H.
  destruct (apply_unitary_up_to_diagonal _ _ _) as [r|e]; [|discriminate].
  cbn [Py.bind] in H.
  destruct (prepare_unitary _) as [c2|e]; [|discriminate].
  cbn [Py.bind] in H. injection H as <-. now rewrite !length_set_nth.
Qed.

Lemma merge_loop_length (idxs : list nat) :
  forall q q', Py.for_each merge_step idxs q = Ok q' -> length q' = length q.
Proof.
  induction idxs as [|i idxs IH]; intros q q' H.
  - now injection H as <-.
  - cbn [Py.for_each] in H.
    destruct (merge_step q i) as [q1|e] eqn:E; [|discriminate].
    cbn [Py.bind] in H. apply merge_step_length in E.
    rewrite (IH _ _ H). exact E.
Qed.

Lemma merge_step_in_range (q : list (list gate)) (i : nat) :
  i + 1 < length q -> merge_step q i = merge_step_unchecked q i.
Proof.
  intros Hi. unfold merge_step, merge_step_unchecked, Py.index.
  rewrite (nth_error_nth' q [] (n := i)) by lia.
  rewrite (nth_error_nth' q [] (n := i + 1)) by lia.
  reflexivity.
Qed.

Lemma merge_loop_in_range (idxs : list nat) :
  forall q,
    Forall (fun i => i + 1 < length q) idxs ->
    Py.for_each merge_step idxs q = Py.for_each merge_step_unchecked idxs q.
Proof.
  induction idxs as [|i idxs IH]; intros q HF; [reflexivity|].
  cbn [Py.for_each]. inversion HF as [|? ? Hi HF']; subst.
  rewrite <- (merge_step_in_range q i Hi).
  destruct (merge_step q i) as [q1|e] eqn:E; [|reflexivity].
  cbn [Py.bind]. apply IH.
  now rewrite (merge_step_length _ _ _ E).
Qed.

(** What a run of the post-pass on two blocks or more leaves behind. *)
Lemma a2_outcome (data : Matrix) (st st' : state) :
  2 <= length (a2_qsd_blocks st) ->
  apply_a2_optimization data st = Ok st' ->
  exists merged,
    length merged = length (a2_qsd_blocks st)
    /\ st' = {| circuit := rebuilt (circuit st) (a2_qsd_blocks st) merged;
                a2_qsd_blocks := a2_qsd_blocks st |}
    /\ almost_equal (get_unitary (circuit st')) data = true.
Proof.
  intros Hlen H. rewrite (a2_normal_form data st Hlen) in H.
  destruct (Py.for_each merge_step _ _) as [merged|e] eqn:E; [|discriminate].
  cbn [Py.bind] in H.
  destruct (almost_equal _ data) eqn:Ea; [|discriminate].
  injection H as <-. exists merged. split; [|split; [reflexivity|exact Ea]].
  rewrite (merge_loop_length _ _ _ E). unfold block_slices.
  apply length_map.
Qed.

Lemma a2_returns_at_once (data : Matrix) (st : state) :
  length (a2_qsd_blocks st) < 2 -> apply_a2_optimization data st = Ok st.
Proof.
  intros H. unfold apply_a2_optimization.
  destruct (Nat.ltb_spec (length (a2_qsd_blocks st)) 2); [reflexivity|lia].
Qed.

Lemma length_gaps (log : list gate) (blocks : list (nat * nat)) :
  blocks <> [] -> length (gaps log blocks) = length blocks.
Proof.
  intros Hne. destruct (exists_last Hne) as [bl [x ->]].
  unfold gaps. rewrite but_last_snoc.
  now rewrite !length_app, length_map, length_enumerate.
Qed.

(** At the top level the driver only appends to the log, the post-pass
    included: the first recorded block begins after the gates that were
    there before the call. *)
Lemma qsd_top_extends (fuel : nat) (data : Matrix) (qubits : list nat)
    (U : Matrix) (st st' : state) :
  a2_qsd_blocks st = [] ->
  quantum_shannon_decomposition fuel data qubits U 0 st = Ok st' ->
  exists gs, circuit st' = extend gs (circuit st).
Proof.
  intros Hb H. destruct fuel as [|fuel]; [discriminate|].
  cbn [quantum_shannon_decomposition] in H.
  destruct (shape0 U =? 2).
  { unfold lift_circuit in H.
    destruct (OneQubit.apply_unitary _ _ _ _) as [c|e] eqn:E; [|discriminate].
    cbn [Py.bind] in H. injection H as <-. cbn [circuit].
    now apply one_qubit_appends in E. }
  destruct (shape0 U =? 4).
  { destruct (two_qubit_gates U qubits) as [gs|e]; [|discriminate].
    cbn [Py.bind Nat.ltb Nat.leb] in H. injection H as <-. now exists gs. }
  destruct (cossin U (shape0 U / 2) (shape0 U / 2))
    as [[[u1 u2] vtheta] [v1h v2h]].
  assert (Hrec : forall q V s s',
             quantum_shannon_decomposition fuel data q V (0 + 1) s = Ok s' ->
             grows s s').
  { intros q V s s' Hs. apply (qsd_grows fuel data q V (0 + 1) s s');
      [lia | exact Hs]. }
  destruct (demultiplexor_with _ qubits v1h v2h 0 st) as [st1|e] eqn:E1;
    [|discriminate].
  cbn [Py.bind] in H.
  destruct (get_ucry_cz qubits _ st1) as [st2|e] eqn:E2; [|discriminate].
  cbn [Py.bind] in H.
  destruct (demultiplexor_with _ qubits u1 _ 0 st2) as [st3|e] eqn:E3;
    [|discriminate].
  cbn [Py.bind Nat.eqb] in H.
  apply (demultiplexor_with_grows _ _ _ _ _ _ _ Hrec) in E1, E3.
  apply get_ucry_cz_appends in E2. destruct E2 as [gs2 ->].
  assert (Hg : grows st st3).
  { eapply grows_trans; [exact E1|].
    eapply grows_trans; [apply grows_emit_all | exact E3]. }
  destruct Hg as [gs [new [Hc [Hn [Hch _]]]]]. rewrite Hb in Hn.
  cbn [app] in Hn.
  destruct (le_lt_dec 2 (length (a2_qsd_blocks st3))) as [Hlen|Hlen].
  - destruct (a2_outcome _ _ _ Hlen H) as [merged [_ [-> _]]].
    cbn [circuit]. rewrite Hn in *. rewrite Hc.
    destruct new as [|b0 new]; [cbn [length] in Hlen; lia|].
    cbn [chained] in Hch. destruct Hch as [Hlo _].
    unfold rebuilt. cbn [hd extend circuit_log num_qubits].
    unfold Py.slice at 1. cbn [skipn]. rewrite Nat.sub_0_r.
    rewrite firstn_app, firstn_all2 by lia.
    eexists. unfold extend. f_equal. rewrite <- app_assoc. reflexivity.
  - rewrite (a2_returns_at_once _ _ Hlen) in H. injection H as <-.
    now exists gs.
Qed.

End PostPass.

Lemma close_refl (M : Matrix) : IdentityBackend.close M M = true.
Proof.
  unfold IdentityBackend.close. rewrite !Nat.eqb_refl. cbn [andb].
  apply forallb_forall. intros i _. apply forallb_forall. intros j _.
  destruct (Rlt_dec _ _) as [_|Hn]; [reflexivity|]. exfalso. apply Hn.
  unfold Cabs, Csub. cbn [fst snd].
  replace ((fst (entry M i j) - fst (entry M i j))
           * (fst (entry M i j) - fst (entry M i j))
           + (snd (entry M i j) - snd (entry M i j))
             * (snd (entry M i j) - snd (entry M i j)))%R
    with 0%R by ring.
  rewrite sqrt_0. lra.
Qed.

(** The post-pass on two empty blocks of an empty circuit. *)
Lemma a2_identity_run :
  apply_a2_optimization (B := IdentityBackend.exact_on_identity) (eye 8)
    {| circuit := Circ.new 3; a2_qsd_blocks := [(0, 0); (0, 0)] |}
  = Ok {| circuit := Circ.new 3; a2_qsd_blocks := [(0, 0); (0, 0)] |}.
Proof.
  rewrite a2_normal_form by (cbn; lia).
  cbn [a2_qsd_blocks circuit length Nat.sub Py.range seq Py.for_each].
  unfold merge_step at 1.
  cbn [block_slices map Py.index nth_error Py.bind Nat.add
       apply_unitary_up_to_diagonal prepare_unitary
       IdentityBackend.exact_on_identity fst snd Py.set_nth circuit_log
       Circ.new].
  change (rebuilt (Circ.new 3) [(0, 0); (0, 0)] [[]; []]) with (Circ.new 3).
  change (almost_equal (get_unitary (Circ.new 3)) (eye 8))
    with (IdentityBackend.close (eye 8) (eye 8)).
  now rewrite close_refl.
Qed.

(** The post-pass on two identity blocks with gates around them: the
    blocks are replaced by empty ones and the four other gates stay. *)
Lemma a2_two_identity_blocks_run :
  apply_a2_optimization (B := IdentityBackend.exact_on_identity) (eye 8)
    IdentityBackend.two_identity_blocks
  = Ok {| circuit :=
            {| num_qubits := 3;
               circuit_log := [CZ 0 2; CZ 1 2; CZ 1 2; CZ 0 2] |};
          a2_qsd_blocks := [(1, 3); (4, 6)] |}.
Proof.
  rewrite a2_normal_form by (cbn; lia).
  assert (E : Py.for_each (merge_step (B := IdentityBackend.exact_on_identity))
                (Py.range
                   (length (a2_qsd_blocks IdentityBackend.two_identity_blocks)
                    - 1))
                (block_slices
                   (circuit_log (circuit IdentityBackend.two_identity_blocks))
                   (a2_qsd_blocks IdentityBackend.two_identity_blocks))
              = Ok [[]; []]) by reflexivity.
  rewrite E. cbn [Py.bind].
  change (rebuilt (circuit IdentityBackend.two_identity_blocks)
            (a2_qsd_blocks IdentityBackend.two_identity_blocks) [[]; []])
    with {| num_qubits := 3;
            circuit_log := [CZ 0 2; CZ 1 2; CZ 1 2; CZ 0 2] |}.
  change (almost_equal
            (get_unitary
               {| num_qubits := 3;
                  circuit_log := [CZ 0 2; CZ 1 2; CZ 1 2; CZ 0 2] |})
            (eye 8))
    with (IdentityBackend.close (eye 8) (eye 8)).
  now rewrite close_refl.
Qed.

(** X20.  A call of the post-pass that returns leaves the recorded
    blocks and the number of qubits of the circuit as they were; with
    fewer than two blocks it leaves the whole state as it was, and with
    two or more the unitary of the circuit it leaves has passed the
    comparison with the input of the synthesis. *)
Theorem a2_checks_its_result {B : Backend} (data : Matrix) (st st' : state) :
  apply_a2_optimization data st = Ok st' ->
  a2_qsd_blocks st' = a2_qsd_blocks st
  /\ num_qubits (circuit st') = num_qubits (circuit st)
  /\ (length (a2_qsd_blocks st) < 2 /\ st' = st
      \/ 2 <= length (a2_qsd_blocks st)
         /\ almost_equal (get_unitary (circuit st')) data = true).
Proof.
  intros H. destruct (le_lt_dec 2 (length (a2_qsd_blocks st))) as [Hlen|Hlen].
  - destruct (a2_outcome _ _ _ Hlen H) as [merged [_ [E Ha]]].
    split; [now rewrite E|]. split; [now rewrite E|]. right. now split.
  - rewrite (a2_returns_at_once _ _ Hlen) in H. injection H as <-.
    repeat split. now left.
Qed.

Lemma a2_checks_its_result_witness :
  almost_equal (Backend := IdentityBackend.exact_on_identity)
    (get_unitary (Backend := IdentityBackend.exact_on_identity) (Circ.new 3))
    (eye 8) = true.
Proof.
  destruct (a2_checks_its_result (B := IdentityBackend.exact_on_identity)
              (eye 8) _ _ a2_identity_run) as [_ [_ [[Hlt _]|[_ H]]]].
  - cbn in Hlt. lia.
  - exact H.
Defined.

(** X21.  When the post-pass runs on two blocks or more and returns, the
    log it leaves is the gates before the first block followed, for each
    block in turn, by a replacement of that block and then by the gates
    that followed the block in the old log, up to the next block or to
    the end.  There are as many replacements as blocks and as many gaps:
    the gates outside the blocks are all kept, in their order. *)
Theorem a2_keeps_gaps {B : Backend} (data : Matrix) (st st' : state) :
  2 <= length (a2_qsd_blocks st) ->
  apply_a2_optimization data st = Ok st' ->
  exists merged,
    length merged = length (a2_qsd_blocks st)
    /\ length (gaps (circuit_log (circuit st)) (a2_qsd_blocks st))
       = length (a2_qsd_blocks st)
    /\ circuit_log (circuit st')
       = Py.slice (circuit_log (circuit st)) 0
           (fst (hd (0, 0) (a2_qsd_blocks st)))
         ++ flat_map (fun p => fst p ++ snd p)
              (combine merged
                 (gaps (circuit_log (circuit st)) (a2_qsd_blocks st))).
Proof.
  intros Hlen H. destruct (a2_outcome _ _ _ Hlen H) as [merged [Hm [-> _]]].
  exists merged. split; [exact Hm|]. split; [|reflexivity].
  apply length_gaps. intros E. rewrite E in Hlen. cbn in Hlen. lia.
Qed.

Lemma a2_keeps_gaps_witness :
  let log := circuit_log (circuit IdentityBackend.two_identity_blocks) in
  let blocks := a2_qsd_blocks IdentityBackend.two_identity_blocks in
  Py.slice log 0 (fst (hd (0, 0) blocks)) = [CZ 0 2]
  /\ gaps log blocks = [[CZ 1 2]; [CZ 1 2; CZ 0 2]]
  /\ exists merged,
       length merged = 2
       /\ [CZ 0 2; CZ 1 2; CZ 1 2; CZ 0 2]
          = Py.slice log 0 (fst (hd (0, 0) blocks))
            ++ flat_map (fun p => fst p ++ snd p)
                 (combine merged (gaps log blocks)).
Proof.
  intros log blocks. split; [reflexivity|]. split; [reflexivity|].
  destruct (a2_keeps_gaps (B := IdentityBackend.exact_on_identity)
              (eye 8) IdentityBackend.two_identity_blocks _ (le_n 2)
              a2_two_identity_blocks_run)
    as [merged [Hm [_ Hlog]]].
  exists merged. split; [exact Hm | exact Hlog].
Defined.

(** X22.  On two blocks or more, every list index that the post-pass
    evaluates is in range: [a2_qsd_blocks[0]],
    [a2_qsd_blocks[block_index + 1]] and [a2_qsd_blocks[-1]] in the
    first loop, [qsd_blocks[block_index]] and
    [qsd_blocks[block_index + 1]] in the second, and
    [circuit_blocks.pop(0)].  The call does what the same steps do with
    no index checked. *)
Theorem a2_indexing_in_range {B : Backend} (data : Matrix) (st : state) :
  2 <= length (a2_qsd_blocks st) ->
  apply_a2_optimization data st = post_pass_unchecked data st.
Proof.
  intros Hlen. rewrite (a2_normal_form data st Hlen).
  unfold post_pass_unchecked. rewrite merge_loop_in_range; [reflexivity|].
  apply Forall_forall. intros i Hi. apply in_seq in Hi.
  unfold block_slices. rewrite length_map. lia.
Qed.

Lemma a2_indexing_in_range_witness :
  post_pass_unchecked (B := IdentityBackend.exact_on_identity) (eye 8)
    IdentityBackend.two_identity_blocks
  = Ok {| circuit :=
            {| num_qubits := 3;
               circuit_log := [CZ 0 2; CZ 1 2; CZ 1 2; CZ 0 2] |};
          a2_qsd_blocks := [(1, 3); (4, 6)] |}.
Proof.
  rewrite <- (a2_indexing_in_range (B := IdentityBackend.exact_on_identity)
                (eye 8) IdentityBackend.two_identity_blocks (le_n 2)).
  exact a2_two_identity_blocks_run.
Defined.

(** X23.  [ShannonDecomposition.apply_unitary] only appends: whenever it
    returns, the circuit has the number of qubits it had and its log is
    the log before the call followed by further gates.  This holds
    although the post-pass empties the log and rebuilds it, because the
    first recorded block starts after the gates that were there. *)
Theorem apply_unitary_only_appends {B : Backend} (fuel : nat) (c c' : Circuit)
    (u : unitary_arg) (qs : qubits_arg) :
  apply_unitary fuel c u qs = Ok c' ->
  num_qubits c' = num_qubits c
  /\ exists gs, circuit_log c' = circuit_log c ++ gs.
Proof.
  unfold apply_unitary. intros H.
  destruct (as_operator u) as [op|e]; [|discriminate]. cbn [Py.bind] in H.
  destruct (negb _); [discriminate|].
  destruct (quantum_shannon_decomposition _ _ _ _ _ _) as [st'|e] eqn:E;
    [|discriminate].
  cbn [Py.bind] in H. injection H as <-.
  apply qsd_top_extends in E; [|reflexivity].
  destruct E as [gs ->]. cbn [circuit extend num_qubits circuit_log].
  split; [reflexivity|]. now exists gs.
Qed.

Lemma apply_unitary_only_appends_witness :
  let p := OneQubit.params_u3 pauli_x in
  exists gs,
    circuit_log
      (extend [U3 [fst (fst (snd p)); snd (fst (snd p)); snd (snd p)] 0;
               GlobalPhase (fst p)]
         {| num_qubits := 1; circuit_log := [RY 1%R 0] |})
    = [RY 1%R 0] ++ gs.
Proof.
  intros p.
  apply (apply_unitary_only_appends (B := TestBackend.backend) 1
           {| num_qubits := 1; circuit_log := [RY 1%R 0] |} _
           (Array pauli_x) (Single 0)).
  apply (shannon_one_qubit_run (B := TestBackend.backend) 0 _ pauli_x
           (Single 0) 0 pauli_x_unitary eq_refl eq_refl).
Defined.

End PostPassExtras.

(** ** Edge cases of the kernel and of the driver, and the multiplexed RZ *)

Module EdgeExtras.

Import Shannon Kernel Bits BinFacts KernelFacts DriverFacts OneQubitFacts.
Import Shapes Inputs NpFacts UnitaryFacts Examples Wellformed DriverExtras.
Import OneQubitExtras.

Lemma odd_pow2_succ (j : nat) : Nat.odd (2 ^ S j) = false.
Proof. rewrite Nat.pow_succ_r', Nat.odd_mul. reflexivity. Qed.

Lemma trailing_zeros_pow2 (k : nat) : trailing_zeros (2 ^ k) = k.
Proof.
  assert (Hpos : 0 < 2 ^ k) by (apply Nat.neq_0_lt_0, Nat.pow_nonzero; lia).
  destruct (trailing_zeros_divides (2 ^ k) Hpos) as [q [Hq Hodd]].
  set (t := trailing_zeros (2 ^ k)) in *.
  assert (Hq1 : 1 <= q) by (destruct q; [discriminate | lia]).
  destruct (Nat.lt_trichotomy t k) as [Hlt|[Heq|Hgt]]; [|exact Heq|].
  - exfalso. replace k with (t + S (k - t - 1)) in Hq by lia.
    rewrite Nat.pow_add_r in Hq.
    apply Nat.mul_cancel_l in Hq; [|apply Nat.pow_nonzero; lia].
    rewrite <- Hq, odd_pow2_succ in Hodd. discriminate.
  - exfalso. assert (H : 2 ^ k < 2 ^ t) by (apply Nat.pow_lt_mono_r; lia).
    nia.
Qed.

Section Kernel.

Context {B : Backend}.

Lemma ucry_cz_step_succeeds (N L k : nat) (controls : list nat)
    (target : nat) (st : state) (s : nat) (a : R) :
  1 <= k -> length controls = k -> s + 1 < 2 ^ k ->
  exists st1, ucry_cz_step N L controls target st (s, a) = Ok st1.
Proof.
  intros Hk Hc Hs. unfold ucry_cz_step.
  destruct (s <? N - 1); [|eauto].
  assert (Hci : control_index L controls s < length controls).
  { unfold control_index. destruct (negb (s =? L - 1)); [|lia].
    rewrite control_index_of_spec, Hc. apply trailing_zeros_bound; lia. }
  unfold Py.index. rewrite (nth_error_nth' controls 0 Hci).
  cbn [Py.bind]. eauto.
Qed.

Lemma ucry_cz_loop_raises (L k : nat) (controls : list nat) (target : nat) :
  1 <= k -> length controls = k -> 2 ^ k < L ->
  forall (l : list R) (s : nat) (st : state),
    s <= 2 ^ k - 1 -> 2 ^ k - 1 < s + length l ->
    Py.for_each (ucry_cz_step L L controls target)
      (combine (seq s (length l)) l) st
    = Raise IndexError.
Proof.
  intros Hk Hc HL.
  assert (Hp : 0 < 2 ^ k) by (apply Nat.neq_0_lt_0, Nat.pow_nonzero; lia).
  induction l as [|a l IH]; intros s st Hs Hm.
  - cbn [length] in Hm. lia.
  - cbn [length seq combine Py.for_each].
    destruct (Nat.eq_dec s (2 ^ k - 1)) as [E|E].
    + assert (Hstep : ucry_cz_step L L controls target st (s, a)
                      = Raise IndexError).
      { unfold ucry_cz_step, control_index.
        destruct (Nat.ltb_spec s (L - 1)) as [_|Hn]; [|lia].
        destruct (Nat.eqb_spec s (L - 1)) as [E'|_]; [lia|]. cbn [negb].
        rewrite control_index_of_spec. rewrite E.
        replace (2 ^ k - 1 + 1) with (2 ^ k) by lia.
        rewrite trailing_zeros_pow2. unfold Py.index.
        assert (Hn : nth_error controls k = None)
          by (apply nth_error_None; lia).
        now rewrite Hn. }
      now rewrite Hstep.
    + destruct (ucry_cz_step_succeeds L L k controls target st s a Hk Hc)
        as [st1 Hst1]; [lia|].
      rewrite Hst1. cbn [Py.bind]. apply IH; cbn [length] in Hm; lia.
Qed.

End Kernel.

(** X25.  [get_ucry_cz] with [k >= 1] controls, when the list of
    transformed angles has the length of the list of angles: with at
    most [2 ^ k] angles the call returns, having appended its rotations
    and entanglers; with more than [2 ^ k] angles it raises
    [IndexError], at the index [2 ^ k - 1], whose entangler would be
    controlled by [controls[k]]. *)
Theorem get_ucry_cz_angle_count {B : Backend} (k : nat) (controls : list nat)
    (target : nat) (angles : list R) (st : state) :
  let angles' := decompose_uc_rotations angles 0 (length angles) false in
  1 <= k -> length controls = k -> length angles' = length angles ->
  (length angles <= 2 ^ k ->
   get_ucry_cz (controls ++ [target]) angles st
   = Ok (emit_all (ucry_cz_gates c_code controls target angles') st))
  /\ (2 ^ k < length angles ->
      get_ucry_cz (controls ++ [target]) angles st = Raise IndexError).
Proof.
  intros angles' Hk Hc Hd.
  assert (Hne : exists c0 cs, controls = c0 :: cs).
  { destruct controls as [|c0 cs]; [cbn in Hc; lia | eauto]. }
  destruct Hne as [c0 [cs Ecs]].
  split; intros HL; unfold get_ucry_cz;
    rewrite last_item_snoc, but_last_snoc; cbn [Py.bind];
    rewrite Ecs; rewrite <- Ecs; fold angles'; rewrite Hd.
  - rewrite (ucry_cz_loop k) by assumption.
    unfold ucry_cz_gates. now rewrite Hd.
  - unfold enumerate. rewrite <- Hd in HL |- *.
    apply (ucry_cz_loop_raises _ k); try assumption; lia.
Qed.

Lemma get_ucry_cz_angle_count_witness :
  get_ucry_cz (B := TestBackend.backend) ([0] ++ [1]) [0; 0; 0]%R
    (empty_state 2)
  = Raise IndexError.
Proof.
  apply (get_ucry_cz_angle_count (B := TestBackend.backend) 1 [0] 1
           [0; 0; 0]%R (empty_state 2));
    [lia | reflexivity | reflexivity | cbn; lia].
Defined.

Lemma demultiplexor_with_nil {B : Backend}
    (qsd : list nat -> Matrix -> nat -> state -> result state)
    (U1 U2 : Matrix) (depth : nat) (st st' : state) :
  demultiplexor_with qsd [] U1 U2 depth st <> Ok st'.
Proof.
  unfold demultiplexor_with. rewrite eigen_pair.
  cbn [Py.but_last removelast Py.last_item rev].
  destruct (qsd [] _ (depth + 1) st) as [st1|e]; cbn [Py.bind]; discriminate.
Qed.

(** X26.  [ShannonDecomposition.apply_unitary] never returns when it is
    given an array and no qubit index: an array that passes the checks
    then has side 1, the driver takes the branch of the cosine-sine
    decomposition, and the demultiplexor has no qubit to act on. *)
Theorem shannon_needs_a_qubit {B : Backend} (fuel : nat) (c c' : Circuit)
    (U : Matrix) :
  apply_unitary fuel c (Array U) (Many []) <> Ok c'.
Proof.
  unfold apply_unitary. cbn [as_operator]. unfold Operator_init.
  destruct (is_unitary_matrix U) eqn:HU; [|discriminate].
  cbn [Py.bind as_list length op_num_qubits data].
  destruct (Nat.eqb_spec 0 (int_log2 (shape0 U))) as [E0|_];
    cbn [negb]; [|discriminate].
  destruct (unitary_square U HU) as [_ Hlen].
  unfold int_log2, shape0 in E0. rewrite <- E0 in Hlen. cbn in Hlen.
  destruct fuel as [|fuel]; [discriminate|].
  cbn [quantum_shannon_decomposition]. unfold shape0. rewrite Hlen.
  cbn [Nat.eqb Nat.div Nat.divmod fst].
  destruct (cossin U 0 0) as [[[u1 u2] vtheta] [v1h v2h]].
  destruct (demultiplexor_with _ [] v1h v2h 0 _) as [st1|e] eqn:E1.
  - exfalso. exact (demultiplexor_with_nil _ _ _ _ _ _ E1).
  - discriminate.
Qed.

Lemma shannon_needs_a_qubit_witness :
  apply_unitary (B := TestBackend.backend) 2 (Circ.new 0) (Array [[C1]])
    (Many [])
  <> Ok (Circ.new 0).
Proof. apply shannon_needs_a_qubit. Defined.

Local Open Scope R_scope.

Lemma Cabs_zero (z : C) : Cabs z = 0 -> z = C0.
Proof.
  destruct z as [x y]. unfold Cabs. cbn [fst snd]. intros H.
  apply sqrt_eq_0 in H; [|nra].
  assert (Hx : x = 0) by nra. assert (Hy : y = 0) by nra.
  now rewrite Hx, Hy.
Qed.

(** Twice the argument of the conjugate of the principal square root is
    the negated argument. *)
Lemma angle_conj_sqrt (z : C) :
  2 * OneQubit.angle (Cconj (emath_sqrt z)) = - OneQubit.angle z.
Proof.
  pose proof PI_RGT_0 as Hpi.
  pose proof (atan2_range (snd z) (fst z)) as Hrange.
  fold (OneQubit.angle z) in Hrange.
  unfold emath_sqrt, Cconj. cbn [fst snd].
  set (a := OneQubit.angle z / 2).
  assert (Ha : OneQubit.angle z = 2 * a) by (unfold a; lra).
  rewrite Ha. clearbody a.
  set (r := sqrt (Cabs z)).
  assert (Hr : 0 <= r) by apply sqrt_pos.
  unfold OneQubit.angle. cbn [fst snd]. unfold OneQubit.atan2.
  destruct Hr as [Hr|Hr].
  - destruct (Req_dec a (PI / 2)) as [E|E].
    + rewrite E, cos_PI2, sin_PI2, Rmult_0_r, Rmult_1_r.
      destruct (Rlt_dec 0 0) as [F|_]; [lra|].
      destruct (Rlt_dec 0 (- r)) as [F|_]; [lra|].
      destruct (Rlt_dec (- r) 0) as [_|F]; lra.
    + assert (Hc : 0 < cos a) by (apply cos_gt_0; lra).
      assert (Hx : 0 < r * cos a) by now apply Rmult_lt_0_compat.
      destruct (Rlt_dec 0 (r * cos a)) as [_|F]; [|contradiction].
      replace (- (r * sin a) / (r * cos a)) with (- tan a)
        by (unfold tan; field; lra).
      rewrite atan_opp, atan_tan by lra. lra.
  - assert (Hz : z = C0).
    { apply Cabs_zero. unfold r in Hr. symmetry in Hr.
      apply sqrt_eq_0 in Hr; [exact Hr | apply Cabs_nonneg]. }
    rewrite Hz in Ha. unfold C0, OneQubit.angle in Ha. cbn [fst snd] in Ha.
    rewrite atan2_zero_nonneg in Ha by lra.
    rewrite <- Hr, !Rmult_0_l, Ropp_0.
    destruct (Rlt_dec 0 0) as [F|_]; [lra|]. lra.
Qed.

(** X27.  Each angle [t = 2 * np.angle(np.conj(np.emath.sqrt(d)))] of
    the multiplexed RZ that [demultiplexor] appends points at the
    conjugate of its eigenvalue, [|d| e^{i t} = conj(d)], and lies
    between [-PI] and [PI].  Whichever argument is taken on the negative
    real axis, [PI] or [-PI], both statements hold of it. *)
Theorem ucrz_angle_points_at_conjugate (d : C) :
  let t := 2 * OneQubit.angle (Cconj (emath_sqrt d)) in
  Cmul (Cabs d, 0) (Zyz.Cexp t) = Cconj d
  /\ - PI <= t <= PI.
Proof.
  intros t. unfold t. rewrite angle_conj_sqrt. split.
  - rewrite (ZyzFacts.polar d) at 3.
    unfold Cmul, Cconj, Zyz.Cexp. cbn [fst snd].
    rewrite cos_neg, sin_neg. f_equal; ring.
  - pose proof (atan2_range (snd d) (fst d)) as H.
    unfold OneQubit.angle. lra.
Qed.

End EdgeExtras.

(** ** The depth of the recursion *)

Module DepthExtras.

Import Shannon Kernel KernelFacts DriverFacts Shapes Inputs NpFacts.
Import UnitaryFacts Examples ControlFacts Wellformed DriverExtras.

Lemma in_firstn {A} (x : A) (n : nat) :
  forall l, In x (firstn n l) -> In x l.
Proof.
  induction n as [|n IH]; intros [|a l] H; cbn in H; try contradiction.
  destruct H as [->|H]; [now left|]. right. now apply IH.
Qed.

Lemma in_skipn {A} (x : A) (n : nat) :
  forall l, In x (skipn n l) -> In x l.
Proof.
  induction n as [|n IH]; intros [|a l] H; cbn in H; try contradiction.
  - exact H.
  - right. now apply IH.
Qed.

Lemma length_slice {A} (l : list A) (a b : nat) :
  b <= length l -> length (Py.slice l a b) = b - a.
Proof.
  intros H. unfold Py.slice. rewrite length_firstn, length_skipn. lia.
Qed.

Lemma block_square (N a b : nat) (M : Matrix) :
  square N M -> b <= N -> square (b - a) (TestBackend.block a b M).
Proof.
  intros [Hlen Hrows] Hb. unfold TestBackend.block. split.
  - rewrite length_map. apply length_slice. lia.
  - apply Forall_map, Forall_forall. intros row Hin.
    unfold Py.slice in Hin. apply in_firstn, in_skipn in Hin.
    rewrite Forall_forall in Hrows. apply length_slice.
    rewrite (Hrows row Hin). exact Hb.
Qed.

Lemma length_diagonal (n : nat) (M : Matrix) :
  square n M -> length (diagonal M) = n.
Proof.
  intros HM. unfold diagonal. rewrite length_map, length_seq.
  destruct n as [|n].
  - destruct HM as [H0 _]. unfold shape0. rewrite H0. reflexivity.
  - rewrite (shape1_square (S n) M) by (try assumption; lia).
    destruct HM as [H0 _]. unfold shape0. rewrite H0. lia.
Qed.

Lemma matmul_square (n : nat) (A M : Matrix) :
  shape0 A = n -> shape1 M = n -> square n (matmul A M).
Proof.
  intros HA HM. unfold matmul. rewrite HA, HM.
  apply (square_map_seq
           (fun i j => Csum (map (fun k => Cmul (entry A i k) (entry M k j))
                               (seq 0 (shape1 A))))).
Qed.

Lemma shape0_matmul (A M : Matrix) : shape0 (matmul A M) = shape0 A.
Proof. unfold matmul, shape0. now rewrite length_map, length_seq. Qed.

Lemma shape0_diag (v : list C) : shape0 (diag v) = length v.
Proof. unfold diag, shape0. now rewrite length_map, length_seq. Qed.

(** The backend of the concrete runs keeps to the shapes. *)
Lemma test_backend_respects_shapes :
  respects_shapes (B := TestBackend.backend).
Proof.
  split; [|split].
  - intros U n Hn HU.
    cbn [cossin TestBackend.backend TestBackend.cossin_block_diagonal
         fst snd].
    pose proof HU as [Hlen _]. unfold shape0. rewrite Hlen.
    replace (2 * n - n) with n by lia.
    assert (H1 : square n (TestBackend.block 0 n U)).
    { pose proof (block_square (2 * n) 0 n U HU) as H.
      rewrite Nat.sub_0_r in H. apply H. lia. }
    assert (H2 : square n (TestBackend.block n (2 * n) U)).
    { pose proof (block_square (2 * n) n (2 * n) U HU) as H.
      replace (2 * n - n) with n in H by lia. apply H. lia. }
    split; [exact H1|]. split; [exact H2|]. split; apply square_eye.
  - intros u n Hu.
    change (eigh u) with (TestBackend.eigh_diagonal u).
    unfold TestBackend.eigh_diagonal. cbn [fst snd].
    pose proof Hu as [Hlen _]. split.
    + rewrite length_map. exact (length_diagonal n u Hu).
    + unfold shape0. rewrite Hlen. apply square_eye.
  - intros u n Hu.
    change (schur u) with (TestBackend.schur_triangular u).
    unfold TestBackend.schur_triangular. cbn [fst snd].
    pose proof Hu as [Hlen _]. split; [exact Hu|].
    unfold shape0. rewrite Hlen. apply square_eye.
Qed.

Section Depth.

Context {B : Backend}.

Hypothesis Hshapes : respects_shapes.

Lemma demultiplexor_with_agree
    (qsd1 qsd2 : list nat -> Matrix -> nat -> state -> result state)
    (m : nat) (demux_qubits : list nat) (U1 U2 : Matrix) (depth : nat)
    (st : state) :
  0 < m -> square m U1 -> square m U2 ->
  (forall V, square m V ->
     forall q d s, qsd1 q V d s = qsd2 q V d s) ->
  demultiplexor_with qsd1 demux_qubits U1 U2 depth st
  = demultiplexor_with qsd2 demux_qubits U1 U2 depth st.
Proof.
  intros Hm H1 H2 Hagree. destruct Hshapes as [_ [Heigh Hschur]].
  unfold demultiplexor_with. rewrite eigen_pair.
  set (u := matmul U1 (conj_transpose U2)).
  assert (Hu : square m u).
  { apply matmul_square; [now destruct H1|].
    now apply shape1_conj_transpose. }
  set (d := if is_hermitian_matrix u
            then map (fun x => (x, 0%R)) (fst (eigh u))
            else diagonal (fst (schur u))).
  set (E := if is_hermitian_matrix u then snd (eigh u) else snd (schur u)).
  assert (Hd : length d = m).
  { unfold d. destruct (is_hermitian_matrix u).
    - rewrite length_map. apply (Heigh u m Hu).
    - apply length_diagonal, (Hschur u m Hu). }
  assert (HE : square m E).
  { unfold E. destruct (is_hermitian_matrix u).
    - apply (Heigh u m Hu).
    - apply (Hschur u m Hu). }
  set (W := matmul (matmul (diag (map emath_sqrt d)) (conj_transpose E)) U2).
  assert (HW : square m W).
  { apply matmul_square.
    - now rewrite shape0_matmul, shape0_diag, length_map.
    - now apply shape1_square. }
  rewrite (Hagree W HW).
  destruct (qsd2 (Py.but_last demux_qubits) W (depth + 1) st) as [st1|e];
    [|reflexivity].
  cbn [Py.bind].
  destruct (Py.last_item demux_qubits) as [target|e]; [|reflexivity].
  cbn [Py.bind]. apply (Hagree E HE).
Qed.

Lemma qsd_succ_agree (f1 f2 : nat) (data : Matrix) (m : nat) :
  0 < m ->
  (forall V, square m V ->
     forall q d s,
       quantum_shannon_decomposition f1 data q V d s
       = quantum_shannon_decomposition f2 data q V d s) ->
  forall U, square (2 * m) U ->
    forall q d s,
      quantum_shannon_decomposition (S f1) data q U d s
      = quantum_shannon_decomposition (S f2) data q U d s.
Proof.
  intros Hm Hagree U HU q d s. cbn [quantum_shannon_decomposition].
  destruct (shape0 U =? 2); [reflexivity|].
  destruct (shape0 U =? 4); [reflexivity|].
  assert (Hhalf : shape0 U / 2 = m).
  { destruct HU as [Hlen _]. unfold shape0. rewrite Hlen.
    rewrite Nat.mul_comm. apply Nat.div_mul. lia. }
  rewrite Hhalf.
  destruct Hshapes as [Hcs _]. specialize (Hcs U m Hm HU).
  destruct (cossin U m m) as [[[u1 u2] vtheta] [v1h v2h]].
  cbn [fst snd] in Hcs. destruct Hcs as [Hu1 [Hu2 [Hv1 Hv2]]].
  rewrite (demultiplexor_with_agree _ _ m q v1h v2h d s Hm Hv1 Hv2 Hagree).
  destruct (demultiplexor_with _ q v1h v2h d s) as [st1|e]; [|reflexivity].
  cbn [Py.bind].
  destruct (get_ucry_cz q _ st1) as [st2|e]; [|reflexivity].
  cbn [Py.bind].
  rewrite (demultiplexor_with_agree _ _ m q u1 _ d st2 Hm Hu1
             (negate_columns_from_square _ m u2 Hu2) Hagree).
  reflexivity.
Qed.

Lemma qsd_stable (data : Matrix) (n : nat) :
  forall k V, square (2 ^ S n) V ->
    forall q d s,
      quantum_shannon_decomposition (S n + k) data q V d s
      = quantum_shannon_decomposition (S n) data q V d s.
Proof.
  induction n as [|n IH]; intros k V HV q d s.
  - cbn [Nat.add]. cbn [quantum_shannon_decomposition].
    destruct HV as [Hlen _]. unfold shape0. rewrite Hlen. reflexivity.
  - change (S (S n) + k) with (S (S n + k)).
    apply (qsd_succ_agree _ _ data (2 ^ S n)).
    + apply Nat.neq_0_lt_0, Nat.pow_nonzero. lia.
    + intros W HW q' d' s'. now apply IH.
    + now rewrite <- Nat.pow_succ_r'.
Qed.

End Depth.

(** X28.  When the numerical routines keep to the shapes that scipy
    documents, the recursion on a square array of side [2 ^ n], with
    [n >= 1], is never more than [n] calls deep: whatever the call does
    under the bound [n], a result or an exception, it does under every
    larger bound. *)
Theorem recursion_depth_bounded {B : Backend} (n k : nat) (data : Matrix)
    (qubits : list nat) (U : Matrix) (depth : nat) (st : state) :
  respects_shapes -> 1 <= n -> square (2 ^ n) U ->
  quantum_shannon_decomposition (n + k) data qubits U depth st
  = quantum_shannon_decomposition n data qubits U depth st.
Proof.
  intros Hs Hn HU. destruct n as [|n]; [lia|].
  now apply qsd_stable.
Qed.

Lemma recursion_depth_bounded_witness :
  quantum_shannon_decomposition (B := TestBackend.backend) (3 + 4) (eye 8)
    [0; 1; 2] (eye 8) 0 (empty_state 3)
  = quantum_shannon_decomposition (B := TestBackend.backend) 3 (eye 8)
      [0; 1; 2] (eye 8) 0 (empty_state 3).
Proof.
  apply (recursion_depth_bounded (B := TestBackend.backend) 3 4 (eye 8)
           [0; 1; 2] (eye 8) 0 (empty_state 3)
           test_backend_respects_shapes);
    [lia | apply square_eye].
Defined.

End DepthExtras.
